(** * SceneCanvas: the peel-and-fall simulation core

    A shallow embedding of [src/components/SceneCanvas.tsx]: the axis
    classification and the deformation law of [setupTapePeel], the
    pointer handlers [onDown], [onMove], [onUp], the frame callback
    [animate] and [tear], over the variables the effect closes over.

    Numbers.  JavaScript numbers and GLSL floats are idealised as real
    numbers ([R]): rounding is not modelled.  Two quotients of the
    source have a divisor that is not a constant.  The drag is
    normalised by the size of the viewport, which the properties take
    to be positive ([viewportOk]).  The fall threshold is divided by a
    span of the tape's box, which can be zero, and reads the box of the
    wrapped object, which is infinite when empty; it is therefore
    computed in [JS.num], the reals extended with the IEEE special
    values [NaN], [+Infinity] and [-Infinity].

    Collaborators.  The rendering engine is not modelled: the result of
    a raycast against the proxy surface, already converted to tape-local
    coordinates, is an input of the pointer events, and the frame delta
    is an input of the frame event.  What the engine guarantees of a
    hit is stated where it matters: a ray hits the proxy surface only
    if that surface has area ([proxyArea]).

    The other components.  The modules [Viewer], [Page] and [Landing]
    embed the viewer of [src/components/ModelViewer.tsx], the phases of
    [src/app/page.tsx], which hands the canvas its transition callback,
    and the quantity selector, the mint button and the reveal list of
    the landing page; the module [App] puts the page and its canvas
    together. *)

From Stdlib Require Import Reals Lra Lia ZArith List Bool.
Import ListNotations.

Local Open Scope R_scope.

(* ================================================================== *)
(** ** JavaScript numbers with the IEEE special values *)
(* ================================================================== *)

Module JS.

Inductive num : Type :=
| NaN
| NegInf
| PosInf
| Fin (r : R).

Definition neg (a : num) : num :=
  match a with
  | NaN => NaN
  | NegInf => PosInf
  | PosInf => NegInf
  | Fin r => Fin (- r)
  end.

(** [a + b] *)
Definition add (a b : num) : num :=
  match a, b with
  | NaN, _ | _, NaN => NaN
  | PosInf, NegInf | NegInf, PosInf => NaN
  | PosInf, _ | _, PosInf => PosInf
  | NegInf, _ | _, NegInf => NegInf
  | Fin x, Fin y => Fin (x + y)
  end.

(** [a - b] *)
Definition sub (a b : num) : num := add a (neg b).

(** The sign of an infinite quotient or product. *)
Definition inf_of_sign (positive : bool) : num :=
  if positive then PosInf else NegInf.

(** [a / b].  A zero divisor is the positive zero: the only divisor of
    the source that can vanish is a difference [max - min], and [x - x]
    is [+0] in IEEE arithmetic. *)
Definition div (a b : num) : num :=
  match a, b with
  | NaN, _ | _, NaN => NaN
  | Fin x, Fin y =>
      if Req_dec_T y 0 then
        if Req_dec_T x 0 then NaN
        else inf_of_sign (if Rlt_dec 0 x then true else false)
      else Fin (x / y)
  | Fin _, PosInf | Fin _, NegInf => Fin 0
  | PosInf, Fin y => inf_of_sign (if Rlt_dec y 0 then false else true)
  | NegInf, Fin y => inf_of_sign (if Rlt_dec y 0 then true else false)
  | _, _ => NaN
  end.

(** [a < b]; every comparison with [NaN] is false. *)
Definition ltb (a b : num) : bool :=
  match a, b with
  | NaN, _ | _, NaN => false
  | _, NegInf => false
  | NegInf, _ => true
  | PosInf, _ => false
  | Fin _, PosInf => true
  | Fin x, Fin y => if Rlt_dec x y then true else false
  end.

(** [a >= b] *)
Definition geb (a b : num) : bool :=
  match a, b with
  | NaN, _ | _, NaN => false
  | _, NegInf => true
  | NegInf, _ => false
  | PosInf, _ => true
  | Fin _, PosInf => false
  | Fin x, Fin y => if Rle_dec y x then true else false
  end.

(** [Math.max(a, b)]: [NaN] if either argument is [NaN]. *)
Definition max (a b : num) : num :=
  match a, b with
  | NaN, _ | _, NaN => NaN
  | _, _ => if ltb a b then b else a
  end.

(** [Math.min(a, b)]: [NaN] if either argument is [NaN]. *)
Definition min (a b : num) : num :=
  match a, b with
  | NaN, _ | _, NaN => NaN
  | _, _ => if ltb b a then b else a
  end.

(** [lo <= a <= hi] for a number that is finite. *)
Definition within (lo hi : R) (a : num) : Prop :=
  match a with
  | Fin r => lo <= r <= hi
  | _ => False
  end.

End JS.

(* ================================================================== *)
(** ** Axes, vectors and boxes *)
(* ================================================================== *)

(** [type Axis = 'x' | 'y' | 'z'] *)
Inductive Axis : Type := AxisX | AxisY | AxisZ.

Definition Axis_eqb (a b : Axis) : bool :=
  match a, b with
  | AxisX, AxisX | AxisY, AxisY | AxisZ, AxisZ => true
  | _, _ => false
  end.

(** The priority [x < y < z] of the axes: their position in the array
    literal that [setupTapePeel] sorts. *)
Definition axisRank (a : Axis) : nat :=
  match a with AxisX => 0%nat | AxisY => 1%nat | AxisZ => 2%nat end.

(** [THREE.Vector3], over the component type [A]. *)
Record Vector3 (A : Type) : Type := mkVector3 { vx : A; vy : A; vz : A }.
Arguments mkVector3 {A} _ _ _.
Arguments vx {A} _.
Arguments vy {A} _.
Arguments vz {A} _.

Definition getAxis {A} (v : Vector3 A) (axis : Axis) : A :=
  match axis with
  | AxisX => vx v
  | AxisY => vy v
  | AxisZ => vz v
  end.

Definition setAxis {A} (v : Vector3 A) (axis : Axis) (val : A) : Vector3 A :=
  match axis with
  | AxisX => mkVector3 val (vy v) (vz v)
  | AxisY => mkVector3 (vx v) val (vz v)
  | AxisZ => mkVector3 (vx v) (vy v) val
  end.

(** [THREE.Box3] *)
Record Box3 (A : Type) : Type := mkBox3 { bmin : Vector3 A; bmax : Vector3 A }.
Arguments mkBox3 {A} _ _.
Arguments bmin {A} _.
Arguments bmax {A} _.

Definition vzero : Vector3 R := mkVector3 0 0 0.

Definition dot (a b : Vector3 R) : R :=
  vx a * vx b + vy a * vy b + vz a * vz b.

Definition cross (a b : Vector3 R) : Vector3 R :=
  mkVector3 (vy a * vz b - vz a * vy b)
            (vz a * vx b - vx a * vz b)
            (vx a * vy b - vy a * vx b).

Definition vscale (a : Vector3 R) (k : R) : Vector3 R :=
  mkVector3 (vx a * k) (vy a * k) (vz a * k).

Definition vadd (a b : Vector3 R) : Vector3 R :=
  mkVector3 (vx a + vx b) (vy a + vy b) (vz a + vz b).

Definition vsub (a b : Vector3 R) : Vector3 R :=
  mkVector3 (vx a - vx b) (vy a - vy b) (vz a - vz b).

Definition lengthSq (a : Vector3 R) : R := dot a a.

(** Comparisons of numbers as the conditions of the source: [x < y],
    [x > y], [x >= y]. *)
Definition Rltb (x y : R) : bool := if Rlt_dec x y then true else false.
Definition Rgtb (x y : R) : bool := Rltb y x.
Definition Rgeb (x y : R) : bool := if Rle_dec y x then true else false.

(* ================================================================== *)
(** ** Axis classification ([setupTapePeel], the [dims] array) *)
(* ================================================================== *)

Record Dim : Type := mkDim { axis : Axis; len : R }.

(** [Array.prototype.sort] with a comparator.  ECMAScript requires the
    sort to be stable, which fixes its result for a consistent
    comparator: an element is moved in front of another one only when
    the comparator puts it strictly before.  [insertSorted cmp a l]
    places [a], which stood before all of [l] in the array, into the
    sorted [l]. *)
Section Sort.
Context {A : Type}.
Variable cmp : A -> A -> R.

Fixpoint insertSorted (a : A) (l : list A) : list A :=
  match l with
  | [] => [a]
  | b :: l' =>
      if Rlt_dec (cmp b a) 0 then b :: insertSorted a l' else a :: b :: l'
  end.

Fixpoint sort (l : list A) : list A :=
  match l with
  | [] => []
  | a :: l' => insertSorted a (sort l')
  end.
End Sort.

(** [(a, b) => b.len - a.len] *)
Definition byLenDesc (a b : Dim) : R := len b - len a.

Definition dims (bSize : Vector3 R) : list Dim :=
  sort byLenDesc
    [ mkDim AxisX (vx bSize); mkDim AxisY (vy bSize); mkDim AxisZ (vz bSize) ].

Record Axes : Type := mkAxes { lengthAxis : Axis; widthAxis : Axis; flatAxis : Axis }.

(** [dims[i].axis] *)
Definition dimAxis (l : list Dim) (i : nat) : Axis :=
  axis (nth i l (mkDim AxisX 0)).

(** [lengthAxis = dims[0].axis; widthAxis = dims[1].axis;
    flatAxis = dims[2].axis] *)
Definition classifyAxes (bSize : Vector3 R) : Axes :=
  let d := dims bSize in
  mkAxes (dimAxis d 0) (dimAxis d 1) (dimAxis d 2).

(* ================================================================== *)
(** ** The deformation law ([patchShader]) *)
(* ================================================================== *)

Record Uniforms : Type := mkUniforms {
  uPeel : R;
  uCurlR : R;
  uPeelNormal : Vector3 R;
  uFlatDir : Vector3 R;
  uPeelEdge : R;
  uMaxDist : R
}.

(** [_s] (and [_ns]): how far the peel line has passed the vertex. *)
Definition peelDistance (u : Uniforms) (position : Vector3 R) : R :=
  let _d := dot position (uPeelNormal u) - uPeelEdge u in
  let _peelLine := uPeel u * uMaxDist u in
  _peelLine - _d.

(** The block patched in after [#include <beginnormal_vertex>]. *)
Definition beginNormalVertex (u : Uniforms) (position objectNormal : Vector3 R)
  : Vector3 R :=
  let _ns := peelDistance u position in
  if Rgtb _ns 0 && Rgtb (uMaxDist u) 0 then
    let _na := _ns / uCurlR u in
    let _c := cos _na in
    let _sn := sin _na in
    let _nP := dot objectNormal (uPeelNormal u) in
    let _nF := dot objectNormal (uFlatDir u) in
    let _tgt := cross (uPeelNormal u) (uFlatDir u) in
    let _nK := dot objectNormal _tgt in
    vadd (vadd (vscale (uPeelNormal u) (_nP * _c + _nF * _sn))
               (vscale (uFlatDir u) (- _nP * _sn + _nF * _c)))
         (vscale _tgt _nK)
  else objectNormal.

(** The block patched in after [#include <begin_vertex>]. *)
Definition beginVertex (u : Uniforms) (transformed : Vector3 R) : Vector3 R :=
  let _s := peelDistance u transformed in
  if Rgtb _s 0 && Rgtb (uMaxDist u) 0 then
    let _a := _s / uCurlR u in
    let _dN := _s - uCurlR u * sin _a in
    let _dF := uCurlR u * (1 - cos _a) in
    vadd transformed (vadd (vscale (uPeelNormal u) _dN) (vscale (uFlatDir u) _dF))
  else transformed.

(** The same law as scalar functions of the peel distance [_s]: the
    displacement [_dN] along the peel normal, the displacement [_dF]
    along the flat direction and the angle [_a] (and [_na]) by which the
    normal is turned, each [0] where the guard of the shader leaves the
    vertex alone. *)
Definition curled (maxDist _s : R) : bool := Rgtb _s 0 && Rgtb maxDist 0.

Definition displacementN (curlR maxDist _s : R) : R :=
  if curled maxDist _s then _s - curlR * sin (_s / curlR) else 0.

Definition displacementF (curlR maxDist _s : R) : R :=
  if curled maxDist _s then curlR * (1 - cos (_s / curlR)) else 0.

Definition rotationAngle (curlR maxDist _s : R) : R :=
  if curled maxDist _s then _s / curlR else 0.

(** The formulas of the curled region on their own, as functions on
    all of [R], and their derivatives. *)
Definition rollN (curlR _s : R) : R := _s - curlR * sin (_s / curlR).
Definition rollF (curlR _s : R) : R := curlR * (1 - cos (_s / curlR)).
Definition rollN' (curlR _s : R) : R := 1 - cos (_s / curlR).
Definition rollF' (curlR _s : R) : R := sin (_s / curlR).

(** The derivatives of the two displacements with respect to [_s]. *)
Definition displacementN' (curlR maxDist _s : R) : R :=
  if curled maxDist _s then 1 - cos (_s / curlR) else 0.

Definition displacementF' (curlR maxDist _s : R) : R :=
  if curled maxDist _s then sin (_s / curlR) else 0.

(* ================================================================== *)
(** ** The simulation state (the [let] variables of the effect) *)
(* ================================================================== *)

(** What [setupTapePeel] leaves behind and nothing changes afterwards. *)
Record Scene : Type := mkScene {
  tapeMesh : bool;                        (* [tapeMesh] is not [null] *)
  axes : Axes;
  tapeBB : Box3 R;
  bananaBBInTape : option (Box3 JS.num)
}.

(** "Interaction State" *)
Record Interaction : Type := mkInteraction {
  isDragging : bool;
  peelConfigured : bool;
  dragLastX : R;
  dragLastY : R;
  isDeterminingDir : bool;
  dragStartX : R;
  dragStartY : R;
  dragStartLocalHit : option (Vector3 R);
  targetPeelProgress : R;
  currentPeelProgress : R;
  curPeelAxis : option Axis;
  curPeelSign : Z
}.

(** "Physics State", with the two coordinates of [bananaGroup] that the
    frame callback moves. *)
Record Physics : Type := mkPhysics {
  bananaFalling : bool;
  fallVel : R;
  bananaRotVelX : R;
  settled : bool;
  bananaFallThreshold : JS.num;
  transitionFired : bool;
  isTorn : bool;
  positionY : R;                          (* [bananaGroup.position.y] *)
  rotationX : R                           (* [bananaGroup.rotation.x] *)
}.

(** "Audio", and what has been emitted so far: the cues played and the
    calls of the [onTransition] callback. *)
Record Audio : Type := mkAudio {
  peelNode : bool;                        (* [peelNode] is not [null] *)
  peelGain : option R;                    (* [peelGain.gain.value] *)
  rips : nat;                             (* calls of [playRipSound] *)
  thuds : nat;                            (* calls of [playThudSound] *)
  transitions : nat                       (* calls of [onTransition] *)
}.

Record State : Type := mkState {
  scene : Scene;
  tapeUniforms : Uniforms;
  drag : Interaction;
  phys : Physics;
  audio : Audio
}.

(** The torn tape's own free flight ([tapeVel], [tapeRotVel],
    [lastMouseDelta], the delayed hide) draws on [Math.random] and on a
    timer and feeds nothing back into the fields above; it is left out. *)

Definition with_drag (d : Interaction) (s : State) : State :=
  mkState (scene s) (tapeUniforms s) d (phys s) (audio s).
Definition with_phys (p : Physics) (s : State) : State :=
  mkState (scene s) (tapeUniforms s) (drag s) p (audio s).
Definition with_audio (a : Audio) (s : State) : State :=
  mkState (scene s) (tapeUniforms s) (drag s) (phys s) a.
Definition with_uniforms (u : Uniforms) (s : State) : State :=
  mkState (scene s) u (drag s) (phys s) (audio s).

Definition set_uPeel (v : R) (u : Uniforms) : Uniforms :=
  mkUniforms v (uCurlR u) (uPeelNormal u) (uFlatDir u) (uPeelEdge u) (uMaxDist u).

Definition set_isDragging (b : bool) (d : Interaction) : Interaction :=
  mkInteraction b (peelConfigured d) (dragLastX d) (dragLastY d)
    (isDeterminingDir d) (dragStartX d) (dragStartY d) (dragStartLocalHit d)
    (targetPeelProgress d) (currentPeelProgress d) (curPeelAxis d) (curPeelSign d).

Definition set_currentPeelProgress (v : R) (d : Interaction) : Interaction :=
  mkInteraction (isDragging d) (peelConfigured d) (dragLastX d) (dragLastY d)
    (isDeterminingDir d) (dragStartX d) (dragStartY d) (dragStartLocalHit d)
    (targetPeelProgress d) v (curPeelAxis d) (curPeelSign d).

Definition set_bananaFalling (b : bool) (p : Physics) : Physics :=
  mkPhysics b (fallVel p) (bananaRotVelX p) (settled p) (bananaFallThreshold p)
    (transitionFired p) (isTorn p) (positionY p) (rotationX p).

(* ------------------------------------------------------------------ *)
(** *** Audio *)

Definition startPeelSound (a : Audio) : Audio :=
  if peelNode a then a
  else mkAudio true (Some 0.08) (rips a) (thuds a) (transitions a).

Definition stopPeelSound (a : Audio) : Audio :=
  mkAudio false None (rips a) (thuds a) (transitions a).

Definition playRipSound (a : Audio) : Audio :=
  mkAudio (peelNode a) (peelGain a) (S (rips a)) (thuds a) (transitions a).

Definition playThudSound (a : Audio) : Audio :=
  mkAudio (peelNode a) (peelGain a) (rips a) (S (thuds a)) (transitions a).

(** [onTransition?.()] *)
Definition callOnTransition (a : Audio) : Audio :=
  mkAudio (peelNode a) (peelGain a) (rips a) (thuds a) (S (transitions a)).

(* ------------------------------------------------------------------ *)
(** *** [setupTapePeel]: the state when the handlers start to matter *)

(** [Box3.isEmpty], [Box3.getSize], [Box3.getCenter] *)
Definition isEmpty (b : Box3 R) : bool :=
  Rltb (vx (bmax b)) (vx (bmin b)) || Rltb (vy (bmax b)) (vy (bmin b))
  || Rltb (vz (bmax b)) (vz (bmin b)).

Definition getSize (b : Box3 R) : Vector3 R :=
  if isEmpty b then vzero else vsub (bmax b) (bmin b).

Definition getCenter (b : Box3 R) : Vector3 R :=
  if isEmpty b then vzero else vscale (vadd (bmin b) (bmax b)) 0.5.

(** The box of the 4 x 80 grid that replaces a geometry of fewer than
    60 vertices: the plane of the two long extents through the centre. *)
Definition regeneratedBB (a : Axes) (bSize bCenter : Vector3 R) : Box3 R :=
  let half (ax : Axis) := getAxis bSize ax / 2 in
  let lo := setAxis (setAxis (setAxis vzero (widthAxis a) (- half (widthAxis a)))
                       (lengthAxis a) (- half (lengthAxis a))) (flatAxis a) 0 in
  let hi := setAxis (setAxis (setAxis vzero (widthAxis a) (half (widthAxis a)))
                       (lengthAxis a) (half (lengthAxis a))) (flatAxis a) 0 in
  mkBox3 (vadd lo bCenter) (vadd hi bCenter).

Definition initialInteraction : Interaction :=
  mkInteraction false false 0 0 false 0 0 None 0 0 None 0%Z.

(** [bananaGroup] is created at height [0], turned by [Math.PI / 2]. *)
Definition initialPhysics : Physics :=
  mkPhysics false 0 2 false (JS.Fin 1) false false 0 (PI / 2).

Definition initialAudio : Audio := mkAudio false None 0 0 0.

(** [boundingBox] is the box of the tape geometry, [vertCount] its
    number of vertices, [worldDirZ] the forward component of the flat
    axis in world space and [bananaBB] the box of the other meshes in
    the tape's local space. *)
Definition setupTapePeel (boundingBox : Box3 R) (vertCount : nat)
    (worldDirZ : R) (bananaBB : Box3 JS.num) : State :=
  let bSize := getSize boundingBox in
  let bCenter := getCenter boundingBox in
  let a := classifyAxes bSize in
  let flatDir := setAxis vzero (flatAxis a) (if Rgeb worldDirZ 0 then 1 else -1) in
  let bb := if (vertCount <? 60)%nat then regeneratedBB a bSize bCenter
            else boundingBox in
  mkState (mkScene true a bb (Some bananaBB))
          (mkUniforms 0 0.12 vzero flatDir 0 1)
          initialInteraction initialPhysics initialAudio.

(* ------------------------------------------------------------------ *)
(** *** The fall-trigger threshold *)

(** The value [onMove] stores in [bananaFallThreshold] when it locks
    [chosenAxis] with [sign]; [span] is [maxVal - minVal] of the tape
    box along the axis. *)
Definition fallThreshold (sign : Z) (bananaMin bananaMax : JS.num)
    (tapeMin tapeMax span : R) : JS.num :=
  let t :=
    if (sign =? 1)%Z
    then JS.div (JS.sub bananaMax (JS.Fin tapeMin)) (JS.Fin span)
    else JS.div (JS.sub (JS.Fin tapeMax) bananaMin) (JS.Fin span) in
  JS.min (JS.max (JS.add t (JS.Fin 0.05)) (JS.Fin 0.3)) (JS.Fin 0.95).




(* ------------------------------------------------------------------ *)
(** *** Events *)

(** A pointer event as the handlers read it: the pointer position, the
    first hit of the ray cast at that position against the proxy (or the
    tape), in the tape's local coordinates, [None] when the ray misses,
    and the sizes read from [window] and from the container. *)
Record PointerEvent : Type := mkPointerEvent {
  clientX : R;
  clientY : R;
  localHit : option (Vector3 R);
  innerWidth : R;
  innerHeight : R;
  clientWidth : R
}.

Definition sameAxis (a : Axis) (b : option Axis) : bool :=
  match b with
  | Some b' => Axis_eqb a b'
  | None => false
  end.

(** [THREE.MathUtils.lerp] *)
Definition lerp (x y t : R) : R := (1 - t) * x + t * y.

(* ------------------------------------------------------------------ *)
(** *** [onDown] *)

Definition onDown (e : PointerEvent) (s : State) : State :=
  if isTorn (phys s) || negb (tapeMesh (scene s)) then s else
  match localHit e with
  | None => s
  | Some point =>
      let d := drag s in
      if Rgtb (currentPeelProgress d) 0.05 then
        with_audio (startPeelSound (audio s))
          (with_drag
             (mkInteraction true true (clientX e) (clientY e)
                false (dragStartX d) (dragStartY d) (dragStartLocalHit d)
                (targetPeelProgress d) (currentPeelProgress d)
                (curPeelAxis d) (curPeelSign d)) s)
      else
        with_drag
          (mkInteraction true false (clientX e) (clientY e)
             true (clientX e) (clientY e) (Some point)
             (targetPeelProgress d) (currentPeelProgress d)
             (curPeelAxis d) (curPeelSign d)) s
  end.

(* ------------------------------------------------------------------ *)
(** *** [onMove] *)

(** The axis picked by the first gesture: along the drag when the ray
    still hits and the drag is long enough, else the axis whose nearest
    edge is closer to the point first pressed. *)
Definition chooseAxis (a : Axes) (bb : Box3 R) (start : Vector3 R)
    (hits : option (Vector3 R)) : Axis :=
  let localDrag :=
    match hits with
    | Some newLocalHit => vsub newLocalHit start
    | None => vzero
    end in
  if (match hits with Some _ => true | None => false end)
     && Rgtb (lengthSq localDrag) 0.0001 then
    let lenMove := Rabs (getAxis localDrag (lengthAxis a)) in
    let widMove := Rabs (getAxis localDrag (widthAxis a)) in
    if Rgtb widMove lenMove then widthAxis a else lengthAxis a
  else
    let hitL := getAxis start (lengthAxis a) in
    let distL := Rmin (Rabs (hitL - getAxis (bmin bb) (lengthAxis a)))
                      (Rabs (getAxis (bmax bb) (lengthAxis a) - hitL)) in
    let hitW := getAxis start (widthAxis a) in
    let distW := Rmin (Rabs (hitW - getAxis (bmin bb) (widthAxis a)))
                      (Rabs (getAxis (bmax bb) (widthAxis a) - hitW)) in
    if Rltb distW distL then widthAxis a else lengthAxis a.

(** The edge the peel starts from: [1] for the min edge, [-1] for the
    max edge. *)
Definition chooseSign (bb : Box3 R) (start : Vector3 R) (chosenAxis : Axis) : Z :=
  let hitVal := getAxis start chosenAxis in
  let minVal := getAxis (bmin bb) chosenAxis in
  let maxVal := getAxis (bmax bb) chosenAxis in
  if Rltb (Rabs (hitVal - minVal)) (Rabs (maxVal - hitVal)) then 1%Z else (-1)%Z.

(** The body of [if (!sameDir) { ... }]. *)
Definition relock (chosenAxis : Axis) (sign : Z) (s : State) : State :=
  let bb := tapeBB (scene s) in
  let d := drag s in
  let u := tapeUniforms s in
  let minVal := getAxis (bmin bb) chosenAxis in
  let maxVal := getAxis (bmax bb) chosenAxis in
  let edge := if (sign =? 1)%Z then minVal else maxVal in
  let span := maxVal - minVal in
  let peelNormal := setAxis vzero chosenAxis (IZR sign) in
  let threshold :=
    match bananaBBInTape (scene s) with
    | Some b =>
        fallThreshold sign (getAxis (bmin b) chosenAxis) (getAxis (bmax b) chosenAxis)
          minVal maxVal span
    | None => bananaFallThreshold (phys s)
    end in
  let p := phys s in
  mkState (scene s)
    (mkUniforms (uPeel u) (uCurlR u) peelNormal (uFlatDir u) (edge * IZR sign) span)
    (mkInteraction (isDragging d) (peelConfigured d) (dragLastX d) (dragLastY d)
       (isDeterminingDir d) (dragStartX d) (dragStartY d) (dragStartLocalHit d)
       0 0 (Some chosenAxis) sign)
    (mkPhysics (bananaFalling p) (fallVel p) (bananaRotVelX p) (settled p)
       threshold (transitionFired p) (isTorn p) (positionY p) (rotationX p))
    (audio s).

(** The branch [if (isDeterminingDir) { ... return; }] once the drag is
    past the 8 pixels of jitter. *)
Definition lockDirection (e : PointerEvent) (start : Vector3 R) (s : State) : State :=
  let chosenAxis := chooseAxis (axes (scene s)) (tapeBB (scene s)) start (localHit e) in
  let sign := chooseSign (tapeBB (scene s)) start chosenAxis in
  let sameDir := sameAxis chosenAxis (curPeelAxis (drag s))
                 && (sign =? curPeelSign (drag s))%Z in
  let s1 := if negb sameDir then relock chosenAxis sign s else s in
  let d := drag s1 in
  with_audio (startPeelSound (audio s1))
    (with_drag
       (mkInteraction (isDragging d) true (clientX e) (clientY e)
          false (dragStartX d) (dragStartY d) (dragStartLocalHit d)
          (targetPeelProgress d) (currentPeelProgress d)
          (curPeelAxis d) (curPeelSign d)) s1).

(** The rest of [onMove]: the drag advances the peel. *)
Definition advancePeel (e : PointerEvent) (s : State) : State :=
  let d := drag s in
  let screenDx := clientX e - dragLastX d in
  let screenDy := dragLastY d - clientY e in
  let dx := screenDx / innerWidth e in
  let dy := screenDy / innerHeight e in
  let dist := sqrt (dx * dx + dy * dy) in
  let sensitivity := if Rltb (clientWidth e) 768 then 4.5 else 3.5 in
  let target := targetPeelProgress d + dist * sensitivity in
  let target := Rmax 0 (Rmin 1.05 target) in
  let a := audio s in
  with_audio
    (match peelGain a with
     | Some _ => mkAudio (peelNode a) (Some (Rmin (0.04 + dist * 8) 0.2))
                   (rips a) (thuds a) (transitions a)
     | None => a
     end)
    (with_drag
       (mkInteraction (isDragging d) (peelConfigured d) (clientX e) (clientY e)
          (isDeterminingDir d) (dragStartX d) (dragStartY d) (dragStartLocalHit d)
          target (currentPeelProgress d) (curPeelAxis d) (curPeelSign d)) s).

Definition onMove (e : PointerEvent) (s : State) : State :=
  if negb (isDragging (drag s)) || isTorn (phys s) then s else
  if isDeterminingDir (drag s) then
    let dx := clientX e - dragStartX (drag s) in
    let dy := clientY e - dragStartY (drag s) in
    if Rltb (sqrt (dx * dx + dy * dy)) 8 then s else
    match dragStartLocalHit (drag s) with
    | Some start => lockDirection e start s
    | None => s                 (* [dragStartLocalHit!] would throw *)
    end
  else
  if negb (peelConfigured (drag s)) then s else advancePeel e s.

(* ------------------------------------------------------------------ *)
(** *** [onUp] and [tear] *)

Definition onUp (s : State) : State :=
  with_audio (stopPeelSound (audio s)) (with_drag (set_isDragging false (drag s)) s).

Definition tear (s : State) : State :=
  let p := phys s in
  with_audio (playRipSound (stopPeelSound (audio s)))
    (with_phys
       (mkPhysics true (fallVel p) (bananaRotVelX p) (settled p)
          (bananaFallThreshold p) (transitionFired p) true
          (positionY p) (rotationX p))
       (with_drag (set_isDragging false (drag s)) s)).

(* ------------------------------------------------------------------ *)
(** *** [animate]: one frame *)

(** [if (!isTorn && peelConfigured) { ... }] *)
Definition easePeel (s : State) : State :=
  if negb (isTorn (phys s)) && peelConfigured (drag s) then
    if negb (bananaFalling (phys s)) then
      let cur := lerp (currentPeelProgress (drag s)) (targetPeelProgress (drag s)) 0.15 in
      let s1 := with_uniforms (set_uPeel (Rmin cur 1.0) (tapeUniforms s))
                  (with_drag (set_currentPeelProgress cur (drag s)) s) in
      if JS.geb (JS.Fin cur) (bananaFallThreshold (phys s1))
      then with_phys (set_bananaFalling true (phys s1)) s1
      else s1
    else
      let cur := lerp (currentPeelProgress (drag s)) 1.05 0.3 in
      let s1 := with_uniforms (set_uPeel (Rmin cur 1.0) (tapeUniforms s))
                  (with_drag (set_currentPeelProgress cur (drag s)) s) in
      if Rgeb cur 0.99 then tear s1 else s1
  else s.

(** [if (bananaFalling && bananaGroup && !settled) { ... }] at the
    clamped delta-time [dt]. *)
Definition fallStep (dt : R) (s : State) : State :=
  let p := phys s in
  if bananaFalling p && negb (settled p) then
    let fallVel1 := fallVel p - 9.8 * dt in
    let y1 := positionY p + fallVel1 * dt in
    let rotX1 := rotationX p + bananaRotVelX p * dt in
    let fire := negb (transitionFired p) && Rltb y1 (-2) in
    let a1 := if fire then callOnTransition (audio s) else audio s in
    let fired1 := if fire then true else transitionFired p in
    if Rltb y1 (-3) then
      let fallVel2 := fallVel1 * -0.45 in
      let rotVel2 := bananaRotVelX p * -0.5 in
      let a2 := playThudSound a1 in
      if Rltb (Rabs fallVel2) 0.4 then
        with_audio a2
          (with_phys (mkPhysics (bananaFalling p) 0 0 true (bananaFallThreshold p)
                        fired1 (isTorn p) (-3) rotX1) s)
      else
        with_audio a2
          (with_phys (mkPhysics (bananaFalling p) fallVel2 rotVel2 (settled p)
                        (bananaFallThreshold p) fired1 (isTorn p) (-3) rotX1) s)
    else
      with_audio a1
        (with_phys (mkPhysics (bananaFalling p) fallVel1 (bananaRotVelX p) (settled p)
                      (bananaFallThreshold p) fired1 (isTorn p) y1 rotX1) s)
  else s.

(** [delta] is [clock.getDelta()]. *)
Definition animate (delta : R) (s : State) : State :=
  let dt := Rmin delta (1 / 30) in
  fallStep dt (easePeel s).

(* ------------------------------------------------------------------ *)
(** *** Runs *)

Inductive Event : Type :=
| PointerDown (e : PointerEvent)
| PointerMove (e : PointerEvent)
| PointerUp
| Frame (delta : R).

Definition step (s : State) (ev : Event) : State :=
  match ev with
  | PointerDown e => onDown e s
  | PointerMove e => onMove e s
  | PointerUp => onUp s
  | Frame delta => animate delta s
  end.

Definition run (s : State) (evs : list Event) : State := fold_left step evs s.

(** The states the effect can be in: those reached from a set-up scene
    by pointer events and frames. *)
Inductive reachable : State -> Prop :=
| reachable_setup boundingBox vertCount worldDirZ bananaBB :
    reachable (setupTapePeel boundingBox vertCount worldDirZ bananaBB)
| reachable_step s ev :
    reachable s -> reachable (step s ev).

(** A viewport that can deliver pointer events has a positive size. *)
Definition viewportOk (e : PointerEvent) : Prop :=
  0 < innerWidth e /\ 0 < innerHeight e.

(** The events of a run hold no further press. *)
Definition noPress (evs : list Event) : bool :=
  forallb (fun ev => match ev with PointerDown _ => false | _ => true end) evs.

(* ------------------------------------------------------------------ *)
(** *** A gesture that changes the axis *)

(** The long axis that is not the one locked before, and the move with
    which a fresh gesture picks it: 8 pixels to the right of the press
    [e], the ray one unit further along [ax] than the point pressed. *)
Definition otherAxis (a : Axes) (locked : option Axis) : Axis :=
  if sameAxis (lengthAxis a) locked then widthAxis a else lengthAxis a.

Definition dragAlong (e : PointerEvent) (point : Vector3 R) (ax : Axis) : PointerEvent :=
  mkPointerEvent (clientX e + 8) (clientY e) (Some (vadd point (setAxis vzero ax 1)))
    (innerWidth e) (innerHeight e) (clientWidth e).

(* ------------------------------------------------------------------ *)
(** *** Two small scenes, for examples *)

(** A tape of 4 x 2 x 1 (length along x, width along y) over a wrapped
    object, a press near the min edge of the length axis and two drags
    along it. *)
Definition exampleBox : Box3 R := mkBox3 (mkVector3 0 0 0) (mkVector3 4 2 1).

Definition exampleBanana : Box3 JS.num :=
  mkBox3 (mkVector3 (JS.Fin 1) (JS.Fin 0) (JS.Fin (-1)))
         (mkVector3 (JS.Fin 3) (JS.Fin 2) (JS.Fin 0)).

Definition exampleSetup : State := setupTapePeel exampleBox 100 1 exampleBanana.

Definition examplePress : PointerEvent :=
  mkPointerEvent 100 100 (Some (mkVector3 1 1 0)) 1000 1000 1000.

Definition exampleDrag : PointerEvent :=
  mkPointerEvent 110 100 (Some (mkVector3 2 1 0)) 1000 1000 1000.

Definition exampleDrag2 : PointerEvent :=
  mkPointerEvent 410 100 (Some (mkVector3 3 1 0)) 1000 1000 1000.

Definition examplePressed : State := onDown examplePress exampleSetup.

Definition exampleLocked : State := onMove exampleDrag examplePressed.

(** A wrapped object that is a point, at the corner of [exampleBox]. *)
Definition pointBanana : Box3 JS.num :=
  mkBox3 (mkVector3 (JS.Fin 0) (JS.Fin 0) (JS.Fin 0))
         (mkVector3 (JS.Fin 0) (JS.Fin 0) (JS.Fin 0)).

(** A body in free fall just above the floor, slow enough to settle on
    its first bounce. *)
Definition exampleFalling : State :=
  with_phys (mkPhysics true (-0.3) 2 false (JS.Fin 0.8) true true (-2.99) 0)
    exampleSetup.

(** The uniforms of a fully peeled unit tape along x with the curl
    radius of the source, a vertex the peel line has not reached, and
    the two vertices half a turn and a full turn into the roll. *)
Definition halfTurn : R := PI * 0.12.
Definition fullTurn : R := 2 * PI * 0.12.

Definition curlUniforms (peel : R) : Uniforms :=
  mkUniforms peel 0.12 (mkVector3 1 0 0) (mkVector3 0 0 1) 0 1.

Definition flatVertex : Vector3 R := mkVector3 0.75 0 0.
Definition halfTurnVertex : Vector3 R := mkVector3 (1 - halfTurn) 0 0.
Definition fullTurnVertex : Vector3 R := mkVector3 (1 - fullTurn) 0 0.

(* ================================================================== *)
(** ** The rest of [SceneCanvas.tsx] *)
(* ================================================================== *)

(* ------------------------------------------------------------------ *)
(** *** Responsive helpers *)

Definition BASE_MODEL_SCALE : R := 3.
Definition CAMERA_Z : R := 6.
Definition BANANA_Z : R := -0.8.

(** [THREE.MathUtils.degToRad] *)
Definition degToRad (degrees : R) : R := degrees * (PI / 180).

(** The width of the world visible at the depth of the object, in a
    viewport of the given aspect ratio ([visibleW]). *)
Definition visibleWidth (aspect : R) : R :=
  let dist := CAMERA_Z - BANANA_Z in
  let halfTan := tan (degToRad (45 / 2)) in
  2 * halfTan * dist * aspect.

Definition getResponsiveScale (modelScreenWidthRatio aspect : R) : R :=
  if Rgeb aspect 1 then 1 else
  let visibleW := visibleWidth aspect in
  let baseW := BASE_MODEL_SCALE * modelScreenWidthRatio in
  Rmax (visibleW * 0.92 / baseW) 1.

(** What [loadModel] measures on the box of the loaded model:
    [modelBaseSize] and [modelScreenWidthRatio]. *)
Record ModelMetrics : Type := mkModelMetrics {
  modelBaseSize : R;
  modelScreenWidthRatio : R
}.

Definition measureModel (size : Vector3 R) : ModelMetrics :=
  let base := Rmax (Rmax (vx size) (vy size)) (vz size) in
  mkModelMetrics base (vx size / base).

(** The scale [loadModel] and [updateResponsive] give [bananaGroup]. *)
Definition groupScale (m : ModelMetrics) (containerWidth containerHeight : R) : R :=
  let aspect := containerWidth / containerHeight in
  BASE_MODEL_SCALE * getResponsiveScale (modelScreenWidthRatio m) aspect
  / modelBaseSize m.

(* ------------------------------------------------------------------ *)
(** *** Counting frames, and geometry of the tape box *)

Definition countFrames (evs : list Event) : nat :=
  length (filter (fun ev => match ev with Frame _ => true | _ => false end) evs).

(** The unit vector along an axis. *)
Definition unitAxis (a : Axis) : Vector3 R := setAxis vzero a 1.

(** [p] lies between the two edges of the box along the axis. *)
Definition betweenEdges (bb : Box3 R) (a : Axis) (p : Vector3 R) : Prop :=
  getAxis (bmin bb) a <= getAxis p a <= getAxis (bmax bb) a.

(** The edge a peel with [sign] starts from, and the distance of [p]
    from it along the axis. *)
Definition originEdge (bb : Box3 R) (a : Axis) (sign : Z) : R :=
  if (sign =? 1)%Z then getAxis (bmin bb) a else getAxis (bmax bb) a.

Definition fromOrigin (bb : Box3 R) (a : Axis) (sign : Z) (p : Vector3 R) : R :=
  IZR sign * (getAxis p a - originEdge bb a sign).

Definition spanAlong (bb : Box3 R) (a : Axis) : R :=
  getAxis (bmax bb) a - getAxis (bmin bb) a.

(** The uniforms agree with the locked pair. *)
Definition uniformsLocked (s : State) (a : Axis) : Prop :=
  let u := tapeUniforms s in
  let bb := tapeBB (scene s) in
  let sign := curPeelSign (drag s) in
  uPeelNormal u = setAxis vzero a (IZR sign)
  /\ uPeelEdge u = originEdge bb a sign * IZR sign
  /\ uMaxDist u = spanAlong bb a.

(** A stored fall threshold is [NaN] or a number in [[0.3, 1]]. *)
Definition thresholdOk (thr : JS.num) : Prop :=
  thr = JS.NaN \/ exists t, thr = JS.Fin t /\ 0.3 <= t <= 1.

(** The example tape over a wrapped object that ends at the tape's min
    edge (threshold 0.3): locked, dragged to the full target, and three
    frames later. *)
Definition quickSetup : State := setupTapePeel exampleBox 100 1 pointBanana.

Definition quickLocked : State := onMove exampleDrag (onDown examplePress quickSetup).

Definition quickDragged : State := onMove exampleDrag2 quickLocked.

Definition quickEvents : list Event :=
  [PointerDown examplePress; PointerMove exampleDrag; PointerMove exampleDrag2;
   Frame 0.01; Frame 0.01; Frame 0.01].

Definition quickFalling : State := run quickSetup quickEvents.

(** The example run frame by frame: two frames after the long drag the
    tape is still peeling, and the third starts the fall. *)
Definition quickPeeling : State := animate 0.01 (animate 0.01 quickDragged).

Definition quickFallen : State := animate 0.01 quickPeeling.

(** What the uniforms and the locked pair are in a reachable state. *)
Definition lockOk (s : State) : Prop :=
  uCurlR (tapeUniforms s) = 0.12
  /\ (uFlatDir (tapeUniforms s) = setAxis vzero (flatAxis (axes (scene s))) 1
      \/ uFlatDir (tapeUniforms s) = setAxis vzero (flatAxis (axes (scene s))) (-1))
  /\ match curPeelAxis (drag s) with
     | None => curPeelSign (drag s) = 0%Z
     | Some a =>
         (a = lengthAxis (axes (scene s)) \/ a = widthAxis (axes (scene s)))
         /\ (curPeelSign (drag s) = 1%Z \/ curPeelSign (drag s) = (-1)%Z)
         /\ uniformsLocked s a
     end.

(* ================================================================== *)
(** ** [ModelViewer.tsx]: the auto-rotating viewer *)
(* ================================================================== *)

Module Viewer.

(** The variables of the effect, with the two angles of
    [model.rotation] that the frame callback writes. *)
Record State : Type := mkState {
  disposed : bool;
  model : bool;                           (* [model] is not [null] *)
  autoRotate : bool;
  mouseX : R;
  mouseY : R;
  targetRotY : R;
  targetRotX : R;
  currentRotY : R;
  currentRotX : R;
  autoAngle : R;
  rotationY : R;                          (* [model.rotation.y] *)
  rotationX : R                           (* [model.rotation.x] *)
}.

Definition initial : State := mkState false false true 0 0 0 0 0 0 0 0 0.

(** The load callback: the scene of the asset becomes the model, with
    the rotation a freshly loaded scene has. *)
Definition onLoad (s : State) : State :=
  if disposed s then s else
  mkState (disposed s) true (autoRotate s) (mouseX s) (mouseY s)
    (targetRotY s) (targetRotX s) (currentRotY s) (currentRotX s) (autoAngle s) 0 0.

Definition animate (delta : R) (s : State) : State :=
  if disposed s then s else
  let dt := Rmin delta (1 / 30) in
  if model s then
    if autoRotate s then
      let autoAngle1 := autoAngle s + ((PI * 2) / 10) * dt in
      mkState (disposed s) (model s) (autoRotate s) (mouseX s) (mouseY s)
        (targetRotY s) (targetRotX s) autoAngle1 0 autoAngle1 autoAngle1 0
    else
      let targetRotY1 := mouseX s * PI in
      let targetRotX1 := mouseY s * PI * 0.3 in
      let currentRotY1 := currentRotY s + (targetRotY1 - currentRotY s) * 0.08 in
      let currentRotX1 := currentRotX s + (targetRotX1 - currentRotX s) * 0.08 in
      mkState (disposed s) (model s) (autoRotate s) (mouseX s) (mouseY s)
        targetRotY1 targetRotX1 currentRotY1 currentRotX1 (autoAngle s)
        currentRotY1 currentRotX1
  else s.

(** [container.getBoundingClientRect()] *)
Record Rect : Type := mkRect { left : R; top : R; width : R; height : R }.

Definition set_autoRotate (b : bool) (s : State) : State :=
  mkState (disposed s) (model s) b (mouseX s) (mouseY s)
    (targetRotY s) (targetRotX s) (currentRotY s) (currentRotX s) (autoAngle s)
    (rotationY s) (rotationX s).

Definition set_mouse (x y : R) (s : State) : State :=
  mkState (disposed s) (model s) (autoRotate s) x y
    (targetRotY s) (targetRotX s) (currentRotY s) (currentRotX s) (autoAngle s)
    (rotationY s) (rotationX s).

Definition onMouseEnter (s : State) : State := set_autoRotate false s.

Definition onMouseMove (clientX clientY : R) (rect : Rect) (s : State) : State :=
  set_mouse ((clientX - left rect) / width rect * 2 - 1)
            ((clientY - top rect) / height rect * 2 - 1) s.

(** [autoRotate = true; autoAngle = currentRotY] *)
Definition resumeAuto (s : State) : State :=
  mkState (disposed s) (model s) true (mouseX s) (mouseY s)
    (targetRotY s) (targetRotX s) (currentRotY s) (currentRotX s) (currentRotY s)
    (rotationY s) (rotationX s).

Definition onMouseLeave (s : State) : State := resumeAuto s.

(** [touches] are the positions of [e.touches]. *)
Definition onTouchMove (touches : list (R * R)) (rect : Rect) (s : State) : State :=
  match touches with
  | [] => s
  | (clientX, clientY) :: _ =>
      set_mouse ((clientX - left rect) / width rect * 2 - 1)
                ((clientY - top rect) / height rect * 2 - 1)
                (set_autoRotate false s)
  end.

Definition onTouchEnd (s : State) : State := resumeAuto s.

Inductive Event : Type :=
| MouseEnter
| MouseMove (clientX clientY : R) (rect : Rect)
| MouseLeave
| TouchMove (touches : list (R * R)) (rect : Rect)
| TouchEnd
| Frame (delta : R).

Definition step (s : State) (ev : Event) : State :=
  match ev with
  | MouseEnter => onMouseEnter s
  | MouseMove x y rect => onMouseMove x y rect s
  | MouseLeave => onMouseLeave s
  | TouchMove touches rect => onTouchMove touches rect s
  | TouchEnd => onTouchEnd s
  | Frame delta => animate delta s
  end.

Definition run (s : State) (evs : list Event) : State := fold_left step evs s.

(** The states of a mounted viewer: events, and the asset loading once. *)
Inductive reachable : State -> Prop :=
| reachable_initial : reachable initial
| reachable_step s ev : reachable s -> reachable (step s ev)
| reachable_load s : reachable s -> model s = false -> reachable (onLoad s).

(** The position and the scale the load callback gives the model,
    from the box of the loaded scene. *)
Record Placement : Type := mkPlacement { position : Vector3 R; scale : R }.

Definition placeModel (box : Box3 R) : Placement :=
  let size := getSize box in
  let center := getCenter box in
  let maxDim := Rmax (Rmax (vx size) (vy size)) (vz size) in
  mkPlacement (vsub vzero center) (2.2 / maxDim).

(** The rotation [model.rotation] gives the model: with the Euler order
    XYZ of three.js and no turn about z, a vector is turned about the y
    axis first and about the x axis next. *)
Definition rotateY (angle : R) (v : Vector3 R) : Vector3 R :=
  mkVector3 (cos angle * vx v + sin angle * vz v)
            (vy v)
            (- sin angle * vx v + cos angle * vz v).

Definition rotateX (angle : R) (v : Vector3 R) : Vector3 R :=
  mkVector3 (vx v)
            (cos angle * vy v - sin angle * vz v)
            (sin angle * vy v + cos angle * vz v).

(** Where a point of the model lies in the scene when the model is
    turned by [rotX] and [rotY]: an [Object3D] scales, rotates and then
    translates. *)
Definition toScene (p : Placement) (rotX rotY : R) (v : Vector3 R) : Vector3 R :=
  vadd (rotateX rotX (rotateY rotY (vscale v (scale p)))) (position p).

(** The time a run of frames advances the animation by: each frame
    counts for its delta, capped at 1/30 s. *)
Definition animationTime (deltas : list R) : R :=
  fold_right (fun delta t => Rmin delta (1 / 30) + t) 0 deltas.


End Viewer.

(* ================================================================== *)
(** ** [app/page.tsx]: the phases of the page *)
(* ================================================================== *)

Module Page.

(** [type Phase = 'intro' | 'transition' | 'landing'] *)
Inductive Phase : Type := intro | transition | landing.

(** [handleTransition], the callback handed to [SceneCanvas]. *)
Definition handleTransition (phase : Phase) : Phase :=
  match phase with
  | intro => transition
  | _ => phase
  end.

(** The effect arms its 1000 ms timer only in phase [transition], and
    clears it when the phase changes; when it fires it sets [landing]. *)
Definition timerFires (phase : Phase) : Phase :=
  match phase with
  | transition => landing
  | _ => phase
  end.

Inductive Event : Type := TransitionCallback | TimerFires.

Definition step (phase : Phase) (ev : Event) : Phase :=
  match ev with
  | TransitionCallback => handleTransition phase
  | TimerFires => timerFires phase
  end.

Definition run (phase : Phase) (evs : list Event) : Phase := fold_left step evs phase.

(** [{phase !== 'landing' && <SceneCanvas .../>}] and
    [{phase !== 'intro' && <LandingPage />}] *)
Definition showsCanvas (phase : Phase) : bool :=
  match phase with landing => false | _ => true end.

Definition showsLanding (phase : Phase) : bool :=
  match phase with intro => false | _ => true end.

Definition rank (phase : Phase) : nat :=
  match phase with intro => 0 | transition => 1 | landing => 2 end.

End Page.

(* ================================================================== *)
(** ** The page with its canvas *)
(* ================================================================== *)

Module App.

(** The phase of the page, and the state of the canvas effect that is
    mounted, once its tape is set up: [None] while its model loads, and
    when no canvas is mounted. *)
Record World : Type := mkWorld { phase : Page.Phase; canvas : option State }.

Definition initial : World := mkWorld Page.intro None.

Definition Phase_eqb (a b : Page.Phase) : bool :=
  match a, b with
  | Page.intro, Page.intro | Page.transition, Page.transition
  | Page.landing, Page.landing => true
  | _, _ => false
  end.

(** [handleTransition] is rebuilt when the phase changes
    ([useCallback(..., [phase])]) and the effect of the canvas depends
    on it ([useEffect(..., [onTransition])]): a change of phase disposes
    of the running effect, and until [landing] starts a new one, whose
    model then loads. *)
Definition remount (old new : Page.Phase) (c : option State) : option State :=
  if Phase_eqb old new then c else None.

Inductive Input : Type :=
| Loaded (boundingBox : Box3 R) (vertCount : nat) (worldDirZ : R)
         (bananaBB : Box3 JS.num)          (* the loader calls back *)
| Canvas (ev : Event)                      (* a pointer event or a frame *)
| TimerFires.                              (* the 1000 ms timer *)

Definition step (w : World) (i : Input) : World :=
  match i with
  | Loaded boundingBox vertCount worldDirZ bananaBB =>
      match phase w, canvas w with
      | Page.landing, _ => w               (* no canvas is mounted *)
      | _, Some _ => w                     (* an effect loads its model once *)
      | _, None =>
          mkWorld (phase w)
            (Some (setupTapePeel boundingBox vertCount worldDirZ bananaBB))
      end
  | Canvas ev =>
      match canvas w with
      | None => w
      | Some s =>
          let s' := step s ev in
          let called := (transitions (audio s) <? transitions (audio s'))%nat in
          let phase' := if called then Page.handleTransition (phase w) else phase w in
          mkWorld phase' (remount (phase w) phase' (Some s'))
      end
  | TimerFires =>
      let phase' := Page.timerFires (phase w) in
      mkWorld phase' (remount (phase w) phase' (canvas w))
  end.

Definition run (w : World) (inputs : list Input) : World := fold_left step inputs w.

End App.

(* ================================================================== *)
(** ** The landing page ([unnamed/part_000]) *)
(* ================================================================== *)

Module Landing.

(** The quantity selector: [qty], and the number of times [bounceQty]
    has been called. *)
Record Qty : Type := mkQty { qty : Z; bounces : nat }.

Definition initialQty : Qty := mkQty 1 0.

Definition decrement (s : Qty) : Qty :=
  if (qty s >? 1)%Z then mkQty (qty s - 1) (S (bounces s)) else s.

Definition increment (s : Qty) : Qty :=
  if (qty s <? 20)%Z then mkQty (qty s + 1) (S (bounces s)) else s.

Inductive Click : Type := Minus | Plus.

Definition click (s : Qty) (c : Click) : Qty :=
  match c with Minus => decrement s | Plus => increment s end.

(** [type MintStatus = 'idle' | 'connecting' | 'done'], and the timers
    [handleMint] has set and that have not fired yet. *)
Inductive MintStatus : Type := idle | connecting | done.

Inductive Timer : Type := After1200 | After2000.

Record Mint : Type := mkMint { mintStatus : MintStatus; timers : list Timer }.

Definition initialMint : Mint := mkMint idle [].

Definition handleMint (s : Mint) : Mint :=
  match mintStatus s with
  | idle => mkMint connecting (timers s ++ [After1200])
  | _ => s
  end.

Definition Timer_eqb (a b : Timer) : bool :=
  match a, b with
  | After1200, After1200 | After2000, After2000 => true
  | _, _ => false
  end.

Fixpoint removeTimer (t : Timer) (l : list Timer) : list Timer :=
  match l with
  | [] => []
  | x :: l' => if Timer_eqb t x then l' else x :: removeTimer t l'
  end.

(** A pending timer fires and runs its callback. *)
Definition fire (t : Timer) (s : Mint) : Mint :=
  if existsb (Timer_eqb t) (timers s) then
    match t with
    | After1200 => mkMint done (removeTimer t (timers s) ++ [After2000])
    | After2000 => mkMint idle (removeTimer t (timers s))
    end
  else s.

Inductive MintEvent : Type := ClickMint | Fire (t : Timer).

Definition mintStep (s : Mint) (ev : MintEvent) : Mint :=
  match ev with
  | ClickMint => handleMint s
  | Fire t => fire t s
  end.

(** [addRevealRef]: an element is identified by a number, [None] is
    the [null] React passes when an element unmounts. *)
Definition addRevealRef (revealRefs : list nat) (el : option nat) : list nat :=
  match el with
  | Some e => if existsb (Nat.eqb e) revealRefs then revealRefs else revealRefs ++ [e]
  | None => revealRefs
  end.

End Landing.

(* ================================================================== *)
(** * Properties *)
(* ================================================================== *)

(** ** Comparisons *)

Lemma Rltb_true x y : Rltb x y = true <-> x < y.
Proof. unfold Rltb; destruct (Rlt_dec x y); split; intros; try easy; lra. Qed.

Lemma Rltb_false x y : Rltb x y = false <-> y <= x.
Proof. unfold Rltb; destruct (Rlt_dec x y); split; intros; try easy; lra. Qed.

Lemma Rgtb_true x y : Rgtb x y = true <-> x > y.
Proof. unfold Rgtb; rewrite Rltb_true; lra. Qed.

Lemma Rgtb_false x y : Rgtb x y = false <-> x <= y.
Proof. unfold Rgtb; rewrite Rltb_false; lra. Qed.

Lemma Rgeb_true x y : Rgeb x y = true <-> x >= y.
Proof. unfold Rgeb; destruct (Rle_dec y x); split; intros; try easy; lra. Qed.

Lemma Rgeb_false x y : Rgeb x y = false <-> x < y.
Proof. unfold Rgeb; destruct (Rle_dec y x); split; intros; try easy; lra. Qed.

(** Decide every comparison of reals in the goal and drop the cases
    that linear arithmetic refutes. *)
Ltac rcases :=
  repeat match goal with
    | |- context [Rlt_dec ?a ?b] => destruct (Rlt_dec a b); try lra
    | |- context [Rle_dec ?a ?b] => destruct (Rle_dec a b); try lra
    | |- context [Req_dec_T ?a ?b] => destruct (Req_dec_T a b); try lra
    end.

Lemma curled_true maxDist s : curled maxDist s = true <-> 0 < s /\ 0 < maxDist.
Proof.
  unfold curled. rewrite andb_true_iff, !Rgtb_true. lra.
Qed.

Lemma curled_false maxDist s : s <= 0 \/ maxDist <= 0 -> curled maxDist s = false.
Proof.
  intros H. destruct (curled maxDist s) eqn:E; [|reflexivity].
  apply curled_true in E. lra.
Qed.

(** ** Axis classification *)

Lemma dims_length bSize : length (dims bSize) = 3%nat.
Proof.
  destruct bSize as [ex ey ez]. unfold dims, byLenDesc. simpl.
  repeat (rcases; simpl); reflexivity.
Qed.

(** C5.  The three axes are assigned in descending order of extent:
    [lengthAxis] has the largest extent, [widthAxis] the second and
    [flatAxis] the smallest; of two axes with equal extents the one
    earlier in the priority x < y < z comes first; and the three axes
    are pairwise different. *)
Theorem classifyAxes_descending_stable (bSize : Vector3 R) :
  let a := classifyAxes bSize in
  let ext := getAxis bSize in
  (lengthAxis a <> widthAxis a /\ lengthAxis a <> flatAxis a
   /\ widthAxis a <> flatAxis a)
  /\ ext (lengthAxis a) >= ext (widthAxis a)
  /\ ext (widthAxis a) >= ext (flatAxis a)
  /\ (ext (lengthAxis a) = ext (widthAxis a) ->
      (axisRank (lengthAxis a) < axisRank (widthAxis a))%nat)
  /\ (ext (widthAxis a) = ext (flatAxis a) ->
      (axisRank (widthAxis a) < axisRank (flatAxis a))%nat)
  /\ (ext (lengthAxis a) = ext (flatAxis a) ->
      (axisRank (lengthAxis a) < axisRank (flatAxis a))%nat).
Proof.
  destruct bSize as [ex ey ez].
  unfold classifyAxes, dims, dimAxis, byLenDesc. simpl.
  repeat (rcases; simpl);
    repeat split; try discriminate; try lra; intros; try lia; lra.
Qed.

(** ** The deformation law *)

(** The shader moves a vertex by the two scalar displacements. *)
Lemma beginVertex_displacement u p :
  beginVertex u p =
  vadd p (vadd (vscale (uPeelNormal u)
                  (displacementN (uCurlR u) (uMaxDist u) (peelDistance u p)))
               (vscale (uFlatDir u)
                  (displacementF (uCurlR u) (uMaxDist u) (peelDistance u p)))).
Proof.
  unfold beginVertex, displacementN, displacementF, curled.
  destruct (Rgtb (peelDistance u p) 0 && Rgtb (uMaxDist u) 0); [reflexivity|].
  destruct p as [x y z]. unfold vadd, vscale. simpl. f_equal; ring.
Qed.

(** C1.  A vertex whose peel distance [s] is not positive, and any
    vertex when [uMaxDist] is not positive, is left where it is: the
    position that leaves the shader is the position that entered it,
    both scalar displacements and the rotation angle are [0], and the
    normal is returned as it came. *)
Theorem undisturbed_before_peel_line (u : Uniforms) (p n : Vector3 R) :
  peelDistance u p <= 0 \/ uMaxDist u <= 0 ->
  beginVertex u p = p
  /\ beginNormalVertex u p n = n
  /\ displacementN (uCurlR u) (uMaxDist u) (peelDistance u p) = 0
  /\ displacementF (uCurlR u) (uMaxDist u) (peelDistance u p) = 0
  /\ rotationAngle (uCurlR u) (uMaxDist u) (peelDistance u p) = 0.
Proof.
  intros H. apply curled_false in H.
  unfold beginVertex, beginNormalVertex, displacementN, displacementF, rotationAngle.
  rewrite H. unfold curled in H. rewrite H. repeat split; reflexivity.
Qed.

Lemma undisturbed_before_peel_line_witness :
  peelDistance (curlUniforms 0.5) flatVertex <= 0
  /\ beginVertex (curlUniforms 0.5) flatVertex = flatVertex.
Proof.
  assert (H : peelDistance (curlUniforms 0.5) flatVertex <= 0)
    by (unfold peelDistance, dot; simpl; lra).
  split; [exact H|].
  exact (proj1 (undisturbed_before_peel_line (curlUniforms 0.5) flatVertex
                  (mkVector3 0 0 1) (or_introl H))).
Defined.

(** ** The fall-trigger threshold *)

(** The clamp itself: whatever is not [NaN] ends up in [[0.3, 0.95]]. *)
Lemma clamp_within (t : JS.num) :
  t <> JS.NaN ->
  JS.within 0.3 0.95 (JS.min (JS.max (JS.add t (JS.Fin 0.05)) (JS.Fin 0.3)) (JS.Fin 0.95)).
Proof.
  destruct t as [| | |r]; intros H; try congruence; simpl.
  - rcases; simpl; rcases; simpl; lra.
  - rcases; simpl; lra.
  - rcases; simpl; rcases; simpl; lra.
Qed.

Lemma clamp_NaN :
  JS.min (JS.max (JS.add JS.NaN (JS.Fin 0.05)) (JS.Fin 0.3)) (JS.Fin 0.95) = JS.NaN.
Proof. reflexivity. Qed.

(** With a wrapped-object box of finite coordinates the threshold is in
    range unless the quotient is [0 / 0]. *)
Lemma fallThreshold_clamped (sign : Z) (bananaMin bananaMax tapeMin tapeMax span : R) :
  span <> 0 \/ (if (sign =? 1)%Z then bananaMax - tapeMin else tapeMax - bananaMin) <> 0 ->
  JS.within 0.3 0.95
    (fallThreshold sign (JS.Fin bananaMin) (JS.Fin bananaMax) tapeMin tapeMax span).
Proof.
  intros H. unfold fallThreshold. apply clamp_within.
  destruct (sign =? 1)%Z; simpl.
  - destruct (Req_dec_T span 0); [|discriminate].
    destruct (Req_dec_T (bananaMax + - tapeMin) 0); [lra|].
    destruct (Rlt_dec 0 (bananaMax + - tapeMin)); discriminate.
  - destruct (Req_dec_T span 0); [|discriminate].
    destruct (Req_dec_T (tapeMax + - bananaMin) 0); [lra|].
    destruct (Rlt_dec 0 (tapeMax + - bananaMin)); discriminate.
Qed.

(** An empty wrapped-object box ([min = +Infinity], [max = -Infinity],
    no mesh besides the tape) gives the floor of the clamp. *)
Lemma fallThreshold_empty_box (sign : Z) (tapeMin tapeMax span : R) :
  JS.within 0.3 0.95 (fallThreshold sign JS.PosInf JS.NegInf tapeMin tapeMax span).
Proof.
  unfold fallThreshold. apply clamp_within.
  destruct (sign =? 1)%Z; simpl; destruct (Rlt_dec span 0); discriminate.
Qed.

(** ** Direction lock *)

Lemma Axis_eqb_eq a b : Axis_eqb a b = true <-> a = b.
Proof. destruct a, b; simpl; split; intros; congruence. Qed.

Lemma sameAxis_true a b : sameAxis a b = true <-> b = Some a.
Proof.
  destruct b as [b|]; simpl; [|split; intros; congruence].
  rewrite Axis_eqb_eq. split; intros; congruence.
Qed.

(** What [lockDirection] compares: the pair it chose and the pair that
    was locked before. *)
Lemma sameDir_true (chosenAxis : Axis) (sign : Z) (s : State) :
  sameAxis chosenAxis (curPeelAxis (drag s)) && (sign =? curPeelSign (drag s))%Z = true
  <-> (curPeelAxis (drag s), curPeelSign (drag s)) = (Some chosenAxis, sign).
Proof.
  rewrite andb_true_iff, sameAxis_true, Z.eqb_eq.
  split; [intros [-> ->]; reflexivity | intros H; inversion H; auto].
Qed.

(** [onMove] in the direction-determining phase, past the jitter. *)
Lemma onMove_locks (e : PointerEvent) (s : State) (start : Vector3 R) :
  isDragging (drag s) = true ->
  isTorn (phys s) = false ->
  isDeterminingDir (drag s) = true ->
  dragStartLocalHit (drag s) = Some start ->
  8 <= sqrt ((clientX e - dragStartX (drag s)) * (clientX e - dragStartX (drag s))
             + (clientY e - dragStartY (drag s)) * (clientY e - dragStartY (drag s))) ->
  onMove e s = lockDirection e start s.
Proof.
  intros Hd Ht Hdet Hs Hj. unfold onMove.
  rewrite Hd, Ht, Hdet, Hs. simpl.
  apply Rltb_false in Hj. rewrite Hj. reflexivity.
Qed.

(** C6.  When the first gesture of a press locks a direction (the drag
    has left the 8 pixel jitter radius), the locked pair is the chosen
    (axis, sign) and the session is peeling; if that pair differs from
    the pair locked before, [targetPeelProgress] and
    [currentPeelProgress] are both [0] afterwards; if it is the same
    pair, both keep their values. *)
Theorem relock_resets_progress (e : PointerEvent) (s : State) (start : Vector3 R) :
  isDragging (drag s) = true ->
  isTorn (phys s) = false ->
  isDeterminingDir (drag s) = true ->
  dragStartLocalHit (drag s) = Some start ->
  8 <= sqrt ((clientX e - dragStartX (drag s)) * (clientX e - dragStartX (drag s))
             + (clientY e - dragStartY (drag s)) * (clientY e - dragStartY (drag s))) ->
  let chosenAxis := chooseAxis (axes (scene s)) (tapeBB (scene s)) start (localHit e) in
  let sign := chooseSign (tapeBB (scene s)) start chosenAxis in
  let s' := onMove e s in
  (curPeelAxis (drag s'), curPeelSign (drag s')) = (Some chosenAxis, sign)
  /\ peelConfigured (drag s') = true
  /\ isDeterminingDir (drag s') = false
  /\ ((curPeelAxis (drag s), curPeelSign (drag s)) <> (Some chosenAxis, sign) ->
      targetPeelProgress (drag s') = 0 /\ currentPeelProgress (drag s') = 0)
  /\ ((curPeelAxis (drag s), curPeelSign (drag s)) = (Some chosenAxis, sign) ->
      targetPeelProgress (drag s') = targetPeelProgress (drag s)
      /\ currentPeelProgress (drag s') = currentPeelProgress (drag s)).
Proof.
  intros Hd Ht Hdet Hs Hj chosenAxis sign s'.
  subst s'. rewrite (onMove_locks e s start Hd Ht Hdet Hs Hj).
  unfold lockDirection. fold chosenAxis. fold sign.
  destruct (sameAxis chosenAxis (curPeelAxis (drag s))
            && (sign =? curPeelSign (drag s))%Z) eqn:E; simpl.
  - apply sameDir_true in E.
    split; [exact E|]. split; [reflexivity|]. split; [reflexivity|].
    split; [intros H; contradiction | intros _; split; reflexivity].
  - split; [reflexivity|]. split; [reflexivity|]. split; [reflexivity|].
    split; [intros _; split; reflexivity|].
    intros H. apply sameDir_true in H. congruence.
Qed.

(** ** What the handlers leave alone *)

Ltac break_match :=
  match goal with
  | |- context [match ?x with _ => _ end] => destruct x eqn:?
  end.

Lemma startPeelSound_counts a :
  rips (startPeelSound a) = rips a /\ thuds (startPeelSound a) = thuds a
  /\ transitions (startPeelSound a) = transitions a.
Proof. unfold startPeelSound. destruct (peelNode a); simpl; auto. Qed.

Lemma scene_step s ev : scene (step s ev) = scene s.
Proof.
  destruct ev; simpl; try reflexivity;
    unfold onDown, onMove, lockDirection, relock, advancePeel, animate, fallStep,
      easePeel, tear;
    repeat break_match; reflexivity.
Qed.

Lemma drag_fallStep dt s : drag (fallStep dt s) = drag s.
Proof. unfold fallStep. repeat break_match; reflexivity. Qed.

Lemma phys_onDown e s : phys (onDown e s) = phys s.
Proof. unfold onDown. repeat break_match; reflexivity. Qed.

Lemma phys_onUp s : phys (onUp s) = phys s.
Proof. reflexivity. Qed.

Lemma targetPeelProgress_easePeel s :
  targetPeelProgress (drag (easePeel s)) = targetPeelProgress (drag s).
Proof. unfold easePeel, tear. repeat break_match; reflexivity. Qed.

(** ** Reachable states *)

Lemma classifyAxes_length_width bSize :
  lengthAxis (classifyAxes bSize) <> widthAxis (classifyAxes bSize).
Proof.
  destruct bSize as [ex ey ez].
  unfold classifyAxes, dims, dimAxis, byLenDesc. simpl.
  repeat (rcases; simpl); discriminate.
Qed.

Lemma reachable_axes s :
  reachable s -> lengthAxis (axes (scene s)) <> widthAxis (axes (scene s)).
Proof.
  induction 1 as [bb n w b | s ev _ IH].
  - simpl. apply classifyAxes_length_width.
  - rewrite scene_step. exact IH.
Qed.

Lemma reachable_run s evs : reachable s -> reachable (run s evs).
Proof.
  revert s. induction evs as [|ev evs IH]; intros s H; simpl; [exact H|].
  apply IH. constructor. exact H.
Qed.

(** While the direction is being determined the peel is not configured. *)
Lemma determining_not_configured s :
  reachable s -> isDeterminingDir (drag s) = true -> peelConfigured (drag s) = false.
Proof.
  induction 1 as [bb n w b | s ev _ IH]; [discriminate|].
  destruct ev; simpl.
  - unfold onDown. repeat break_match; simpl; auto; intros; congruence.
  - unfold onMove, lockDirection, advancePeel.
    repeat break_match; simpl; auto; intros; congruence.
  - exact IH.
  - unfold animate. rewrite drag_fallStep. unfold easePeel, tear.
    repeat break_match; simpl; auto.
Qed.

(** ** Evaluating the example scenes *)

(** Decide the comparisons of a closed numeric condition. *)
Ltac rdecide :=
  unfold Rgeb, Rgtb, Rltb, Rabs, Rmin, Rmax;
  repeat (match goal with
          | |- context [Rcase_abs ?a] => destruct (Rcase_abs a)
          | |- context [Rle_dec ?a ?b] => destruct (Rle_dec a b)
          | |- context [Rlt_dec ?a ?b] => destruct (Rlt_dec a b)
          | |- context [Req_dec_T ?a ?b] => destruct (Req_dec_T a b)
          end; simpl in *; try lra).

Lemma sqrt_ge a b : 0 <= a -> a * a <= b -> a <= sqrt b.
Proof.
  intros Ha Hb. rewrite <- (sqrt_square a Ha). apply sqrt_le_1_alt. exact Hb.
Qed.

Lemma sqrt_sq_0 a : 0 <= a -> sqrt (a * a + 0 * 0) = a.
Proof.
  intros Ha. replace (a * a + 0 * 0) with (a * a) by ring. apply sqrt_square. exact Ha.
Qed.

Lemma exampleSetup_eq :
  exampleSetup =
  mkState (mkScene true (mkAxes AxisX AxisY AxisZ) exampleBox (Some exampleBanana))
          (mkUniforms 0 0.12 vzero (mkVector3 0 0 1) 0 1)
          initialInteraction initialPhysics initialAudio.
Proof.
  unfold exampleSetup, setupTapePeel, exampleBox, getSize, getCenter, isEmpty,
    classifyAxes, dims, dimAxis, byLenDesc, vzero.
  simpl. rdecide. reflexivity.
Qed.

Lemma examplePressed_eq :
  examplePressed =
  with_drag (mkInteraction true false 100 100 true 100 100 (Some (mkVector3 1 1 0))
               0 0 None 0%Z) exampleSetup.
Proof.
  unfold examplePressed. rewrite exampleSetup_eq.
  unfold onDown, examplePress. simpl. rdecide. reflexivity.
Qed.

Lemma exampleLocked_drag :
  drag exampleLocked =
  mkInteraction true true 110 100 false 100 100 (Some (mkVector3 1 1 0))
    0 0 (Some AxisX) 1%Z.
Proof.
  unfold exampleLocked. rewrite examplePressed_eq, exampleSetup_eq.
  unfold onMove, exampleDrag. simpl.
  replace (Rltb (sqrt ((110 - 100) * (110 - 100) + (100 - 100) * (100 - 100))) 8)
    with false.
  2:{ symmetry. apply Rltb_false. apply sqrt_ge; lra. }
  unfold lockDirection, chooseAxis, chooseSign, lengthSq, dot. simpl.
  rdecide. reflexivity.
Qed.

Lemma exampleLocked_phys :
  isTorn (phys exampleLocked) = false /\ bananaFalling (phys exampleLocked) = false.
Proof.
  unfold exampleLocked. rewrite examplePressed_eq, exampleSetup_eq.
  unfold onMove, exampleDrag. simpl.
  replace (Rltb (sqrt ((110 - 100) * (110 - 100) + (100 - 100) * (100 - 100))) 8)
    with false.
  2:{ symmetry. apply Rltb_false. apply sqrt_ge; lra. }
  unfold lockDirection, chooseAxis, chooseSign, lengthSq, dot. simpl.
  rdecide. split; reflexivity.
Qed.

Lemma exampleLocked_reachable : reachable exampleLocked.
Proof.
  unfold exampleLocked, examplePressed, exampleSetup.
  apply (reachable_step _ (PointerMove exampleDrag)).
  apply (reachable_step _ (PointerDown examplePress)).
  constructor.
Qed.

(** ** Peel progress *)

Lemma clamp_progress_bounds x : 0 <= Rmax 0 (Rmin 1.05 x) <= 1.05.
Proof.
  unfold Rmax, Rmin.
  destruct (Rle_dec 1.05 x); destruct (Rle_dec 0 _); lra.
Qed.

(** Every handler keeps [targetPeelProgress] in [[0, 1.05]]. *)
Lemma targetPeelProgress_step s ev :
  0 <= targetPeelProgress (drag s) <= 1.05 ->
  0 <= targetPeelProgress (drag (step s ev)) <= 1.05.
Proof.
  intros H. destruct ev; simpl.
  - unfold onDown. repeat break_match; simpl; auto.
  - unfold onMove, lockDirection, relock, advancePeel.
    repeat break_match; simpl; auto; try lra; apply clamp_progress_bounds.
  - exact H.
  - unfold animate. rewrite drag_fallStep, targetPeelProgress_easePeel. exact H.
Qed.

Lemma reachable_targetPeelProgress s :
  reachable s -> 0 <= targetPeelProgress (drag s) <= 1.05.
Proof.
  induction 1 as [bb n w b | s ev _ IH].
  - simpl. lra.
  - apply targetPeelProgress_step. exact IH.
Qed.

(** [onMove] once the direction is locked. *)
Lemma onMove_advances e s :
  isDragging (drag s) = true ->
  isTorn (phys s) = false ->
  isDeterminingDir (drag s) = false ->
  peelConfigured (drag s) = true ->
  onMove e s = advancePeel e s.
Proof.
  intros Hd Ht Hdet Hc. unfold onMove. rewrite Hd, Ht, Hdet, Hc. reflexivity.
Qed.

(** A move while the pointer is up, or after the tear, is not
    processed: [onMove] returns at its first line. *)
Lemma onMove_ignored e s :
  isDragging (drag s) = false \/ isTorn (phys s) = true -> onMove e s = s.
Proof.
  intros [H | H]; unfold onMove; rewrite H; simpl; [reflexivity|].
  rewrite orb_true_r. reflexivity.
Qed.

(** C7.  A pointer-move that the handler processes (the pointer is
    down) while the peel is configured and the tape not torn, in a
    viewport of positive size, sets [targetPeelProgress] to its previous
    value plus the normalised drag distance times the sensitivity (4.5
    in a container narrower than 768, else 3.5), clamped into
    [[0, 1.05]].  Every handler and the frame callback keep
    [targetPeelProgress] in [[0, 1.05]], so it is there in every
    reachable state, whatever events follow.  With sensitivity 3.5 a
    drag of normalised length 0.3 from progress 0 gives 1.05. *)
Theorem targetPeelProgress_advance_clamped (s : State) (e : PointerEvent) :
  reachable s ->
  isDragging (drag s) = true ->
  isTorn (phys s) = false ->
  peelConfigured (drag s) = true ->
  viewportOk e ->
  let dx := (clientX e - dragLastX (drag s)) / innerWidth e in
  let dy := (dragLastY (drag s) - clientY e) / innerHeight e in
  let dist := sqrt (dx * dx + dy * dy) in
  let sensitivity := if Rltb (clientWidth e) 768 then 4.5 else 3.5 in
  targetPeelProgress (drag (onMove e s))
  = Rmax 0 (Rmin 1.05 (targetPeelProgress (drag s) + dist * sensitivity))
  /\ (forall s0 ev, 0 <= targetPeelProgress (drag s0) <= 1.05 ->
                    0 <= targetPeelProgress (drag (step s0 ev)) <= 1.05)
  /\ (forall evs, 0 <= targetPeelProgress (drag (run s evs)) <= 1.05)
  /\ (targetPeelProgress (drag s) = 0 -> sensitivity = 3.5 -> dist = 0.3 ->
      targetPeelProgress (drag (onMove e s)) = 1.05).
Proof.
  intros Hr Hd Ht Hc _ dx dy dist sensitivity.
  assert (Hdet : isDeterminingDir (drag s) = false).
  { destruct (isDeterminingDir (drag s)) eqn:E; [|reflexivity].
    rewrite (determining_not_configured s Hr E) in Hc. discriminate. }
  rewrite (onMove_advances e s Hd Ht Hdet Hc).
  assert (E : targetPeelProgress (drag (advancePeel e s))
              = Rmax 0 (Rmin 1.05 (targetPeelProgress (drag s) + dist * sensitivity))).
  { unfold advancePeel. destruct (peelGain (audio s)); reflexivity. }
  split; [exact E|]. split; [exact targetPeelProgress_step|]. split.
  - intros evs. apply reachable_targetPeelProgress. apply reachable_run. exact Hr.
  - intros H0 Hs H3. rewrite E, H0, Hs, H3.
    unfold Rmax, Rmin. destruct (Rle_dec 1.05 (0 + 0.3 * 3.5)); destruct (Rle_dec 0 _); lra.
Qed.

Lemma targetPeelProgress_advance_clamped_witness :
  reachable exampleLocked
  /\ viewportOk exampleDrag2
  /\ targetPeelProgress (drag exampleLocked) = 0
  /\ targetPeelProgress (drag (onMove exampleDrag2 exampleLocked)) = 1.05.
Proof.
  assert (Hv : viewportOk exampleDrag2) by (unfold viewportOk; simpl; lra).
  assert (Hd : isDragging (drag exampleLocked) = true)
    by (rewrite exampleLocked_drag; reflexivity).
  assert (Hc : peelConfigured (drag exampleLocked) = true)
    by (rewrite exampleLocked_drag; reflexivity).
  assert (H0 : targetPeelProgress (drag exampleLocked) = 0)
    by (rewrite exampleLocked_drag; reflexivity).
  split; [exact exampleLocked_reachable|]. split; [exact Hv|]. split; [exact H0|].
  refine (proj2 (proj2 (proj2 (targetPeelProgress_advance_clamped exampleLocked
                   exampleDrag2 exampleLocked_reachable Hd (proj1 exampleLocked_phys)
                   Hc Hv))) H0 _ _).
  - simpl. unfold Rltb. destruct (Rlt_dec 1000 768); [lra | reflexivity].
  - rewrite exampleLocked_drag. simpl.
    replace ((410 - 110) / 1000 * ((410 - 110) / 1000)
             + (100 - 100) / 1000 * ((100 - 100) / 1000))
      with (0.3 * 0.3 + 0 * 0) by lra.
    apply sqrt_sq_0. lra.
Defined.

(** ** Pressing again *)

Lemma onDown_resumes e s point :
  isTorn (phys s) = false -> tapeMesh (scene s) = true -> localHit e = Some point ->
  currentPeelProgress (drag s) > 0.05 ->
  onDown e s =
  with_audio (startPeelSound (audio s))
    (with_drag
       (mkInteraction true true (clientX e) (clientY e)
          false (dragStartX (drag s)) (dragStartY (drag s)) (dragStartLocalHit (drag s))
          (targetPeelProgress (drag s)) (currentPeelProgress (drag s))
          (curPeelAxis (drag s)) (curPeelSign (drag s))) s).
Proof.
  intros Ht Hm Hh Hp. unfold onDown. rewrite Ht, Hm, Hh. simpl.
  apply Rgtb_true in Hp. rewrite Hp. reflexivity.
Qed.

Lemma onDown_determines e s point :
  isTorn (phys s) = false -> tapeMesh (scene s) = true -> localHit e = Some point ->
  currentPeelProgress (drag s) <= 0.05 ->
  onDown e s =
  with_drag
    (mkInteraction true false (clientX e) (clientY e)
       true (clientX e) (clientY e) (Some point)
       (targetPeelProgress (drag s)) (currentPeelProgress (drag s))
       (curPeelAxis (drag s)) (curPeelSign (drag s))) s.
Proof.
  intros Ht Hm Hh Hp. unfold onDown. rewrite Ht, Hm, Hh. simpl.
  apply Rgtb_false in Hp. rewrite Hp. reflexivity.
Qed.

(** A drag of one unit along one of the two long axes, the ray still
    on the proxy, picks that axis. *)
Lemma chooseAxis_along (a : Axes) (bb : Box3 R) (start : Vector3 R) (ax : Axis) :
  lengthAxis a <> widthAxis a ->
  ax = lengthAxis a \/ ax = widthAxis a ->
  chooseAxis a bb start (Some (vadd start (setAxis vzero ax 1))) = ax.
Proof.
  intros Hne Hax. destruct a as [l w f], start as [x y z]. simpl in *.
  unfold chooseAxis, lengthSq, dot, vsub, vadd, vzero.
  destruct Hax as [-> | ->]; destruct l, w; try congruence; simpl;
    rdecide; try reflexivity; exfalso; lra.
Qed.

Lemma otherAxis_differs a locked :
  lengthAxis a <> widthAxis a -> locked <> Some (otherAxis a locked).
Proof.
  intros Hne. unfold otherAxis.
  destruct (sameAxis (lengthAxis a) locked) eqn:E.
  - apply sameAxis_true in E. subst locked. congruence.
  - intros H. rewrite H in E.
    assert (E' : sameAxis (lengthAxis a) (Some (lengthAxis a)) = true)
      by (apply sameAxis_true; reflexivity).
    congruence.
Qed.

(** Without a new press the direction is not determined again: the
    locked pair stays. *)
Lemma locked_pair_kept evs : forall s,
  isDeterminingDir (drag s) = false ->
  noPress evs = true ->
  isDeterminingDir (drag (run s evs)) = false
  /\ curPeelAxis (drag (run s evs)) = curPeelAxis (drag s)
  /\ curPeelSign (drag (run s evs)) = curPeelSign (drag s).
Proof.
  induction evs as [|ev evs IH]; intros s Hdet Hnp; simpl; [auto|].
  simpl in Hnp. apply andb_true_iff in Hnp. destruct Hnp as [Hev Hnp].
  assert (H1 : isDeterminingDir (drag (step s ev)) = false
               /\ curPeelAxis (drag (step s ev)) = curPeelAxis (drag s)
               /\ curPeelSign (drag (step s ev)) = curPeelSign (drag s)).
  { destruct ev; simpl; try discriminate.
    - unfold onMove. rewrite Hdet. unfold advancePeel.
      repeat break_match; simpl; auto.
    - auto.
    - unfold animate. rewrite drag_fallStep. unfold easePeel, tear.
      repeat break_match; simpl; auto. }
  destruct H1 as (Ha & Hb & Hc).
  destruct (IH (step s ev) Ha Hnp) as (Ia & Ib & Ic).
  repeat split; congruence.
Qed.

(** C10.  A pointer-down that hits the proxy while the tape is not
    torn starts a drag.  If [currentPeelProgress > 0.05] the session is
    peeling at once: the direction is not being determined, the locked
    axis and sign and both progress values are those of before the
    press, wherever it lands, and the next move does not touch the
    locked pair nor the progress eased so far, and no run of events
    without a new press determines the direction again.  If
    [currentPeelProgress <= 0.05] the session is
    determining the direction from the point pressed, and there is a
    move that locks another (axis, sign) pair and resets both progress
    values to [0]. *)
Theorem press_resumes_or_determines (s : State) (e : PointerEvent) (point : Vector3 R) :
  reachable s ->
  isTorn (phys s) = false ->
  tapeMesh (scene s) = true ->
  localHit e = Some point ->
  let s' := onDown e s in
  isDragging (drag s') = true
  /\ (currentPeelProgress (drag s) > 0.05 ->
      isDeterminingDir (drag s') = false
      /\ peelConfigured (drag s') = true
      /\ curPeelAxis (drag s') = curPeelAxis (drag s)
      /\ curPeelSign (drag s') = curPeelSign (drag s)
      /\ targetPeelProgress (drag s') = targetPeelProgress (drag s)
      /\ currentPeelProgress (drag s') = currentPeelProgress (drag s)
      /\ (forall e2,
           curPeelAxis (drag (onMove e2 s')) = curPeelAxis (drag s)
           /\ curPeelSign (drag (onMove e2 s')) = curPeelSign (drag s)
           /\ currentPeelProgress (drag (onMove e2 s')) = currentPeelProgress (drag s))
      /\ (forall evs, noPress evs = true ->
           isDeterminingDir (drag (run s' evs)) = false
           /\ curPeelAxis (drag (run s' evs)) = curPeelAxis (drag s)
           /\ curPeelSign (drag (run s' evs)) = curPeelSign (drag s)))
  /\ (currentPeelProgress (drag s) <= 0.05 ->
      isDeterminingDir (drag s') = true
      /\ peelConfigured (drag s') = false
      /\ dragStartLocalHit (drag s') = Some point
      /\ curPeelAxis (drag s') = curPeelAxis (drag s)
      /\ curPeelSign (drag s') = curPeelSign (drag s)
      /\ exists e2,
           (curPeelAxis (drag (onMove e2 s')), curPeelSign (drag (onMove e2 s')))
             <> (curPeelAxis (drag s), curPeelSign (drag s))
           /\ peelConfigured (drag (onMove e2 s')) = true
           /\ targetPeelProgress (drag (onMove e2 s')) = 0
           /\ currentPeelProgress (drag (onMove e2 s')) = 0).
Proof.
  intros Hr Ht Hm Hh s'.
  destruct (Rlt_dec 0.05 (currentPeelProgress (drag s))) as [Hp | Hp].
  - subst s'. rewrite (onDown_resumes e s point Ht Hm Hh Hp).
    split; [reflexivity|]. split; [|intros H; lra].
    intros _. repeat (split; [reflexivity|]). split.
    + intros e2. unfold onMove. simpl. rewrite Ht. simpl.
      unfold advancePeel. simpl.
      destruct (peelGain (startPeelSound (audio s))); simpl; auto.
    + intros evs Hnp.
      match goal with
      | |- context [run ?st evs] =>
          destruct (locked_pair_kept evs st eq_refl Hnp) as (A & B & C)
      end.
      simpl in B, C. auto.
  - assert (Hp' : currentPeelProgress (drag s) <= 0.05) by lra.
    subst s'. rewrite (onDown_determines e s point Ht Hm Hh Hp').
    split; [reflexivity|]. split; [intros H; lra|].
    intros _. repeat (split; [reflexivity|]).
    set (ax := otherAxis (axes (scene s)) (curPeelAxis (drag s))).
    exists (dragAlong e point ax).
    set (s1 := with_drag _ s).
    assert (Hlock : onMove (dragAlong e point ax) s1
                    = lockDirection (dragAlong e point ax) point s1).
    { apply onMove_locks; try reflexivity; try exact Ht.
      simpl. apply sqrt_ge; [lra|]. nra. }
    rewrite Hlock. unfold lockDirection.
    assert (Hax : chooseAxis (axes (scene s1)) (tapeBB (scene s1)) point
                    (localHit (dragAlong e point ax)) = ax).
    { simpl. apply chooseAxis_along.
      - apply reachable_axes. exact Hr.
      - unfold ax, otherAxis. destruct (sameAxis _ _); auto. }
    rewrite Hax.
    assert (Hne : curPeelAxis (drag s) <> Some ax).
    { apply otherAxis_differs. apply reachable_axes. exact Hr. }
    assert (Hsame : sameAxis ax (curPeelAxis (drag s1)) = false).
    { destruct (sameAxis ax (curPeelAxis (drag s1))) eqn:E; [|reflexivity].
      apply sameAxis_true in E. simpl in E. contradiction. }
    rewrite Hsame. simpl.
    split; [|repeat split; reflexivity].
    intros H. inversion H. congruence.
Qed.

Lemma relock_resets_progress_witness :
  isDragging (drag examplePressed) = true
  /\ isDeterminingDir (drag examplePressed) = true
  /\ targetPeelProgress (drag (onMove exampleDrag examplePressed)) = 0
  /\ currentPeelProgress (drag (onMove exampleDrag examplePressed)) = 0.
Proof.
  assert (Hd : isDragging (drag examplePressed) = true)
    by (rewrite examplePressed_eq; reflexivity).
  assert (Ht : isTorn (phys examplePressed) = false)
    by (rewrite examplePressed_eq; reflexivity).
  assert (Hdet : isDeterminingDir (drag examplePressed) = true)
    by (rewrite examplePressed_eq; reflexivity).
  assert (Hs : dragStartLocalHit (drag examplePressed) = Some (mkVector3 1 1 0))
    by (rewrite examplePressed_eq; reflexivity).
  assert (Hj : 8 <= sqrt ((clientX exampleDrag - dragStartX (drag examplePressed))
                          * (clientX exampleDrag - dragStartX (drag examplePressed))
                          + (clientY exampleDrag - dragStartY (drag examplePressed))
                            * (clientY exampleDrag - dragStartY (drag examplePressed)))).
  { rewrite examplePressed_eq. simpl. apply sqrt_ge; lra. }
  split; [exact Hd|]. split; [exact Hdet|].
  apply (proj1 (proj2 (proj2 (proj2
           (relock_resets_progress exampleDrag examplePressed (mkVector3 1 1 0)
              Hd Ht Hdet Hs Hj))))).
  rewrite examplePressed_eq. simpl. discriminate.
Defined.

(** ** The falling body *)

Lemma easePeel_keeps s :
  fallVel (phys (easePeel s)) = fallVel (phys s)
  /\ bananaRotVelX (phys (easePeel s)) = bananaRotVelX (phys s)
  /\ settled (phys (easePeel s)) = settled (phys s)
  /\ transitionFired (phys (easePeel s)) = transitionFired (phys s)
  /\ positionY (phys (easePeel s)) = positionY (phys s)
  /\ rotationX (phys (easePeel s)) = rotationX (phys s)
  /\ thuds (audio (easePeel s)) = thuds (audio s)
  /\ transitions (audio (easePeel s)) = transitions (audio s).
Proof.
  unfold easePeel, tear. repeat break_match; simpl; repeat split; reflexivity.
Qed.

Lemma easePeel_falling s :
  bananaFalling (phys s) = true -> bananaFalling (phys (easePeel s)) = true.
Proof.
  intros H. unfold easePeel, tear. repeat break_match; simpl; auto.
Qed.

(** The pointer handlers do not touch the body, nor count cues. *)
Lemma pointer_keeps s ev :
  (forall delta, ev <> Frame delta) ->
  phys (step s ev) = phys s \/
  (exists t, phys (step s ev) =
     mkPhysics (bananaFalling (phys s)) (fallVel (phys s)) (bananaRotVelX (phys s))
       (settled (phys s)) t (transitionFired (phys s)) (isTorn (phys s))
       (positionY (phys s)) (rotationX (phys s))).
Proof.
  intros Hev. destruct ev; simpl.
  - left. apply phys_onDown.
  - unfold onMove, lockDirection, relock, advancePeel.
    repeat break_match; simpl; auto; right; eexists; reflexivity.
  - left. reflexivity.
  - exfalso. apply (Hev delta). reflexivity.
Qed.

Lemma pointer_counts s ev :
  (forall delta, ev <> Frame delta) ->
  thuds (audio (step s ev)) = thuds (audio s)
  /\ transitions (audio (step s ev)) = transitions (audio s).
Proof.
  intros Hev. destruct ev; simpl.
  - unfold onDown, startPeelSound. repeat break_match; simpl; auto.
  - unfold onMove, lockDirection, relock, advancePeel, startPeelSound.
    repeat break_match; simpl; auto.
  - auto.
  - exfalso. apply (Hev delta). reflexivity.
Qed.

(** Turn the recorded outcomes of comparisons into inequalities. *)
Ltac rprops :=
  repeat match goal with
    | H : Rltb _ _ = true |- _ => apply Rltb_true in H
    | H : Rltb _ _ = false |- _ => apply Rltb_false in H
    | H : Rgtb _ _ = true |- _ => apply Rgtb_true in H
    | H : Rgtb _ _ = false |- _ => apply Rgtb_false in H
    | H : Rgeb _ _ = true |- _ => apply Rgeb_true in H
    | H : Rgeb _ _ = false |- _ => apply Rgeb_false in H
    end.

Lemma transition_fallStep dt s :
  let s' := fallStep dt s in
  (transitionFired (phys s) = true ->
   transitionFired (phys s') = true /\ transitions (audio s') = transitions (audio s))
  /\ (transitionFired (phys s) = false -> -2 <= positionY (phys s) ->
      (transitionFired (phys s') = true <-> positionY (phys s') < -2)
      /\ transitions (audio s')
         = (transitions (audio s) + (if transitionFired (phys s') then 1 else 0))%nat
      /\ (transitionFired (phys s') = true -> bananaFalling (phys s') = true)).
Proof.
  unfold fallStep.
  destruct (bananaFalling (phys s)) eqn:Hf, (settled (phys s)) eqn:Hs,
    (transitionFired (phys s)) eqn:Hfired; simpl;
    repeat break_match; simpl; rprops;
    (split; [intros H | intros H Hy]); try discriminate;
    repeat split; intros; try rewrite Hfired in *; try rewrite Hf in *;
    try discriminate; try reflexivity; try lra; try lia; auto.
Qed.

Lemma transition_step s ev :
  let s' := step s ev in
  (transitionFired (phys s) = true ->
   transitionFired (phys s') = true /\ transitions (audio s') = transitions (audio s))
  /\ (transitionFired (phys s) = false -> -2 <= positionY (phys s) ->
      (transitionFired (phys s') = true <-> positionY (phys s') < -2)
      /\ transitions (audio s')
         = (transitions (audio s) + (if transitionFired (phys s') then 1 else 0))%nat
      /\ (transitionFired (phys s') = true ->
          (exists delta, ev = Frame delta) /\ bananaFalling (phys s') = true)).
Proof.
  destruct ev as [e | e | | delta].
  1-3: match goal with
       | |- let s' := step ?st ?ev in _ =>
           assert (Hev : forall delta, ev <> Frame delta) by discriminate;
           destruct (pointer_counts st ev Hev) as [_ Hc];
           destruct (pointer_keeps st ev Hev) as [Hp | [t Hp]]
       end;
    cbv zeta; rewrite Hc, Hp; simpl;
    (split; [intros H; auto | intros H Hy]);
    rewrite H; (split; [split; intros; [discriminate | lra] |]);
    (split; [lia | intros; discriminate]).
  cbv zeta. simpl. unfold animate.
  destruct (easePeel_keeps s) as (_ & _ & _ & Ef & Ey & _ & _ & Et).
  destruct (transition_fallStep (Rmin delta (1 / 30)) (easePeel s)) as [A B].
  rewrite Ef, Et in A. rewrite Ef, Ey, Et in B.
  split; [exact A|].
  intros H Hy. destruct (B H Hy) as (B1 & B2 & B3).
  split; [exact B1|]. split; [exact B2|].
  intros H'. split; [eexists; reflexivity | auto].
Qed.

Lemma bananaFalling_step s ev :
  bananaFalling (phys s) = true -> bananaFalling (phys (step s ev)) = true.
Proof.
  intros H. destruct ev as [e | e | | delta].
  1-3: match goal with
       | |- bananaFalling (phys (step ?st ?ev)) = true =>
           assert (Hev : forall delta, ev <> Frame delta) by discriminate;
           destruct (pointer_keeps st ev Hev) as [Hp | [t Hp]]
       end; rewrite Hp; simpl; exact H.
  simpl. unfold animate. apply easePeel_falling in H.
  unfold fallStep. repeat break_match; simpl; auto.
Qed.

(** The callback has been called once if [transitionFired] is set and
    never otherwise; until then the body has not been below [-2]; and
    the flag is only set on a falling body. *)
Lemma reachable_transition s :
  reachable s ->
  transitions (audio s) = (if transitionFired (phys s) then 1 else 0)%nat
  /\ (transitionFired (phys s) = false -> -2 <= positionY (phys s))
  /\ (transitionFired (phys s) = true -> bananaFalling (phys s) = true).
Proof.
  induction 1 as [bb n w b | s ev _ (I1 & I2 & I3)].
  - simpl. repeat split; try lra; discriminate.
  - destruct (transition_step s ev) as [A B]. cbv zeta in A, B.
    destruct (transitionFired (phys s)) eqn:Hfired.
    + destruct (A eq_refl) as [A1 A2]. rewrite A1, A2.
      repeat split; auto; try discriminate.
      intros _. apply bananaFalling_step. auto.
    + destruct (B eq_refl (I2 eq_refl)) as (B1 & B2 & B3).
      rewrite B2, I1.
      destruct (transitionFired (phys (step s ev))) eqn:Hfired'.
      * repeat split; auto; try discriminate. intros _. apply B3. reflexivity.
      * repeat split; auto; try discriminate.
        intros _. destruct (Rlt_dec (positionY (phys (step s ev))) (-2)) as [Hlt|]; [|lra].
        apply B1 in Hlt. discriminate.
Qed.

(** ** The fall does reach the transition *)

Lemma transitionFired_run evs : forall s,
  transitionFired (phys s) = true -> transitionFired (phys (run s evs)) = true.
Proof.
  induction evs as [|ev evs IH]; intros s H; simpl; [exact H|].
  apply IH. destruct (transition_step s ev) as [A _]. apply A. exact H.
Qed.

(** The body only settles on the floor, below the altitude of the
    transition: a settled body has had its callback called. *)
Lemma settled_fired s :
  reachable s -> settled (phys s) = true -> transitionFired (phys s) = true.
Proof.
  induction 1 as [bb n w b | s ev _ IH].
  - simpl. discriminate.
  - destruct ev as [e | e | | delta].
    1-3: match goal with
         | |- context [step ?st ?ev] =>
             assert (Hev : forall delta, ev <> Frame delta) by discriminate;
             destruct (pointer_keeps st ev Hev) as [Hp | [t Hp]]
         end; rewrite Hp; simpl; exact IH.
    simpl. unfold animate.
    destruct (easePeel_keeps s) as (_ & _ & E3 & E4 & _).
    unfold fallStep. cbv zeta. rewrite E3, E4.
    destruct (bananaFalling (phys (easePeel s)) && negb (settled (phys s))) eqn:Hgo.
    + apply andb_true_iff in Hgo. destruct Hgo as [_ Hs].
      apply negb_true_iff in Hs.
      destruct (transitionFired (phys s)) eqn:Hfired; cbn [negb andb].
      * repeat break_match; cbn; auto.
      * destruct (Rltb _ (-2)) eqn:H2.
        -- repeat break_match; cbn; auto.
        -- apply Rltb_false in H2.
           destruct (Rltb _ (-3)) eqn:H3; [apply Rltb_true in H3; lra|].
           cbn. intros H. rewrite Hs in H. discriminate.
    + rewrite E3, E4. exact IH.
Qed.

(** An event that leaves the callback uncalled on a body that falls
    and moves down: a pointer event leaves the body alone, and a frame
    of at least [m] seconds, [m] no more than the cap [1/30], speeds it
    up by at least [9.8 * m] and lowers it by at least [m] times its
    new speed. *)
Lemma step_descends s ev m :
  0 < m -> m <= 1 / 30 ->
  (forall delta, ev = Frame delta -> m <= delta) ->
  bananaFalling (phys s) = true ->
  settled (phys s) = false ->
  fallVel (phys s) <= 0 ->
  transitionFired (phys (step s ev)) = false ->
  bananaFalling (phys (step s ev)) = true
  /\ settled (phys (step s ev)) = false
  /\ ((forall delta, ev <> Frame delta) ->
      fallVel (phys (step s ev)) = fallVel (phys s)
      /\ positionY (phys (step s ev)) = positionY (phys s))
  /\ ((exists delta, ev = Frame delta) ->
      fallVel (phys (step s ev)) <= fallVel (phys s) - 9.8 * m
      /\ positionY (phys (step s ev))
         <= positionY (phys s) + m * (fallVel (phys s) - 9.8 * m)).
Proof.
  intros Hm Hcap Hev Hf Hs Hv.
  destruct ev as [e | e | | delta].
  1-3: match goal with
       | |- context [step ?st ?ev] =>
           assert (Hne : forall delta, ev <> Frame delta) by discriminate;
           destruct (pointer_keeps st ev Hne) as [Hp | [t Hp]]
       end; rewrite Hp; cbn [bananaFalling settled fallVel positionY];
         intros _; (split; [exact Hf|]); (split; [exact Hs|]);
         (split; [intros _; split; reflexivity|]);
         intros [delta E]; discriminate.
  specialize (Hev delta eq_refl).
  cbn [step]. unfold animate.
  assert (Hdt : m <= Rmin delta (1 / 30)) by (apply Rmin_glb; assumption).
  revert Hdt. generalize (Rmin delta (1 / 30)). intros dt Hdt.
  destruct (easePeel_keeps s) as (E1 & E2 & E3 & E4 & E5 & _).
  pose proof (easePeel_falling s Hf) as Hf'.
  unfold fallStep. cbv zeta. rewrite Hf', E1, E2, E3, E4, E5, Hs. cbn [negb andb].
  destruct (transitionFired (phys s)); cbn [negb andb].
  - repeat break_match; cbn; intros; discriminate.
  - destruct (Rltb _ (-2)) eqn:H2.
    + repeat break_match; cbn; intros; discriminate.
    + apply Rltb_false in H2.
      destruct (Rltb _ (-3)) eqn:H3; [apply Rltb_true in H3; lra|].
      cbn [with_audio with_phys phys bananaFalling settled fallVel positionY
           transitionFired].
      intros _. split; [reflexivity|]. split; [reflexivity|].
      split; [intros Hne; exfalso; apply (Hne delta); reflexivity|].
      intros _. split; nra.
Qed.

Lemma countFrames_cons ev evs :
  countFrames (ev :: evs)
  = ((match ev with Frame _ => 1 | _ => 0 end) + countFrames evs)%nat.
Proof. unfold countFrames. destruct ev; reflexivity. Qed.

(** While the callback stays uncalled the body is at least as low as
    free fall in steps of [m] seconds would have taken it. *)
Lemma run_descends evs m : forall s,
  0 < m -> m <= 1 / 30 ->
  Forall (fun ev => forall delta, ev = Frame delta -> m <= delta) evs ->
  bananaFalling (phys s) = true ->
  settled (phys s) = false ->
  fallVel (phys s) <= 0 ->
  transitionFired (phys (run s evs)) = false ->
  let n := INR (countFrames evs) in
  positionY (phys (run s evs))
  <= positionY (phys s) + n * m * fallVel (phys s) - 9.8 * m * m * (n * (n + 1) / 2).
Proof.
  induction evs as [|ev evs IH]; intros s Hm Hcap Hall Hf Hs Hv Hend; cbv zeta.
  - cbn. lra.
  - inversion Hall as [|? ? Hev Hall']; subst.
    cbn [run fold_left] in *. fold (run (step s ev) evs) in *.
    assert (H1 : transitionFired (phys (step s ev)) = false).
    { destruct (transitionFired (phys (step s ev))) eqn:E; [|reflexivity].
      rewrite (transitionFired_run _ _ E) in Hend. discriminate. }
    destruct (step_descends s ev m Hm Hcap Hev Hf Hs Hv H1) as (F1 & F2 & F3 & F4).
    rewrite countFrames_cons.
    destruct ev as [e | e | | delta].
    1-3: destruct F3 as [Fv Fy]; [discriminate|];
         assert (Hv' : fallVel (phys (step s _)) <= 0) by (rewrite Fv; exact Hv);
         pose proof (IH _ Hm Hcap Hall' F1 F2 Hv' Hend) as Hrec; cbv zeta in Hrec;
         rewrite Fv, Fy in Hrec; exact Hrec.
    destruct F4 as [Fv Fy]; [exists delta; reflexivity|].
    assert (Hv' : fallVel (phys (step s (Frame delta))) <= 0) by nra.
    pose proof (IH _ Hm Hcap Hall' F1 F2 Hv' Hend) as Hrec. cbv zeta in Hrec.
    change (1 + countFrames evs)%nat with (S (countFrames evs)). rewrite S_INR.
    pose proof (pos_INR (countFrames evs)) as Hn.
    revert Hrec Hn. generalize (INR (countFrames evs)). intros n Hrec Hn.
    revert Fv Fy Hv' Hrec.
    generalize (fallVel (phys (step s (Frame delta))))
               (positionY (phys (step s (Frame delta))))
               (positionY (phys (run (step s (Frame delta)) evs))).
    intros v1 y1 yn Fv Fy Hv' Hrec.
    assert (K : n * m * v1 <= n * m * (fallVel (phys s) - 9.8 * m)).
    { apply Rmult_le_compat_l; [nra | exact Fv]. }
    nra.
Qed.

(** Once the body falls (from rest or moving down, at or below its
    initial height) the callback does get called: by the time the
    frames, each of at least [m] seconds, are enough for free fall in
    steps of [m] to cover the two units, whatever the pointer does in
    between.  With full frames ([m = 1/30]) nineteen are enough. *)
Lemma fall_reaches_transition s evs m :
  reachable s ->
  bananaFalling (phys s) = true ->
  fallVel (phys s) <= 0 ->
  positionY (phys s) <= 0 ->
  0 < m -> m <= 1 / 30 ->
  Forall (fun ev => forall delta, ev = Frame delta -> m <= delta) evs ->
  2 < 9.8 * m * m * (INR (countFrames evs) * (INR (countFrames evs) + 1) / 2) ->
  transitions (audio (run s evs)) = 1%nat.
Proof.
  intros Hr Hf Hv Hy Hm Hcap Hall Hn.
  destruct (reachable_transition _ (reachable_run s evs Hr)) as (I1 & I2 & _).
  destruct (transitionFired (phys (run s evs))) eqn:E; [exact I1|].
  exfalso.
  assert (Hs : settled (phys s) = false).
  { destruct (settled (phys s)) eqn:Hs; [|reflexivity].
    pose proof (settled_fired s Hr Hs) as Hfired.
    rewrite (transitionFired_run _ _ Hfired) in E. discriminate. }
  pose proof (run_descends evs m s Hm Hcap Hall Hf Hs Hv E) as Hpos.
  cbv zeta in Hpos. specialize (I2 eq_refl).
  pose proof (pos_INR (countFrames evs)) as Hc.
  revert Hpos Hn Hc. generalize (INR (countFrames evs)). intros n Hpos Hn Hc.
  assert (n * m * fallVel (phys s) <= 0).
  { assert (0 <= n * m) by nra. nra. }
  lra.
Qed.

(** C8.  In every reachable state the transition callback has been
    called at most once, and not at all while the body is not falling
    or has never been below [-2].  While it has not been called, an
    event calls it exactly when it takes the body below [-2], and only a
    frame of the falling body does so; once it has been called, no run
    of events calls it again, wherever the body then is.  And it does
    get called: once the body falls (from rest or moving down, at or
    below its initial height), it has been called, once, by the time the
    frames, each of at least [m] seconds, suffice for free fall in steps
    of [m] to cover the two units, whatever the pointer does in between;
    with full frames nineteen are enough. *)
Theorem transition_fires_once (s : State) (ev : Event) (later : list Event) (m : R) :
  reachable s ->
  let s' := step s ev in
  (transitions (audio s) = 0 \/ transitions (audio s) = 1)%nat
  /\ (bananaFalling (phys s) = false -> transitions (audio s) = 0%nat)
  /\ (transitions (audio s) = 0%nat -> -2 <= positionY (phys s))
  /\ (transitions (audio s) = 0%nat ->
      (transitions (audio s') = 1%nat <-> positionY (phys s') < -2))
  /\ (transitions (audio s) = 0%nat -> transitions (audio s') = 1%nat ->
      (exists delta, ev = Frame delta) /\ bananaFalling (phys s') = true)
  /\ (transitions (audio s) = 1%nat ->
      forall evs, transitions (audio (run s evs)) = 1%nat)
  /\ (forall evs, (transitions (audio (run s evs)) <= 1)%nat)
  /\ (bananaFalling (phys s) = true ->
      fallVel (phys s) <= 0 ->
      positionY (phys s) <= 0 ->
      0 < m -> m <= 1 / 30 ->
      Forall (fun ev => forall delta, ev = Frame delta -> m <= delta) later ->
      2 < 9.8 * m * m * (INR (countFrames later) * (INR (countFrames later) + 1) / 2) ->
      transitions (audio (run s later)) = 1%nat).
Proof.
  intros Hr s'.
  destruct (reachable_transition s Hr) as (I1 & I2 & I3).
  assert (Hr' : reachable s') by (constructor; exact Hr).
  destruct (reachable_transition s' Hr') as (J1 & J2 & J3).
  destruct (transition_step s ev) as [A B]. fold s' in A, B.
  assert (Hrun : forall evs, (transitions (audio (run s evs)) <= 1)%nat).
  { intros evs. destruct (reachable_transition _ (reachable_run s evs Hr)) as (K & _).
    rewrite K. destruct (transitionFired (phys (run s evs))); lia. }
  assert (Hstay : forall evs s0, transitionFired (phys s0) = true ->
                    transitions (audio (run s0 evs)) = transitions (audio s0)).
  { induction evs as [|ev0 evs IH]; intros s0 H0; simpl; [reflexivity|].
    destruct (transition_step s0 ev0) as [A0 _]. destruct (A0 H0) as [A1 A2].
    rewrite (IH _ A1). exact A2. }
  assert (Hlive : bananaFalling (phys s) = true ->
                  fallVel (phys s) <= 0 ->
                  positionY (phys s) <= 0 ->
                  0 < m -> m <= 1 / 30 ->
                  Forall (fun ev => forall delta, ev = Frame delta -> m <= delta) later ->
                  2 < 9.8 * m * m
                      * (INR (countFrames later) * (INR (countFrames later) + 1) / 2) ->
                  transitions (audio (run s later)) = 1%nat).
  { intros. apply (fall_reaches_transition s later m); assumption. }
  destruct (transitionFired (phys s)) eqn:Hfired.
  - split; [auto|].
    split; [intros Hf; rewrite (I3 eq_refl) in Hf; discriminate|].
    split; [intros H0; congruence|].
    split; [intros H0; congruence|].
    split; [intros H0; congruence|].
    split; [|split; [exact Hrun | exact Hlive]].
    intros _ evs. rewrite Hstay; auto.
  - destruct (B eq_refl (I2 eq_refl)) as (B1 & B2 & B3).
    split; [auto|]. split; [auto|]. split; [auto|].
    split; [|split; [|split; [intros; congruence | split; [exact Hrun | exact Hlive]]]].
    + intros _. rewrite J1. rewrite <- B1.
      destruct (transitionFired (phys s')); split; intros; congruence.
    + intros _ H1. apply B3. rewrite J1 in H1.
      destruct (transitionFired (phys s')); [reflexivity | discriminate].
Qed.

(** A settled body is not moved by any event, and makes no sound. *)
Lemma settled_step s ev :
  settled (phys s) = true ->
  settled (phys (step s ev)) = true
  /\ positionY (phys (step s ev)) = positionY (phys s)
  /\ rotationX (phys (step s ev)) = rotationX (phys s)
  /\ fallVel (phys (step s ev)) = fallVel (phys s)
  /\ bananaRotVelX (phys (step s ev)) = bananaRotVelX (phys s)
  /\ thuds (audio (step s ev)) = thuds (audio s).
Proof.
  intros H. destruct ev as [e | e | | delta].
  1-3: match goal with
       | |- context [step ?st ?ev] =>
           assert (Hev : forall delta, ev <> Frame delta) by discriminate;
           destruct (pointer_counts st ev Hev) as [Hc _];
           destruct (pointer_keeps st ev Hev) as [Hp | [t Hp]]
       end; rewrite Hc, Hp; simpl; auto 10.
  simpl. unfold animate.
  destruct (easePeel_keeps s) as (E1 & E2 & E3 & _ & E5 & E6 & E7 & _).
  unfold fallStep. cbv zeta. rewrite E3, H, andb_false_r.
  rewrite E1, E2, E3, E5, E6, E7. auto 10.
Qed.

Lemma settled_run evs : forall s,
  settled (phys s) = true ->
  settled (phys (run s evs)) = true
  /\ positionY (phys (run s evs)) = positionY (phys s)
  /\ rotationX (phys (run s evs)) = rotationX (phys s)
  /\ fallVel (phys (run s evs)) = fallVel (phys s)
  /\ bananaRotVelX (phys (run s evs)) = bananaRotVelX (phys s)
  /\ thuds (audio (run s evs)) = thuds (audio s).
Proof.
  induction evs as [|ev evs IH]; intros s H; simpl; [auto 10|].
  destruct (settled_step s ev H) as (A1 & A2 & A3 & A4 & A5 & A6).
  destruct (IH _ A1) as (B1 & B2 & B3 & B4 & B5 & B6).
  repeat split; congruence.
Qed.

(** C9.  In a frame in which the falling, not yet settled body ends
    below the floor [-3] (after gravity and the move of this frame), its
    position is set to [-3] and one thud is played; if the reflected
    speed [|fallVel * -0.45|] is at least [0.4], the vertical velocity
    is the velocity of this frame times [-0.45] and the angular velocity
    is multiplied by [-0.5]; if it is below [0.4] (for instance [0.3]),
    both velocities are [0] and the body is settled.  Once settled, no
    run of events moves the body, changes its velocities or plays a
    thud. *)
Theorem floor_bounce_and_settle (s : State) (delta : R) :
  let dt := Rmin delta (1 / 30) in
  let fallVel1 := fallVel (phys s) - 9.8 * dt in
  let y1 := positionY (phys s) + fallVel1 * dt in
  let s' := animate delta s in
  bananaFalling (phys (easePeel s)) = true ->
  settled (phys s) = false ->
  y1 < -3 ->
  positionY (phys s') = -3
  /\ thuds (audio s') = S (thuds (audio s))
  /\ (0.4 <= Rabs (fallVel1 * -0.45) ->
      fallVel (phys s') = fallVel1 * -0.45
      /\ bananaRotVelX (phys s') = bananaRotVelX (phys s) * -0.5
      /\ settled (phys s') = false)
  /\ (Rabs (fallVel1 * -0.45) < 0.4 ->
      fallVel (phys s') = 0 /\ bananaRotVelX (phys s') = 0
      /\ settled (phys s') = true)
  /\ (fallVel1 * -0.45 = 0.3 ->
      fallVel (phys s') = 0 /\ bananaRotVelX (phys s') = 0
      /\ settled (phys s') = true)
  /\ (settled (phys s') = true ->
      forall evs,
        settled (phys (run s' evs)) = true
        /\ positionY (phys (run s' evs)) = -3
        /\ rotationX (phys (run s' evs)) = rotationX (phys s')
        /\ fallVel (phys (run s' evs)) = 0
        /\ bananaRotVelX (phys (run s' evs)) = 0
        /\ thuds (audio (run s' evs)) = thuds (audio s')).
Proof.
  intros dt fallVel1 y1 s' Hf Hs Hy.
  destruct (easePeel_keeps s) as (E1 & E2 & E3 & _ & E5 & _ & E7 & _).
  assert (Hy' : Rltb (positionY (phys (easePeel s))
                      + (fallVel (phys (easePeel s)) - 9.8 * dt) * dt) (-3) = true).
  { apply Rltb_true. rewrite E1, E5. exact Hy. }
  assert (Hsettle : Rabs (fallVel1 * -0.45) < 0.4 ->
            fallVel (phys s') = 0 /\ bananaRotVelX (phys s') = 0
            /\ settled (phys s') = true).
  { intros Hlt. subst s'. unfold animate, fallStep. fold dt. cbv zeta.
    rewrite Hf, E3, Hs. simpl. rewrite Hy'.
    rewrite E1. fold fallVel1. apply Rltb_true in Hlt. rewrite Hlt. simpl. auto. }
  assert (Hpos : positionY (phys s') = -3 /\ thuds (audio s') = S (thuds (audio s))).
  { subst s'. unfold animate, fallStep. fold dt. cbv zeta.
    rewrite Hf, E3, Hs. simpl. rewrite Hy'.
    destruct (Rltb (Rabs _) 0.4); simpl; rewrite <- E7;
      destruct (negb _ && _); simpl; auto. }
  destruct Hpos as [Hp Ht].
  split; [exact Hp|]. split; [exact Ht|]. split; [|split; [exact Hsettle|split]].
  - intros Hge. subst s'. unfold animate, fallStep. fold dt. cbv zeta.
    rewrite Hf, E3, Hs. simpl. rewrite Hy'.
    rewrite E1, E2. fold fallVel1. apply Rltb_false in Hge. rewrite Hge. simpl.
    auto.
  - intros H3. apply Hsettle. rewrite H3. unfold Rabs.
    destruct (Rcase_abs 0.3); lra.
  - intros Hset evs.
    destruct (settled_run evs s' Hset) as (B1 & B2 & B3 & B4 & B5 & B6).
    assert (Hz : fallVel (phys s') = 0 /\ bananaRotVelX (phys s') = 0).
    { destruct (Rlt_dec (Rabs (fallVel1 * -0.45)) 0.4) as [Hlt | Hge].
      - destruct (Hsettle Hlt) as (Z1 & Z2 & _). auto.
      - exfalso. revert Hset. subst s'. unfold animate, fallStep. fold dt. cbv zeta.
        rewrite Hf, E3, Hs. simpl. rewrite Hy'.
        rewrite E1. fold fallVel1.
        assert (Hge' : 0.4 <= Rabs (fallVel1 * -0.45)) by lra.
        apply Rltb_false in Hge'. rewrite Hge'. simpl. discriminate. }
    destruct Hz as [Z1 Z2].
    repeat split; congruence.
Qed.

Lemma floor_bounce_and_settle_witness :
  bananaFalling (phys (easePeel exampleFalling)) = true
  /\ settled (phys exampleFalling) = false
  /\ positionY (phys (animate (1 / 30) exampleFalling)) = -3
  /\ settled (phys (animate (1 / 30) exampleFalling)) = true.
Proof.
  assert (Hf : bananaFalling (phys (easePeel exampleFalling)) = true) by reflexivity.
  assert (Hs : settled (phys exampleFalling) = false) by reflexivity.
  assert (Hmin : Rmin (1 / 30) (1 / 30) = 1 / 30)
    by (unfold Rmin; destruct (Rle_dec (1 / 30) (1 / 30)); reflexivity).
  assert (Hy : positionY (phys exampleFalling)
               + (fallVel (phys exampleFalling) - 9.8 * Rmin (1 / 30) (1 / 30))
                 * Rmin (1 / 30) (1 / 30) < -3).
  { rewrite Hmin. simpl. lra. }
  assert (Hv : Rabs ((fallVel (phys exampleFalling) - 9.8 * Rmin (1 / 30) (1 / 30))
                     * -0.45) < 0.4).
  { rewrite Hmin. simpl. unfold Rabs. destruct (Rcase_abs _); lra. }
  pose proof (floor_bounce_and_settle exampleFalling (1 / 30) Hf Hs Hy)
    as (P1 & _ & _ & P4 & _).
  split; [exact Hf|]. split; [exact Hs|]. split; [exact P1|].
  exact (proj2 (proj2 (P4 Hv))).
Defined.

(** ** The curl as a function of the peel distance *)

Section Curl.
Variable curlR : R.
Hypothesis curlR_pos : 0 < curlR.

Lemma derivable_pt_lim_arg s :
  derivable_pt_lim (fun t => (t / curlR)%R) s (/ curlR).
Proof.
  apply (derivable_pt_lim_ext (mult_real_fct (/ curlR) id)).
  - intros z. unfold mult_real_fct, id. field. lra.
  - replace (/ curlR) with (/ curlR * 1) at 2 by ring.
    apply derivable_pt_lim_scal. apply derivable_pt_lim_id.
Qed.

Lemma derivable_pt_lim_rollN s :
  derivable_pt_lim (rollN curlR) s (rollN' curlR s).
Proof.
  apply (derivable_pt_lim_ext
           (id - mult_real_fct curlR (comp sin (fun t => (t / curlR)%R)))%F).
  - intros z. reflexivity.
  - unfold rollN'.
    replace (1 - cos (s / curlR))
      with (1 - curlR * (cos (s / curlR) * / curlR)) by (field; lra).
    apply derivable_pt_lim_minus; [apply derivable_pt_lim_id|].
    apply derivable_pt_lim_scal.
    apply derivable_pt_lim_comp; [apply derivable_pt_lim_arg|].
    apply derivable_pt_lim_sin.
Qed.

Lemma derivable_pt_lim_rollF s :
  derivable_pt_lim (rollF curlR) s (rollF' curlR s).
Proof.
  apply (derivable_pt_lim_ext
           (mult_real_fct curlR
              (fct_cte 1 - comp cos (fun t => (t / curlR)%R)))%F).
  - intros z. reflexivity.
  - unfold rollF'.
    replace (sin (s / curlR))
      with (curlR * (0 - - sin (s / curlR) * / curlR)) by (field; lra).
    apply derivable_pt_lim_scal.
    apply derivable_pt_lim_minus; [apply derivable_pt_lim_const|].
    apply derivable_pt_lim_comp; [apply derivable_pt_lim_arg|].
    apply derivable_pt_lim_cos.
Qed.
End Curl.

(** Gluing a function that vanishes with its derivative at [0] to the
    zero function on the left of [0]. *)
Section Glue.
Variables g g' f f' : R -> R.
Hypothesis f_right : forall s, 0 < s -> f s = g s.
Hypothesis f_left : forall s, s <= 0 -> f s = 0.
Hypothesis f'_right : forall s, 0 < s -> f' s = g' s.
Hypothesis f'_left : forall s, s <= 0 -> f' s = 0.
Hypothesis g_0 : g 0 = 0.
Hypothesis g'_0 : g' 0 = 0.
Hypothesis g_derivable : forall s, derivable_pt_lim g s (g' s).

Lemma glue_derivable s : derivable_pt_lim f s (f' s).
Proof.
  destruct (Rtotal_order s 0) as [Hneg | [Hzero | Hpos]].
  - rewrite (f'_left s) by lra.
    apply (derivable_pt_lim_locally_ext (fct_cte 0) f s (s - 1) 0).
    + lra.
    + intros z Hz. unfold fct_cte. symmetry. apply f_left. lra.
    + apply derivable_pt_lim_const.
  - subst s. rewrite (f'_left 0) by lra.
    intros eps Heps. destruct (g_derivable 0 eps Heps) as [delta Hdelta].
    exists delta. intros h Hh Hlt.
    rewrite (f_left 0) by lra.
    destruct (Rlt_dec 0 h) as [Hp | Hn].
    + rewrite f_right by lra.
      specialize (Hdelta h Hh Hlt). rewrite g_0, g'_0 in Hdelta. exact Hdelta.
    + rewrite f_left by lra.
      replace ((0 - 0) / h - 0) with 0 by (field; exact Hh).
      rewrite Rabs_R0. exact Heps.
  - rewrite (f'_right s) by lra.
    apply (derivable_pt_lim_locally_ext g f s 0 (s + 1)).
    + lra.
    + intros z Hz. symmetry. apply f_right. lra.
    + apply g_derivable.
Qed.

Lemma glue_continuous : continuity_pt f 0.
Proof.
  apply derivable_continuous_pt. exists (f' 0). apply glue_derivable.
Qed.

Hypothesis g'_continuous : continuity_pt g' 0.

Lemma glue_derivative_continuous : continuity_pt f' 0.
Proof.
  intros eps Heps. destruct (g'_continuous eps Heps) as (alp & Halp & H).
  exists alp. split; [exact Halp|].
  intros x [Hx Hd]. simpl in *. rewrite (f'_left 0) by lra.
  destruct (Rlt_dec 0 x) as [Hp | Hn].
  - rewrite f'_right by lra. rewrite <- g'_0. apply H. split; assumption.
  - rewrite f'_left by lra. unfold Rdist. rewrite Rminus_diag, Rabs_R0. exact Heps.
Qed.
End Glue.

Section CurlBoundary.
Variable curlR : R.
Hypothesis curlR_pos : 0 < curlR.

Lemma rollN_0 : rollN curlR 0 = 0.
Proof.
  unfold rollN. replace (0 / curlR) with 0 by (field; lra). rewrite sin_0. ring.
Qed.

Lemma rollF_0 : rollF curlR 0 = 0.
Proof.
  unfold rollF. replace (0 / curlR) with 0 by (field; lra). rewrite cos_0. ring.
Qed.

Lemma rollN'_0 : rollN' curlR 0 = 0.
Proof.
  unfold rollN'. replace (0 / curlR) with 0 by (field; lra). rewrite cos_0. ring.
Qed.

Lemma rollF'_0 : rollF' curlR 0 = 0.
Proof.
  unfold rollF'. replace (0 / curlR) with 0 by (field; lra). apply sin_0.
Qed.

Lemma continuity_arg s : continuity_pt (fun t => (t / curlR)%R) s.
Proof.
  apply derivable_continuous_pt. exists (/ curlR).
  apply derivable_pt_lim_arg. exact curlR_pos.
Qed.

Lemma continuity_rollN' s : continuity_pt (rollN' curlR) s.
Proof.
  apply (continuity_pt_minus (fct_cte 1) (comp cos (fun t => (t / curlR)%R))).
  - apply continuity_pt_const. intros x y. reflexivity.
  - apply continuity_pt_comp; [apply continuity_arg | apply continuity_cos].
Qed.

Lemma continuity_rollF' s : continuity_pt (rollF' curlR) s.
Proof.
  apply (continuity_pt_comp (fun t => (t / curlR)%R) sin).
  - apply continuity_arg.
  - apply continuity_sin.
Qed.
End CurlBoundary.

Lemma limit_from_above (f : R -> R) :
  continuity_pt f 0 -> f 0 = 0 -> limit1_in f (fun s => 0 < s) 0 0.
Proof.
  intros Hc H0 eps Heps. destruct (Hc eps Heps) as (alp & Halp & H).
  exists alp. split; [exact Halp|].
  intros x [Hx Hd]. rewrite <- H0. apply H. split; [|exact Hd].
  split; [exact I | lra].
Qed.

Lemma displacement_cases curlR maxDist s :
  (0 < s -> 0 < maxDist ->
   displacementN curlR maxDist s = rollN curlR s
   /\ displacementF curlR maxDist s = rollF curlR s
   /\ displacementN' curlR maxDist s = rollN' curlR s
   /\ displacementF' curlR maxDist s = rollF' curlR s
   /\ rotationAngle curlR maxDist s = s / curlR)
  /\ (s <= 0 \/ maxDist <= 0 ->
      displacementN curlR maxDist s = 0
      /\ displacementF curlR maxDist s = 0
      /\ displacementN' curlR maxDist s = 0
      /\ displacementF' curlR maxDist s = 0
      /\ rotationAngle curlR maxDist s = 0).
Proof.
  unfold displacementN, displacementF, displacementN', displacementF', rotationAngle.
  split.
  - intros Hs Hm. rewrite (proj2 (curled_true maxDist s) (conj Hs Hm)).
    repeat split; reflexivity.
  - intros H. rewrite (curled_false maxDist s H). repeat split; reflexivity.
Qed.

(** C2.  For a positive curl radius the two displacements of the
    curled region, [s - R sin(s/R)] and [R (1 - cos(s/R))], have the
    derivatives [1 - cos(s/R)] and [sin(s/R)], and all four tend to [0]
    as [s] tends to [0] from above.  So the displacements of the
    shader, which are [0] for [s <= 0], are continuous at [s = 0] and
    differentiable everywhere, with derivatives that are continuous at
    [s = 0]. *)
Theorem curl_seamless_at_boundary (curlR maxDist : R) :
  0 < curlR ->
  ((forall s, derivable_pt_lim (rollN curlR) s (rollN' curlR s))
   /\ (forall s, derivable_pt_lim (rollF curlR) s (rollF' curlR s))
   /\ limit1_in (rollN curlR) (fun s => 0 < s) 0 0
   /\ limit1_in (rollF curlR) (fun s => 0 < s) 0 0
   /\ limit1_in (rollN' curlR) (fun s => 0 < s) 0 0
   /\ limit1_in (rollF' curlR) (fun s => 0 < s) 0 0)
  /\ (forall s, 0 < s -> 0 < maxDist ->
      displacementN curlR maxDist s = rollN curlR s
      /\ displacementF curlR maxDist s = rollF curlR s)
  /\ (forall s, s <= 0 ->
      displacementN curlR maxDist s = 0 /\ displacementF curlR maxDist s = 0)
  /\ continuity_pt (displacementN curlR maxDist) 0
  /\ continuity_pt (displacementF curlR maxDist) 0
  /\ (forall s, derivable_pt_lim (displacementN curlR maxDist) s
                  (displacementN' curlR maxDist s))
  /\ (forall s, derivable_pt_lim (displacementF curlR maxDist) s
                  (displacementF' curlR maxDist s))
  /\ continuity_pt (displacementN' curlR maxDist) 0
  /\ continuity_pt (displacementF' curlR maxDist) 0.
Proof.
  intros HR.
  assert (HdN := derivable_pt_lim_rollN curlR HR).
  assert (HdF := derivable_pt_lim_rollF curlR HR).
  split.
  { split; [exact HdN|]. split; [exact HdF|].
    split; [|split; [|split]]; apply limit_from_above.
    - apply derivable_continuous_pt. exists (rollN' curlR 0). apply HdN.
    - apply rollN_0; exact HR.
    - apply derivable_continuous_pt. exists (rollF' curlR 0). apply HdF.
    - apply rollF_0; exact HR.
    - apply continuity_rollN'; exact HR.
    - apply rollN'_0; exact HR.
    - apply continuity_rollF'; exact HR.
    - apply rollF'_0; exact HR. }
  split.
  { intros s Hs Hm. destruct (displacement_cases curlR maxDist s) as [A _].
    destruct (A Hs Hm) as (A1 & A2 & _). auto. }
  split.
  { intros s Hs. destruct (displacement_cases curlR maxDist s) as [_ B].
    destruct (B (or_introl Hs)) as (B1 & B2 & _). auto. }
  assert (Hleft : forall s, s <= 0 ->
            displacementN curlR maxDist s = 0 /\ displacementF curlR maxDist s = 0
            /\ displacementN' curlR maxDist s = 0
            /\ displacementF' curlR maxDist s = 0).
  { intros s Hs. destruct (displacement_cases curlR maxDist s) as [_ B].
    destruct (B (or_introl Hs)) as (B1 & B2 & B3 & B4 & _). auto. }
  destruct (Rlt_dec 0 maxDist) as [Hm | Hm].
  - assert (Hright : forall s, 0 < s ->
              displacementN curlR maxDist s = rollN curlR s
              /\ displacementF curlR maxDist s = rollF curlR s
              /\ displacementN' curlR maxDist s = rollN' curlR s
              /\ displacementF' curlR maxDist s = rollF' curlR s).
    { intros s Hs. destruct (displacement_cases curlR maxDist s) as [A _].
      destruct (A Hs Hm) as (A1 & A2 & A3 & A4 & _). auto. }
    repeat split.
    + apply (glue_continuous (rollN curlR) (rollN' curlR) _ (displacementN' curlR maxDist));
        try (intros; apply Hright; assumption); try (intros; apply Hleft; assumption);
        auto using rollN_0, rollN'_0.
    + apply (glue_continuous (rollF curlR) (rollF' curlR) _ (displacementF' curlR maxDist));
        try (intros; apply Hright; assumption); try (intros; apply Hleft; assumption);
        auto using rollF_0, rollF'_0.
    + apply (glue_derivable (rollN curlR) (rollN' curlR));
        try (intros; apply Hright; assumption); try (intros; apply Hleft; assumption);
        auto using rollN_0, rollN'_0.
    + apply (glue_derivable (rollF curlR) (rollF' curlR));
        try (intros; apply Hright; assumption); try (intros; apply Hleft; assumption);
        auto using rollF_0, rollF'_0.
    + apply (glue_derivative_continuous (rollN' curlR));
        try (intros; apply Hright; assumption); try (intros; apply Hleft; assumption);
        auto using rollN'_0, continuity_rollN'.
    + apply (glue_derivative_continuous (rollF' curlR));
        try (intros; apply Hright; assumption); try (intros; apply Hleft; assumption);
        auto using rollF'_0, continuity_rollF'.
  - assert (Hall : forall s,
              displacementN curlR maxDist s = 0 /\ displacementF curlR maxDist s = 0
              /\ displacementN' curlR maxDist s = 0
              /\ displacementF' curlR maxDist s = 0).
    { intros s. destruct (displacement_cases curlR maxDist s) as [_ B].
      assert (Hm' : maxDist <= 0) by lra.
      destruct (B (or_intror Hm')) as (B1 & B2 & B3 & B4 & _). auto. }
    assert (Hc0 : continuity_pt (fct_cte 0) 0)
      by (apply continuity_pt_const; intros x y; reflexivity).
    repeat split.
    + apply (glue_continuous (fct_cte 0) (fct_cte 0) _ (displacementN' curlR maxDist));
        try (intros; apply Hall); auto; intros; apply derivable_pt_lim_const.
    + apply (glue_continuous (fct_cte 0) (fct_cte 0) _ (displacementF' curlR maxDist));
        try (intros; apply Hall); auto; intros; apply derivable_pt_lim_const.
    + apply (glue_derivable (fct_cte 0) (fct_cte 0));
        try (intros; apply Hall); auto; intros; apply derivable_pt_lim_const.
    + apply (glue_derivable (fct_cte 0) (fct_cte 0));
        try (intros; apply Hall); auto; intros; apply derivable_pt_lim_const.
    + apply (glue_derivative_continuous (fct_cte 0));
        try (intros; apply Hall); auto.
    + apply (glue_derivative_continuous (fct_cte 0));
        try (intros; apply Hall); auto.
Qed.

Lemma curl_seamless_at_boundary_witness :
  0 < 0.12 /\ continuity_pt (displacementN 0.12 1) 0
  /\ continuity_pt (displacementN' 0.12 1) 0.
Proof.
  assert (H : 0 < 0.12) by lra.
  split; [exact H|].
  pose proof (curl_seamless_at_boundary 0.12 1 H)
    as (_ & _ & _ & C1 & _ & _ & _ & C2 & _).
  split; [exact C1 | exact C2].
Defined.

(** ** Monotonicity of the curl *)

Lemma sin_bounds_nonneg t : 0 <= t -> - t <= sin t <= t.
Proof.
  intros Ht. split.
  - destruct (Rle_dec t 1) as [H1 | H1].
    + assert (HPI := PI2_1).
      assert (0 <= sin t) by (apply sin_ge_0; lra). lra.
    + destruct (SIN_bound t). lra.
  - destruct (Req_dec t 0) as [-> | Hne].
    + rewrite sin_0. lra.
    + left. apply sin_lt_x. lra.
Qed.

Lemma sin_diff_le a b : a <= b -> sin b - sin a <= b - a.
Proof.
  intros Hab. rewrite form4.
  destruct (sin_bounds_nonneg ((b - a) / 2)) as [L U]; [lra|].
  destruct (COS_bound ((b + a) / 2)) as [CL CU].
  set (c := cos ((b + a) / 2)) in *. set (st := sin ((b - a) / 2)) in *.
  assert (Ht : 0 <= (b - a) / 2) by lra.
  nra.
Qed.

Lemma rollN_monotone curlR s1 s2 :
  0 < curlR -> s1 <= s2 -> rollN curlR s1 <= rollN curlR s2.
Proof.
  intros HR H12. unfold rollN.
  assert (Ha : s1 / curlR <= s2 / curlR).
  { unfold Rdiv. apply Rmult_le_compat_r; [|exact H12].
    left. apply Rinv_0_lt_compat. exact HR. }
  pose proof (sin_diff_le _ _ Ha) as Hs.
  assert (E : s2 - s1 = curlR * (s2 / curlR - s1 / curlR)) by (field; lra).
  nra.
Qed.

Lemma rollF_monotone curlR s1 s2 :
  0 < curlR -> 0 <= s1 -> s1 <= s2 -> s2 <= PI * curlR ->
  rollF curlR s1 <= rollF curlR s2.
Proof.
  intros HR H1 H12 H2. unfold rollF.
  assert (Hinv : 0 < / curlR) by (apply Rinv_0_lt_compat; exact HR).
  assert (A1 : 0 <= s1 / curlR) by (unfold Rdiv; nra).
  assert (A12 : s1 / curlR <= s2 / curlR) by (unfold Rdiv; nra).
  assert (A2 : s2 / curlR <= PI).
  { replace PI with (PI * curlR / curlR) by (field; lra). unfold Rdiv. nra. }
  assert (Hc : cos (s2 / curlR) <= cos (s1 / curlR))
    by (apply cos_decr_1; lra).
  nra.
Qed.

Lemma rollF_half_turn curlR : 0 < curlR -> rollF curlR (PI * curlR) = 2 * curlR.
Proof.
  intros HR. unfold rollF.
  replace (PI * curlR / curlR) with PI by (field; lra). rewrite cos_PI. ring.
Qed.

Lemma rollF_full_turn curlR : 0 < curlR -> rollF curlR (2 * PI * curlR) = 0.
Proof.
  intros HR. unfold rollF.
  replace (2 * PI * curlR / curlR) with (2 * PI) by (field; lra).
  rewrite cos_2PI. ring.
Qed.

(** C3 as stated fails: with the curl radius [0.12] of the source,
    the displacement along the flat direction is [0.24] at
    [s = 0.12 PI] and back to [0] at the larger [s = 0.24 PI]; these
    are the flat-direction coordinates that the shader gives the two
    vertices at these peel distances on a fully peeled tape. *)
Lemma flat_displacement_not_monotone :
  (0 < 0.12 /\ 0 < halfTurn /\ halfTurn <= fullTurn)
  /\ peelDistance (curlUniforms 1) halfTurnVertex = halfTurn
  /\ peelDistance (curlUniforms 1) fullTurnVertex = fullTurn
  /\ displacementF 0.12 1 halfTurn = 0.24
  /\ displacementF 0.12 1 fullTurn = 0
  /\ vz (beginVertex (curlUniforms 1) halfTurnVertex) = 0.24
  /\ vz (beginVertex (curlUniforms 1) fullTurnVertex) = 0
  /\ ~ (displacementF 0.12 1 halfTurn <= displacementF 0.12 1 fullTurn).
Proof.
  assert (HPI := PI_RGT_0).
  assert (H1 : 0 < halfTurn) by (unfold halfTurn; lra).
  assert (H2 : 0 < fullTurn) by (unfold fullTurn; lra).
  assert (P1 : peelDistance (curlUniforms 1) halfTurnVertex = halfTurn)
    by (unfold peelDistance, dot; simpl; ring).
  assert (P2 : peelDistance (curlUniforms 1) fullTurnVertex = fullTurn)
    by (unfold peelDistance, dot; simpl; ring).
  assert (F1 : displacementF 0.12 1 halfTurn = 0.24).
  { destruct (displacement_cases 0.12 1 halfTurn) as [A _].
    destruct (A H1 ltac:(lra)) as (_ & A2 & _). rewrite A2.
    unfold halfTurn. rewrite rollF_half_turn; lra. }
  assert (F2 : displacementF 0.12 1 fullTurn = 0).
  { destruct (displacement_cases 0.12 1 fullTurn) as [A _].
    destruct (A H2 ltac:(lra)) as (_ & A2 & _). rewrite A2.
    unfold fullTurn. rewrite rollF_full_turn; lra. }
  split; [unfold halfTurn, fullTurn in *; lra|].
  split; [exact P1|]. split; [exact P2|].
  split; [exact F1|]. split; [exact F2|].
  split; [|split].
  - rewrite beginVertex_displacement, P1. simpl. rewrite F1. ring.
  - rewrite beginVertex_displacement, P2. simpl. rewrite F2. ring.
  - rewrite F1, F2. lra.
Qed.

(** C3, amended.  For a positive curl radius and peel distances
    [0 < s1 <= s2], the displacement along the peel normal and the
    rotation angle at [s1] are at most those at [s2]; so is the
    displacement along the flat direction as long as [s2 <= PI R], the
    first half turn of the roll. *)
Theorem curl_monotone (curlR maxDist s1 s2 : R) :
  0 < curlR -> 0 < s1 -> s1 <= s2 ->
  displacementN curlR maxDist s1 <= displacementN curlR maxDist s2
  /\ rotationAngle curlR maxDist s1 <= rotationAngle curlR maxDist s2
  /\ (s2 <= PI * curlR ->
      displacementF curlR maxDist s1 <= displacementF curlR maxDist s2).
Proof.
  intros HR H1 H12.
  assert (H2 : 0 < s2) by lra.
  destruct (Rlt_dec 0 maxDist) as [Hm | Hm].
  - destruct (displacement_cases curlR maxDist s1) as [A _].
    destruct (A H1 Hm) as (A1 & A2 & _ & _ & A5).
    destruct (displacement_cases curlR maxDist s2) as [B _].
    destruct (B H2 Hm) as (B1 & B2 & _ & _ & B5).
    rewrite A1, A2, A5, B1, B2, B5.
    split; [apply rollN_monotone; assumption|]. split.
    + unfold Rdiv. apply Rmult_le_compat_r; [|exact H12].
      left. apply Rinv_0_lt_compat. exact HR.
    + intros Hhalf. apply rollF_monotone; lra.
  - assert (Hm' : maxDist <= 0) by lra.
    destruct (displacement_cases curlR maxDist s1) as [_ A].
    destruct (A (or_intror Hm')) as (A1 & A2 & _ & _ & A5).
    destruct (displacement_cases curlR maxDist s2) as [_ B].
    destruct (B (or_intror Hm')) as (B1 & B2 & _ & _ & B5).
    rewrite A1, A2, A5, B1, B2, B5. repeat split; intros; lra.
Qed.

Lemma curl_monotone_witness :
  0 < 0.12 /\ 0 < 0.1 /\ 0.1 <= 0.2
  /\ displacementN 0.12 1 0.1 <= displacementN 0.12 1 0.2.
Proof.
  assert (HR : 0 < 0.12) by lra.
  assert (H1 : 0 < 0.1) by lra.
  assert (H12 : 0.1 <= 0.2) by lra.
  repeat (split; [assumption|]).
  exact (proj1 (curl_monotone 0.12 1 0.1 0.2 HR H1 H12)).
Defined.

(** ** The threshold at a lock *)

Lemma classifyAxes_distinct bSize :
  lengthAxis (classifyAxes bSize) <> flatAxis (classifyAxes bSize)
  /\ widthAxis (classifyAxes bSize) <> flatAxis (classifyAxes bSize).
Proof.
  destruct bSize as [ex ey ez].
  unfold classifyAxes, dims, dimAxis, byLenDesc. simpl.
  repeat (rcases; simpl); split; discriminate.
Qed.

Lemma chooseAxis_long a bb start hits :
  chooseAxis a bb start hits = lengthAxis a \/ chooseAxis a bb start hits = widthAxis a.
Proof. unfold chooseAxis. repeat break_match; auto. Qed.

(** The quotient itself is not guarded: on a span of zero that the
    wrapped object's box meets at the same coordinate it is [0 / 0], and
    the clamp lets [NaN] through. *)
Lemma fallThreshold_unguarded (sign : Z) (x : R) :
  fallThreshold sign (JS.Fin x) (JS.Fin x) x x (x - x) = JS.NaN.
Proof.
  unfold fallThreshold. destruct (sign =? 1)%Z; simpl;
    destruct (Req_dec_T (x - x) 0); try lra;
    destruct (Req_dec_T (x + - x) 0); try lra; reflexivity.
Qed.








(* ================================================================== *)
(** * Further properties of [SceneCanvas.tsx] *)
(* ================================================================== *)

(** ** Responsive scale *)

Lemma halfTan_pos : 0 < tan (degToRad (45 / 2)).
Proof.
  assert (HPI := PI_RGT_0). unfold degToRad.
  apply tan_gt_0; lra.
Qed.

Lemma visibleWidth_monotone a1 a2 : a1 <= a2 -> visibleWidth a1 <= visibleWidth a2.
Proof.
  intros H. unfold visibleWidth, CAMERA_Z, BANANA_Z.
  assert (Ht := halfTan_pos).
  set (t := tan (degToRad (45 / 2))) in *. nra.
Qed.

(** X1.  The responsive scale is never below [1] and is [1] on a
    landscape viewport.  On a portrait viewport, for a model of positive
    width ratio, it does not decrease as the viewport widens, and where
    it exceeds [1] the scaled base width of the model is exactly 0.92
    of the visible width. *)
Theorem getResponsiveScale_fits (ratio aspect : R) :
  0 < ratio ->
  1 <= getResponsiveScale ratio aspect
  /\ (1 <= aspect -> getResponsiveScale ratio aspect = 1)
  /\ (aspect < 1 -> 1 < getResponsiveScale ratio aspect ->
      BASE_MODEL_SCALE * ratio * getResponsiveScale ratio aspect
      = 0.92 * visibleWidth aspect)
  /\ (forall aspect', aspect <= aspect' -> aspect' < 1 ->
      getResponsiveScale ratio aspect <= getResponsiveScale ratio aspect').
Proof.
  intros Hr. unfold getResponsiveScale, BASE_MODEL_SCALE.
  split; [|split; [|split]].
  - destruct (Rgeb aspect 1); [lra | apply Rmax_r].
  - intros Ha. assert (E : Rgeb aspect 1 = true) by (apply Rgeb_true; lra).
    rewrite E. reflexivity.
  - intros Ha. assert (E : Rgeb aspect 1 = false) by (apply Rgeb_false; lra).
    rewrite E. unfold Rmax. destruct (Rle_dec _ 1); [lra|].
    intros _. field. lra.
  - intros aspect' H12 Ha'.
    assert (E : Rgeb aspect 1 = false) by (apply Rgeb_false; lra).
    assert (E' : Rgeb aspect' 1 = false) by (apply Rgeb_false; lra).
    rewrite E, E'.
    apply Rle_max_compat_r.
    pose proof (visibleWidth_monotone aspect aspect' H12) as Hv.
    unfold Rdiv. apply Rmult_le_compat_r.
    + left. apply Rinv_0_lt_compat. lra.
    + lra.
Qed.

Lemma getResponsiveScale_fits_witness :
  0 < 0.5 /\ 1 <= getResponsiveScale 0.5 0.5.
Proof.
  assert (H : 0 < 0.5) by lra.
  split; [exact H|]. exact (proj1 (getResponsiveScale_fits 0.5 0.5 H)).
Defined.

Lemma getResponsiveScale_ge_1 ratio aspect : 1 <= getResponsiveScale ratio aspect.
Proof.
  unfold getResponsiveScale. destruct (Rgeb aspect 1); [lra | apply Rmax_r].
Qed.

Lemma Rmax3_bounds x y z :
  x <= Rmax (Rmax x y) z /\ y <= Rmax (Rmax x y) z /\ z <= Rmax (Rmax x y) z.
Proof.
  unfold Rmax. destruct (Rle_dec x y); destruct (Rle_dec _ z); lra.
Qed.

(** X2.  For a model box of positive width and non-negative height
    and depth, in a container of positive height, [modelBaseSize] is the
    largest extent, the width ratio is in [(0, 1]], and the scale given
    to the group makes that largest extent [3] times the responsive
    scale, so never less than [3]. *)
Theorem groupScale_normalises (size : Vector3 R) (containerWidth containerHeight : R) :
  0 < vx size -> 0 <= vy size -> 0 <= vz size ->
  0 < containerHeight ->
  let m := measureModel size in
  (vx size <= modelBaseSize m /\ vy size <= modelBaseSize m
   /\ vz size <= modelBaseSize m
   /\ (modelBaseSize m = vx size \/ modelBaseSize m = vy size
       \/ modelBaseSize m = vz size))
  /\ 0 < modelScreenWidthRatio m <= 1
  /\ groupScale m containerWidth containerHeight * modelBaseSize m
     = BASE_MODEL_SCALE
       * getResponsiveScale (modelScreenWidthRatio m) (containerWidth / containerHeight)
  /\ 3 <= groupScale m containerWidth containerHeight * modelBaseSize m.
Proof.
  intros Hx Hy Hz _ m.
  destruct (Rmax3_bounds (vx size) (vy size) (vz size)) as (Bx & By & Bz).
  assert (Hbase : 0 < modelBaseSize m).
  { simpl. lra. }
  assert (Hpick : modelBaseSize m = vx size \/ modelBaseSize m = vy size
                  \/ modelBaseSize m = vz size).
  { simpl. unfold Rmax. destruct (Rle_dec (vx size) (vy size));
      destruct (Rle_dec _ (vz size)); auto. }
  assert (Hinv : 0 < / modelBaseSize m) by (apply Rinv_0_lt_compat; exact Hbase).
  assert (Hratio : 0 < modelScreenWidthRatio m <= 1).
  { simpl in *. unfold Rdiv. split; [nra|].
    apply Rmult_le_reg_r with (Rmax (Rmax (vx size) (vy size)) (vz size)); [exact Hbase|].
    rewrite Rmult_assoc, Rinv_l by lra. lra. }
  assert (Hscale : groupScale m containerWidth containerHeight * modelBaseSize m
     = BASE_MODEL_SCALE
       * getResponsiveScale (modelScreenWidthRatio m) (containerWidth / containerHeight)).
  { unfold groupScale. field. lra. }
  split; [simpl in *; auto|]. split; [exact Hratio|]. split; [exact Hscale|].
  rewrite Hscale. unfold BASE_MODEL_SCALE.
  pose proof (getResponsiveScale_ge_1 (modelScreenWidthRatio m)
                (containerWidth / containerHeight)).
  lra.
Qed.

Lemma groupScale_normalises_witness :
  0 < vx (mkVector3 2 4 1) /\ 0 < 900
  /\ 3 <= groupScale (measureModel (mkVector3 2 4 1)) 400 900
          * modelBaseSize (measureModel (mkVector3 2 4 1)).
Proof.
  assert (Hx : 0 < vx (mkVector3 2 4 1)) by (simpl; lra).
  assert (Hy : 0 <= vy (mkVector3 2 4 1)) by (simpl; lra).
  assert (Hz : 0 <= vz (mkVector3 2 4 1)) by (simpl; lra).
  assert (Hh : 0 < 900) by lra.
  split; [exact Hx|]. split; [exact Hh|].
  exact (proj2 (proj2 (proj2
           (groupScale_normalises (mkVector3 2 4 1) 400 900 Hx Hy Hz Hh)))).
Defined.

(** ** Peel progress in reachable states *)

Lemma tapeUniforms_fallStep dt s : tapeUniforms (fallStep dt s) = tapeUniforms s.
Proof. unfold fallStep. repeat break_match; reflexivity. Qed.

Lemma lerp_bounds x y t lo hi :
  0 <= t <= 1 -> lo <= x <= hi -> lo <= y <= hi -> lo <= lerp x y t <= hi.
Proof. intros Ht Hx Hy. unfold lerp. split; nra. Qed.

Lemma Rmin_1_bounds x : 0 <= x -> 0 <= Rmin x 1.0 <= 1.
Proof. intros H. unfold Rmin. destruct (Rle_dec x 1.0); lra. Qed.

Lemma progress_step s ev :
  0 <= targetPeelProgress (drag s) <= 1.05 ->
  0 <= currentPeelProgress (drag s) <= 1.05 ->
  0 <= uPeel (tapeUniforms s) <= 1 ->
  0 <= currentPeelProgress (drag (step s ev)) <= 1.05
  /\ 0 <= uPeel (tapeUniforms (step s ev)) <= 1.
Proof.
  intros Ht Hc Hu. destruct ev as [e | e | | delta]; simpl.
  - unfold onDown. repeat break_match; simpl; auto.
  - unfold onMove, lockDirection, relock, advancePeel.
    repeat break_match; simpl; auto; split; auto; lra.
  - auto.
  - unfold animate. rewrite drag_fallStep, tapeUniforms_fallStep.
    assert (H1 : 0 <= lerp (currentPeelProgress (drag s)) (targetPeelProgress (drag s)) 0.15
                 <= 1.05) by (apply lerp_bounds; lra).
    assert (H2 : 0 <= lerp (currentPeelProgress (drag s)) 1.05 0.3 <= 1.05)
      by (apply lerp_bounds; lra).
    unfold easePeel, tear. repeat break_match; simpl; auto;
      split; auto; apply Rmin_1_bounds; lra.
Qed.

Lemma reachable_progress s :
  reachable s ->
  0 <= currentPeelProgress (drag s) <= 1.05 /\ 0 <= uPeel (tapeUniforms s) <= 1.
Proof.
  induction 1 as [bb n w b | s ev Hr [IH1 IH2]].
  - simpl. lra.
  - apply progress_step; auto. apply reachable_targetPeelProgress. exact Hr.
Qed.

(** X3.  In every reachable state, and after any further events, the
    eased progress [currentPeelProgress] is in [[0, 1.05]] and the
    deformation amount [uPeel] handed to the shader is in [[0, 1]]. *)
Theorem progress_in_range (s : State) (evs : list Event) :
  reachable s ->
  0 <= currentPeelProgress (drag (run s evs)) <= 1.05
  /\ 0 <= uPeel (tapeUniforms (run s evs)) <= 1.
Proof.
  intros Hr. apply reachable_progress. apply reachable_run. exact Hr.
Qed.

Lemma progress_in_range_witness :
  reachable exampleLocked
  /\ 0 <= uPeel (tapeUniforms (run exampleLocked [PointerMove exampleDrag2; Frame 0.01]))
     <= 1.
Proof.
  split; [exact exampleLocked_reachable|].
  exact (proj2 (progress_in_range exampleLocked [PointerMove exampleDrag2; Frame 0.01]
                  exampleLocked_reachable)).
Defined.

(** ** Easing toward the target *)

Lemma phys_flags_fallStep dt s :
  bananaFalling (phys (fallStep dt s)) = bananaFalling (phys s)
  /\ isTorn (phys (fallStep dt s)) = isTorn (phys s)
  /\ bananaFallThreshold (phys (fallStep dt s)) = bananaFallThreshold (phys s).
Proof. unfold fallStep. repeat break_match; simpl; auto. Qed.

Lemma bananaFalling_run evs : forall s,
  bananaFalling (phys s) = true -> bananaFalling (phys (run s evs)) = true.
Proof.
  induction evs as [|ev evs IH]; intros s H; simpl; [exact H|].
  apply IH. apply bananaFalling_step. exact H.
Qed.

(** A frame that eases the progress without starting the fall. *)
Lemma frame_easing s delta :
  isTorn (phys s) = false ->
  peelConfigured (drag s) = true ->
  bananaFalling (phys (animate delta s)) = false ->
  drag (animate delta s)
  = set_currentPeelProgress
      (lerp (currentPeelProgress (drag s)) (targetPeelProgress (drag s)) 0.15) (drag s)
  /\ isTorn (phys (animate delta s)) = false
  /\ uPeel (tapeUniforms (animate delta s))
     = Rmin (lerp (currentPeelProgress (drag s)) (targetPeelProgress (drag s)) 0.15) 1.0.
Proof.
  intros Ht Hc. unfold animate.
  destruct (phys_flags_fallStep (Rmin delta (1 / 30)) (easePeel s)) as (F1 & F2 & _).
  rewrite F1, F2, drag_fallStep, tapeUniforms_fallStep.
  unfold easePeel, tear. rewrite Ht, Hc. cbn [negb andb].
  destruct (bananaFalling (phys s)) eqn:Hf; cbn [negb].
  - destruct (Rgeb _ 0.99); simpl; [discriminate | intros H; congruence].
  - match goal with
    | |- context [JS.geb ?a ?b] => destruct (JS.geb a b)
    end; simpl; [discriminate|]. intros _. auto.
Qed.

Lemma pow_085_bounds n : 0 <= 0.85 ^ n <= 1.
Proof.
  induction n as [|n IH]; simpl; [lra | nra].
Qed.

(** X4.  While the tape is configured and neither falling nor torn,
    frames alone leave the target where it is and close the gap between
    the eased progress and the target by the factor [0.85] each, so the
    eased progress moves toward the target and never passes it. *)
Theorem easing_closes_gap (s : State) (deltas : list R) :
  isTorn (phys s) = false ->
  peelConfigured (drag s) = true ->
  bananaFalling (phys (run s (map Frame deltas))) = false ->
  let s' := run s (map Frame deltas) in
  let target := targetPeelProgress (drag s) in
  targetPeelProgress (drag s') = target
  /\ target - currentPeelProgress (drag s')
     = 0.85 ^ length deltas * (target - currentPeelProgress (drag s))
  /\ (currentPeelProgress (drag s) <= target ->
      currentPeelProgress (drag s) <= currentPeelProgress (drag s') <= target)
  /\ (target <= currentPeelProgress (drag s) ->
      target <= currentPeelProgress (drag s') <= currentPeelProgress (drag s)).
Proof.
  intros Ht Hc Hf. cbv zeta.
  assert (Hmain : targetPeelProgress (drag (run s (map Frame deltas)))
                  = targetPeelProgress (drag s)
                  /\ targetPeelProgress (drag s)
                     - currentPeelProgress (drag (run s (map Frame deltas)))
                     = 0.85 ^ length deltas
                       * (targetPeelProgress (drag s) - currentPeelProgress (drag s))).
  { revert s Ht Hc Hf.
    induction deltas as [|delta deltas IH]; intros s Ht Hc Hf.
    - simpl. split; [reflexivity | ring].
    - change (run s (map Frame (delta :: deltas)))
        with (run (animate delta s) (map Frame deltas)) in *.
      assert (H1 : bananaFalling (phys (animate delta s)) = false).
      { destruct (bananaFalling (phys (animate delta s))) eqn:E; [|reflexivity].
        rewrite (bananaFalling_run _ _ E) in Hf. discriminate. }
      destruct (frame_easing s delta Ht Hc H1) as (D & T & _).
      assert (Hc1 : peelConfigured (drag (animate delta s)) = true)
        by (rewrite D; exact Hc).
      destruct (IH _ T Hc1 Hf) as [I1 I2].
      rewrite D in I1, I2. unfold set_currentPeelProgress in I1, I2.
      cbn [targetPeelProgress currentPeelProgress] in I1, I2.
      split; [exact I1|].
      rewrite I2. unfold lerp. cbn [length pow].
      generalize (0.85 ^ length deltas). intros k.
      replace 0.15 with (15 / 100) by lra. replace 0.85 with (85 / 100) by lra.
      field. }
  destruct Hmain as [M1 M2].
  pose proof (pow_085_bounds (length deltas)) as Hp.
  set (k := 0.85 ^ length deltas) in *.
  split; [exact M1|]. split; [exact M2|]. split; intros H; nra.
Qed.

(** ** From the fall to the tear *)

Lemma within_thresholdOk c : JS.within 0.3 0.95 c -> thresholdOk c.
Proof.
  destruct c as [| | |r]; simpl; intros H; try contradiction.
  right. exists r. split; [reflexivity | lra].
Qed.

Lemma fallThreshold_ok sign bananaMin bananaMax tapeMin tapeMax span :
  thresholdOk (fallThreshold sign bananaMin bananaMax tapeMin tapeMax span).
Proof.
  unfold fallThreshold.
  set (t := if (sign =? 1)%Z then _ else _).
  destruct t as [| | |x] eqn:E.
  - left. reflexivity.
  - apply within_thresholdOk. apply clamp_within. discriminate.
  - apply within_thresholdOk. apply clamp_within. discriminate.
  - apply within_thresholdOk. apply clamp_within. discriminate.
Qed.

Lemma geb_thresholdOk c thr :
  thresholdOk thr -> JS.geb (JS.Fin c) thr = true -> 0.3 <= c.
Proof.
  intros [-> | (t & -> & Ht)]; simpl; [discriminate|].
  destruct (Rle_dec t c); [lra | discriminate].
Qed.

Lemma threshold_step s ev :
  thresholdOk (bananaFallThreshold (phys s)) ->
  thresholdOk (bananaFallThreshold (phys (step s ev))).
Proof.
  intros H. destruct ev as [e | e | | delta]; simpl.
  - rewrite phys_onDown. exact H.
  - unfold onMove, lockDirection, relock, advancePeel.
    repeat break_match; simpl; auto; apply fallThreshold_ok.
  - exact H.
  - unfold animate.
    destruct (phys_flags_fallStep (Rmin delta (1 / 30)) (easePeel s)) as (_ & _ & F).
    rewrite F. unfold easePeel, tear. repeat break_match; simpl; auto.
Qed.

Lemma reachable_threshold s :
  reachable s -> thresholdOk (bananaFallThreshold (phys s)).
Proof.
  induction 1 as [bb n w b | s ev _ IH].
  - simpl. right. exists 1. split; [reflexivity | lra].
  - apply threshold_step. exact IH.
Qed.

(** While the body falls the eased progress is at least [0.3]; until
    the tear the tape stays configured and the direction is not being
    determined. *)
Lemma reachable_falling s :
  reachable s ->
  bananaFalling (phys s) = true ->
  0.3 <= currentPeelProgress (drag s)
  /\ (isTorn (phys s) = false ->
      peelConfigured (drag s) = true /\ isDeterminingDir (drag s) = false).
Proof.
  induction 1 as [bb n w b | s ev Hr IH]; [discriminate|].
  pose proof (reachable_threshold s Hr) as Hthr.
  pose proof (determining_not_configured s Hr) as Hdet.
  destruct ev as [e | e | | delta]; simpl.
  - rewrite phys_onDown. intros Hf. destruct (IH Hf) as [I1 I2].
    unfold onDown. repeat break_match; simpl; rprops; auto; try lra;
      split; auto; intros; try congruence; auto.
  - unfold onMove.
    destruct (negb (isDragging (drag s)) || isTorn (phys s)) eqn:G; [exact IH|].
    apply orb_false_iff in G. destruct G as [_ Ht].
    destruct (isDeterminingDir (drag s)) eqn:D.
    + assert (Hno : bananaFalling (phys s) = true -> False).
      { intros Hf. destruct (IH Hf) as [_ I2]. destruct (I2 Ht). discriminate. }
      destruct (Rltb _ 8); [intros Hf; destruct (Hno Hf)|].
      destruct (dragStartLocalHit (drag s)) as [start|];
        [|intros Hf; destruct (Hno Hf)].
      intros Hf. exfalso. apply Hno.
      revert Hf. unfold lockDirection, relock. repeat break_match; simpl; auto.
    + destruct (peelConfigured (drag s)) eqn:Hc; cbn [negb];
        [|rewrite Hc, D; exact IH].
      unfold advancePeel. intros Hf.
      assert (Hf' : bananaFalling (phys s) = true).
      { revert Hf. repeat break_match; simpl; auto. }
      destruct (IH Hf') as [I1 I2].
      repeat break_match; simpl; split; auto.
  - intros Hf. destruct (IH Hf) as [I1 I2]. auto.
  - unfold animate.
    destruct (phys_flags_fallStep (Rmin delta (1 / 30)) (easePeel s)) as (F1 & F2 & _).
    rewrite F1, F2, drag_fallStep.
    unfold easePeel, tear.
    destruct (isTorn (phys s)) eqn:Ht; cbn [negb andb]; [rewrite Ht; exact IH|].
    destruct (peelConfigured (drag s)) eqn:Hc; [|rewrite Ht, Hc; exact IH].
    assert (Hnd : isDeterminingDir (drag s) = false).
    { destruct (isDeterminingDir (drag s)); [|reflexivity].
      specialize (Hdet eq_refl). congruence. }
    destruct (bananaFalling (phys s)) eqn:Hf; cbn [negb].
    + destruct (IH eq_refl) as [I1 _].
      assert (Hl : 0.3 <= lerp (currentPeelProgress (drag s)) 1.05 0.3)
        by (unfold lerp; lra).
      destruct (Rgeb _ 0.99); simpl; intros _; split; auto; intros; congruence.
    + match goal with
      | |- context [JS.geb ?a ?b] => destruct (JS.geb a b) eqn:Hg
      end; simpl; [|intros; congruence].
      intros _. split; [|auto].
      apply (geb_thresholdOk _ _ Hthr Hg).
Qed.

(** After the tear the handlers and the frame callback leave the peel
    alone. *)
Lemma torn_step s ev :
  isTorn (phys s) = true ->
  isTorn (phys (step s ev)) = true
  /\ tapeUniforms (step s ev) = tapeUniforms s
  /\ targetPeelProgress (drag (step s ev)) = targetPeelProgress (drag s)
  /\ currentPeelProgress (drag (step s ev)) = currentPeelProgress (drag s)
  /\ curPeelAxis (drag (step s ev)) = curPeelAxis (drag s)
  /\ curPeelSign (drag (step s ev)) = curPeelSign (drag s)
  /\ peelConfigured (drag (step s ev)) = peelConfigured (drag s)
  /\ rips (audio (step s ev)) = rips (audio s).
Proof.
  intros Ht. destruct ev as [e | e | | delta]; simpl.
  - unfold onDown. rewrite Ht. simpl. auto 10.
  - unfold onMove. rewrite Ht, orb_true_r. auto 10.
  - auto 10.
  - unfold animate.
    destruct (phys_flags_fallStep (Rmin delta (1 / 30)) (easePeel s)) as (_ & F2 & _).
    rewrite F2, drag_fallStep, tapeUniforms_fallStep.
    assert (E : easePeel s = s) by (unfold easePeel; rewrite Ht; reflexivity).
    rewrite E. unfold fallStep. repeat break_match; simpl; auto 10.
Qed.

(** One event on a falling body: the eased progress does not go back;
    if the tape is still not torn afterwards, a frame has closed 30% of
    the gap to [1.05] and left the progress below [0.99], and any other
    event has left the progress where it was. *)
Lemma falling_progress_step s ev :
  reachable s ->
  bananaFalling (phys s) = true ->
  currentPeelProgress (drag s) <= currentPeelProgress (drag (step s ev))
  /\ (isTorn (phys (step s ev)) = false ->
      match ev with
      | Frame _ =>
          1.05 - currentPeelProgress (drag (step s ev))
          = 0.7 * (1.05 - currentPeelProgress (drag s))
          /\ currentPeelProgress (drag (step s ev)) < 0.99
      | _ => currentPeelProgress (drag (step s ev)) = currentPeelProgress (drag s)
      end).
Proof.
  intros Hr Hf.
  destruct (isTorn (phys s)) eqn:Ht.
  - destruct (torn_step s ev Ht) as (T1 & _ & _ & T4 & _).
    rewrite T4, T1. split; [lra | discriminate].
  - destruct (reachable_falling s Hr Hf) as [Hc3 Hcd].
    destruct (Hcd Ht) as [Hc Hd].
    destruct (reachable_progress s Hr) as [[_ Hc105] _].
    destruct ev as [e | e | | delta]; simpl.
    + unfold onDown. rewrite Ht. cbn [orb].
      assert (G : Rgtb (currentPeelProgress (drag s)) 0.05 = true)
        by (apply Rgtb_true; lra).
      rewrite G. repeat break_match; simpl; split; auto; lra.
    + unfold onMove. rewrite Ht, Hd, Hc, orb_false_r. cbn [negb].
      unfold advancePeel. repeat break_match; simpl; split; auto; lra.
    + split; [lra | auto].
    + unfold animate.
      destruct (phys_flags_fallStep (Rmin delta (1 / 30)) (easePeel s)) as (_ & F2 & _).
      rewrite F2, drag_fallStep.
      unfold easePeel, tear. rewrite Ht, Hc, Hf. cbn [negb andb].
      destruct (Rgeb _ 0.99) eqn:G; simpl.
      * split; [unfold lerp; lra | discriminate].
      * apply Rgeb_false in G. split; [unfold lerp; lra|].
        intros _. split; [unfold lerp; lra | exact G].
Qed.

Lemma isTorn_step s ev :
  isTorn (phys s) = true -> isTorn (phys (step s ev)) = true.
Proof. intros H. apply (torn_step s ev H). Qed.

Lemma countFrames_snoc evs ev :
  countFrames (evs ++ [ev])
  = (countFrames evs + match ev with Frame _ => 1 | _ => 0 end)%nat.
Proof.
  unfold countFrames. rewrite filter_app, length_app. destruct ev; reflexivity.
Qed.

Lemma run_snoc s evs ev : run s (evs ++ [ev]) = step (run s evs) ev.
Proof. unfold run. rewrite fold_left_app. reflexivity. Qed.

Lemma falling_gap evs : forall s,
  reachable s ->
  bananaFalling (phys s) = true ->
  isTorn (phys (run s evs)) = false ->
  1.05 - currentPeelProgress (drag (run s evs))
  = 0.7 ^ countFrames evs * (1.05 - currentPeelProgress (drag s))
  /\ ((1 <= countFrames evs)%nat -> currentPeelProgress (drag (run s evs)) < 0.99).
Proof.
  induction evs as [|ev evs IH] using rev_ind; intros s Hr Hf Ht.
  - simpl. split; [lra | intros H; inversion H].
  - rewrite run_snoc in *. rewrite countFrames_snoc.
    assert (Ht' : isTorn (phys (run s evs)) = false).
    { destruct (isTorn (phys (run s evs))) eqn:E; [|reflexivity].
      rewrite (isTorn_step _ ev E) in Ht. discriminate. }
    destruct (IH s Hr Hf Ht') as [G1 G2].
    destruct (falling_progress_step (run s evs) ev
                (reachable_run s evs Hr) (bananaFalling_run evs s Hf)) as [_ S].
    specialize (S Ht).
    destruct ev as [e | e | | delta].
    + rewrite S, Nat.add_0_r. auto.
    + rewrite S, Nat.add_0_r. auto.
    + rewrite S, Nat.add_0_r. auto.
    + destruct S as [S1 S2]. split; [|intros _; exact S2].
      rewrite S1, G1. replace (countFrames evs + 1)%nat with (S (countFrames evs)) by lia.
      cbn [pow]. generalize (0.7 ^ countFrames evs). intros k.
      replace 0.7 with (7 / 10) by lra. field.
Qed.

Lemma pow_07_bound n : (9 <= n)%nat -> 0 <= 0.7 ^ n <= 0.7 ^ 9.
Proof.
  intros H. replace n with (9 + (n - 9))%nat by lia. generalize (n - 9)%nat.
  intros m. rewrite pow_add.
  assert (H9 : 0 <= 0.7 ^ 9) by (apply pow_le; lra).
  assert (Hm : 0 <= 0.7 ^ m <= 1).
  { induction m as [|m IHm]; cbn [pow]; [lra | nra]. }
  nra.
Qed.

(** X5.  Once the body falls, the eased progress never goes back,
    whatever events follow, and the tape is torn by the time nine frames
    have passed, however the pointer moves in between. *)
Theorem fall_leads_to_tear (s : State) (evs : list Event) :
  reachable s ->
  bananaFalling (phys s) = true ->
  currentPeelProgress (drag s) <= currentPeelProgress (drag (run s evs))
  /\ ((9 <= countFrames evs)%nat -> isTorn (phys (run s evs)) = true).
Proof.
  intros Hr Hf. split.
  - revert s Hr Hf. induction evs as [|ev evs IH]; intros s Hr Hf; simpl; [lra|].
    destruct (falling_progress_step s ev Hr Hf) as [S _].
    pose proof (IH (step s ev) (reachable_step s ev Hr) (bananaFalling_step s ev Hf)).
    lra.
  - intros H9. destruct (isTorn (phys (run s evs))) eqn:Ht; [reflexivity|].
    exfalso.
    destruct (falling_gap evs s Hr Hf Ht) as [G1 G2].
    assert (Hlt : currentPeelProgress (drag (run s evs)) < 0.99) by (apply G2; lia).
    destruct (reachable_falling s Hr Hf) as [Hc3 _].
    destruct (reachable_progress s Hr) as [[_ Hc105] _].
    destruct (pow_07_bound _ H9) as [P0 P9].
    assert (E9 : 0.7 ^ 9 <= 0.05) by (cbn [pow]; lra).
    set (k := 0.7 ^ countFrames evs) in *.
    nra.
Qed.

(** A frame of a configured tape that is neither torn nor falling. *)
Lemma frame_peeling s delta :
  isTorn (phys s) = false ->
  peelConfigured (drag s) = true ->
  bananaFalling (phys s) = false ->
  let cur := lerp (currentPeelProgress (drag s)) (targetPeelProgress (drag s)) 0.15 in
  drag (animate delta s) = set_currentPeelProgress cur (drag s)
  /\ isTorn (phys (animate delta s)) = false
  /\ bananaFallThreshold (phys (animate delta s)) = bananaFallThreshold (phys s)
  /\ bananaFalling (phys (animate delta s))
     = JS.geb (JS.Fin cur) (bananaFallThreshold (phys s)).
Proof.
  intros Ht Hc Hf. cbv zeta. unfold animate.
  destruct (phys_flags_fallStep (Rmin delta (1 / 30)) (easePeel s)) as (F1 & F2 & F3).
  rewrite F1, F2, F3, drag_fallStep.
  unfold easePeel. rewrite Ht, Hc, Hf. cbn [negb andb].
  cbn [phys with_uniforms with_drag].
  match goal with
  | |- context [JS.geb ?a ?b] => destruct (JS.geb a b)
  end; cbn [phys drag with_phys with_uniforms with_drag set_bananaFalling
             isTorn bananaFalling bananaFallThreshold];
    rewrite ?Ht, ?Hf; auto.
Qed.

Lemma quickLocked_eq :
  drag quickLocked
  = mkInteraction true true 110 100 false 100 100 (Some (mkVector3 1 1 0))
      0 0 (Some AxisX) 1%Z
  /\ phys quickLocked
     = mkPhysics false 0 2 false (JS.Fin 0.3) false false 0 (PI / 2).
Proof.
  unfold quickLocked, quickSetup, setupTapePeel, exampleBox, getSize, getCenter,
    isEmpty, classifyAxes, dims, dimAxis, byLenDesc, vzero.
  simpl. rdecide.
  unfold onDown, examplePress. simpl. rdecide.
  unfold onMove, exampleDrag. simpl.
  replace (Rltb (sqrt ((110 - 100) * (110 - 100) + (100 - 100) * (100 - 100))) 8)
    with false.
  2:{ symmetry. apply Rltb_false. apply sqrt_ge; lra. }
  unfold lockDirection, chooseAxis, chooseSign, lengthSq, dot. simpl.
  rdecide. unfold relock, fallThreshold, initialPhysics, pointBanana. simpl.
  rdecide. split; reflexivity.
Qed.

Lemma quickDragged_eq :
  drag quickDragged
  = mkInteraction true true 410 100 false 100 100 (Some (mkVector3 1 1 0))
      1.05 0 (Some AxisX) 1%Z
  /\ phys quickDragged = phys quickLocked.
Proof.
  destruct quickLocked_eq as [D P].
  unfold quickDragged.
  rewrite onMove_advances by (rewrite ?D, ?P; reflexivity).
  unfold advancePeel. rewrite D. unfold exampleDrag2.
  cbn [clientX clientY innerWidth innerHeight clientWidth dragLastX dragLastY
       targetPeelProgress currentPeelProgress isDragging peelConfigured
       isDeterminingDir dragStartX dragStartY dragStartLocalHit curPeelAxis
       curPeelSign].
  replace ((410 - 110) / 1000 * ((410 - 110) / 1000)
           + (100 - 100) / 1000 * ((100 - 100) / 1000))
    with (0.3 * 0.3 + 0 * 0) by lra.
  rewrite sqrt_sq_0 by lra.
  assert (E : Rmax 0 (Rmin 1.05 (0 + 0.3 * (if Rltb 1000 768 then 4.5 else 3.5)))
              = 1.05).
  { unfold Rltb. destruct (Rlt_dec 1000 768); [lra|].
    unfold Rmax, Rmin. destruct (Rle_dec 1.05 _); destruct (Rle_dec 0 _); lra. }
  rewrite E. destruct (peelGain (audio quickLocked)); split; reflexivity.
Qed.

(** The facts about a peeling state that the next frame needs. *)
Lemma frame_peeling_record s delta target cur :
  isTorn (phys s) = false ->
  peelConfigured (drag s) = true ->
  bananaFalling (phys s) = false ->
  bananaFallThreshold (phys s) = JS.Fin 0.3 ->
  targetPeelProgress (drag s) = target ->
  currentPeelProgress (drag s) = cur ->
  lerp cur target 0.15 < 0.3 ->
  isTorn (phys (animate delta s)) = false
  /\ peelConfigured (drag (animate delta s)) = true
  /\ bananaFalling (phys (animate delta s)) = false
  /\ bananaFallThreshold (phys (animate delta s)) = JS.Fin 0.3
  /\ targetPeelProgress (drag (animate delta s)) = target
  /\ currentPeelProgress (drag (animate delta s)) = lerp cur target 0.15.
Proof.
  intros Ht Hc Hf Hthr Htar Hcur Hlt.
  destruct (frame_peeling s delta Ht Hc Hf) as (D & T & H & F).
  rewrite D, H, F, Hthr, Htar, Hcur. unfold set_currentPeelProgress.
  cbn [peelConfigured targetPeelProgress currentPeelProgress].
  repeat split; auto.
  cbn [JS.geb]. destruct (Rle_dec 0.3 (lerp cur target 0.15)); [lra | reflexivity].
Qed.

Lemma quickFalling_falling :
  reachable quickFalling /\ bananaFalling (phys quickFalling) = true.
Proof.
  split.
  { unfold quickFalling. apply reachable_run. unfold quickSetup. apply reachable_setup. }
  destruct quickDragged_eq as [D0 P0]. destruct quickLocked_eq as [_ PL].
  rewrite PL in P0.
  destruct (frame_peeling_record quickDragged 0.01 1.05 0)
    as (T1 & C1 & F1 & H1 & G1 & U1);
    try (rewrite ?D0, ?P0; reflexivity); [unfold lerp; lra|].
  destruct (frame_peeling_record (animate 0.01 quickDragged) 0.01 1.05
              (lerp 0 1.05 0.15))
    as (T2 & C2 & F2 & H2 & G2 & U2); auto; [unfold lerp; lra|].
  destruct (frame_peeling (animate 0.01 (animate 0.01 quickDragged)) 0.01 T2 C2 F2)
    as (_ & _ & _ & F3).
  unfold quickFalling, quickEvents, run. cbn [fold_left step].
  fold quickLocked. fold quickDragged.
  rewrite F3, H2, G2, U2.
  cbn [JS.geb]. destruct (Rle_dec 0.3 _) as [|n]; [reflexivity|].
  exfalso. apply n. unfold lerp. lra.
Qed.

Lemma fall_leads_to_tear_witness :
  reachable quickFalling
  /\ bananaFalling (phys quickFalling) = true
  /\ currentPeelProgress (drag quickFalling)
     <= currentPeelProgress (drag (run quickFalling [Frame 0.01; PointerUp])).
Proof.
  destruct quickFalling_falling as [Hr Hf].
  split; [exact Hr|]. split; [exact Hf|].
  exact (proj1 (fall_leads_to_tear quickFalling [Frame 0.01; PointerUp] Hr Hf)).
Defined.

(** ** After the tear *)

(** X6.  The tear is final: whatever events follow, the tape stays
    torn, and its deformation uniforms, both progress values, the locked
    pair and the count of rip cues stay as the tear left them. *)
Theorem tear_is_final (s : State) (evs : list Event) :
  isTorn (phys s) = true ->
  isTorn (phys (run s evs)) = true
  /\ tapeUniforms (run s evs) = tapeUniforms s
  /\ targetPeelProgress (drag (run s evs)) = targetPeelProgress (drag s)
  /\ currentPeelProgress (drag (run s evs)) = currentPeelProgress (drag s)
  /\ curPeelAxis (drag (run s evs)) = curPeelAxis (drag s)
  /\ curPeelSign (drag (run s evs)) = curPeelSign (drag s)
  /\ rips (audio (run s evs)) = rips (audio s).
Proof.
  revert s. induction evs as [|ev evs IH]; intros s Ht; simpl; [auto 10|].
  destruct (torn_step s ev Ht) as (T1 & T2 & T3 & T4 & T5 & T6 & _ & T8).
  destruct (IH _ T1) as (I1 & I2 & I3 & I4 & I5 & I6 & I7).
  repeat split; congruence.
Qed.

Lemma tear_is_final_witness :
  isTorn (phys exampleFalling) = true
  /\ tapeUniforms (run exampleFalling [PointerDown examplePress; Frame 0.01])
     = tapeUniforms exampleFalling.
Proof.
  assert (Ht : isTorn (phys exampleFalling) = true) by reflexivity.
  split; [exact Ht|].
  exact (proj1 (proj2 (tear_is_final exampleFalling
                         [PointerDown examplePress; Frame 0.01] Ht))).
Defined.

(** ** The body before the fall, and the floor *)

Lemma frame_without_fall s delta :
  bananaFalling (phys (animate delta s)) = false ->
  phys (animate delta s) = phys s /\ audio (animate delta s) = audio s.
Proof.
  unfold animate.
  destruct (phys_flags_fallStep (Rmin delta (1 / 30)) (easePeel s)) as (F1 & _ & _).
  rewrite F1. intros Hf.
  assert (E : fallStep (Rmin delta (1 / 30)) (easePeel s) = easePeel s).
  { unfold fallStep. rewrite Hf. reflexivity. }
  rewrite E. revert Hf. unfold easePeel, tear.
  repeat break_match; simpl; intros; try discriminate; auto.
  all: split; auto; destruct (phys s); simpl in *; congruence.
Qed.

Lemma pointer_rips s ev :
  (forall delta, ev <> Frame delta) -> rips (audio (step s ev)) = rips (audio s).
Proof.
  intros Hev. destruct ev; simpl.
  - unfold onDown, startPeelSound. repeat break_match; simpl; auto.
  - unfold onMove, lockDirection, relock, advancePeel, startPeelSound.
    repeat break_match; simpl; auto.
  - auto.
  - exfalso. apply (Hev delta). reflexivity.
Qed.

Lemma reachable_at_rest s :
  reachable s ->
  bananaFalling (phys s) = false ->
  positionY (phys s) = 0 /\ fallVel (phys s) = 0 /\ bananaRotVelX (phys s) = 2
  /\ rotationX (phys s) = PI / 2 /\ settled (phys s) = false
  /\ isTorn (phys s) = false
  /\ thuds (audio s) = 0%nat /\ transitions (audio s) = 0%nat
  /\ rips (audio s) = 0%nat.
Proof.
  induction 1 as [bb n w b | s ev Hr IH].
  - intros _. simpl. repeat split; reflexivity.
  - intros Hf.
    assert (Hf0 : bananaFalling (phys s) = false).
    { destruct (bananaFalling (phys s)) eqn:E; [|reflexivity].
      rewrite (bananaFalling_step s ev E) in Hf. discriminate. }
    specialize (IH Hf0). destruct IH as (I1 & I2 & I3 & I4 & I5 & I6 & I7 & I8 & I9).
    destruct ev as [e | e | | delta].
    1-3: match goal with
         | |- context [step ?st ?ev] =>
             assert (Hev : forall delta, ev <> Frame delta) by discriminate;
             destruct (pointer_counts st ev Hev) as [Hc1 Hc2];
             pose proof (pointer_rips st ev Hev) as Hc3;
             destruct (pointer_keeps st ev Hev) as [Hp | [t Hp]]
         end; rewrite Hc1, Hc2, Hc3, Hp; simpl; auto 10.
    simpl in *. destruct (frame_without_fall s delta Hf) as [P A].
    rewrite P, A. auto 10.
Qed.

(** X7.  Until the body starts to fall nothing has happened to it: in
    every reachable state that is not falling, it is at height [0] with
    its initial velocities and rotation, it is not settled, the tape is
    not torn, and no thud, rip or transition call has been made. *)
Theorem rest_before_fall (s : State) :
  reachable s ->
  bananaFalling (phys s) = false ->
  positionY (phys s) = 0 /\ fallVel (phys s) = 0 /\ bananaRotVelX (phys s) = 2
  /\ rotationX (phys s) = PI / 2 /\ settled (phys s) = false
  /\ isTorn (phys s) = false
  /\ thuds (audio s) = 0%nat /\ transitions (audio s) = 0%nat
  /\ rips (audio s) = 0%nat.
Proof. exact (reachable_at_rest s). Qed.

Lemma rest_before_fall_witness :
  reachable exampleLocked /\ bananaFalling (phys exampleLocked) = false
  /\ positionY (phys exampleLocked) = 0.
Proof.
  split; [exact exampleLocked_reachable|]. split; [exact (proj2 exampleLocked_phys)|].
  exact (proj1 (rest_before_fall exampleLocked exampleLocked_reachable
                  (proj2 exampleLocked_phys))).
Defined.

(** ** The example run, frame by frame *)

Lemma scene_run evs : forall s, scene (run s evs) = scene s.
Proof.
  induction evs as [|ev evs IH]; intros s; [reflexivity|].
  cbn [run fold_left]. fold (run (step s ev) evs). rewrite IH. apply scene_step.
Qed.

(** The frame that starts the fall leaves the body moving down from its
    initial height, the callback not yet called. *)
Lemma fall_starts_from_rest s delta :
  reachable s ->
  bananaFalling (phys s) = false ->
  0 <= delta ->
  transitionFired (phys (animate delta s)) = false
  /\ fallVel (phys (animate delta s)) <= 0
  /\ positionY (phys (animate delta s)) <= 0.
Proof.
  intros Hr Hf Hd.
  destruct (reachable_at_rest s Hr Hf) as (Y & V & _ & _ & S & _ & _ & T & _).
  destruct (reachable_transition s Hr) as (K & _ & _).
  assert (Hfired : transitionFired (phys s) = false).
  { destruct (transitionFired (phys s)); [rewrite T in K; discriminate | reflexivity]. }
  unfold animate.
  assert (Hdt : 0 <= Rmin delta (1 / 30) <= 1 / 30).
  { split; [apply Rmin_glb; lra | apply Rmin_r]. }
  revert Hdt. generalize (Rmin delta (1 / 30)). intros dt Hdt.
  destruct (easePeel_keeps s) as (E1 & E2 & E3 & E4 & E5 & _).
  unfold fallStep. cbv zeta. rewrite E1, E3, E4, E5, Y, V, S, Hfired.
  destruct (bananaFalling (phys (easePeel s))); cbn [negb andb].
  - assert (H2 : Rltb (0 + (0 - 9.8 * dt) * dt) (-2) = false)
      by (apply Rltb_false; nra).
    assert (H3 : Rltb (0 + (0 - 9.8 * dt) * dt) (-3) = false)
      by (apply Rltb_false; nra).
    rewrite H2, H3. cbn. repeat split; try reflexivity; nra.
  - rewrite E1, E4, E5, Y, V, Hfired. repeat split; try reflexivity; lra.
Qed.

Lemma reachable_onDown e s : reachable s -> reachable (onDown e s).
Proof. intros H. exact (reachable_step s (PointerDown e) H). Qed.

Lemma reachable_onMove e s : reachable s -> reachable (onMove e s).
Proof. intros H. exact (reachable_step s (PointerMove e) H). Qed.

Lemma reachable_animate delta s : reachable s -> reachable (animate delta s).
Proof. intros H. exact (reachable_step s (Frame delta) H). Qed.

Lemma scene_onDown e s : scene (onDown e s) = scene s.
Proof. exact (scene_step s (PointerDown e)). Qed.

Lemma scene_onMove e s : scene (onMove e s) = scene s.
Proof. exact (scene_step s (PointerMove e)). Qed.

Lemma scene_animate delta s : scene (animate delta s) = scene s.
Proof. exact (scene_step s (Frame delta)). Qed.

Lemma set_currentPeelProgress_fields v d :
  currentPeelProgress (set_currentPeelProgress v d) = v
  /\ curPeelAxis (set_currentPeelProgress v d) = curPeelAxis d
  /\ curPeelSign (set_currentPeelProgress v d) = curPeelSign d.
Proof. repeat split; reflexivity. Qed.

(** The example run after the long drag: the target is at its cap, the
    eased progress still at [0], and the next frame does not start the
    fall. *)
Lemma quickDragged_state :
  reachable quickDragged
  /\ isTorn (phys quickDragged) = false
  /\ tapeMesh (scene quickDragged) = true
  /\ peelConfigured (drag quickDragged) = true
  /\ targetPeelProgress (drag quickDragged) = 1.05
  /\ currentPeelProgress (drag quickDragged) = 0
  /\ bananaFalling (phys (animate 0.01 quickDragged)) = false.
Proof.
  destruct quickDragged_eq as [D0 P0]. destruct quickLocked_eq as [_ PL].
  rewrite PL in P0.
  assert (Hr : reachable quickDragged).
  { unfold quickDragged, quickLocked, quickSetup.
    apply reachable_onMove, reachable_onMove, reachable_onDown, reachable_setup. }
  assert (Hsc : tapeMesh (scene quickDragged) = true).
  { unfold quickDragged, quickLocked, quickSetup.
    rewrite !scene_onMove, scene_onDown. reflexivity. }
  destruct (frame_peeling_record quickDragged 0.01 1.05 0)
    as (T1 & C1 & F1 & H1 & G1 & U1);
    try (rewrite ?D0, ?P0; reflexivity); [unfold lerp; lra|].
  split; [exact Hr|]. rewrite D0, P0. repeat split; auto.
Qed.

(** Two frames later the tape is still peeling. *)
Lemma quickPeeling_state :
  reachable quickPeeling
  /\ isTorn (phys quickPeeling) = false
  /\ tapeMesh (scene quickPeeling) = true
  /\ peelConfigured (drag quickPeeling) = true
  /\ bananaFalling (phys quickPeeling) = false
  /\ currentPeelProgress (drag quickPeeling) = lerp (lerp 0 1.05 0.15) 1.05 0.15
  /\ targetPeelProgress (drag quickPeeling) = 1.05
  /\ bananaFallThreshold (phys quickPeeling) = JS.Fin 0.3
  /\ curPeelAxis (drag quickPeeling) = Some AxisX
  /\ curPeelSign (drag quickPeeling) = 1%Z.
Proof.
  destruct quickDragged_state as (Hr & _ & Hsc & _).
  destruct quickDragged_eq as [D0 P0]. destruct quickLocked_eq as [_ PL].
  rewrite PL in P0.
  destruct (frame_peeling_record quickDragged 0.01 1.05 0)
    as (T1 & C1 & F1 & H1 & G1 & U1);
    try (rewrite ?D0, ?P0; reflexivity); [unfold lerp; lra|].
  destruct (frame_peeling_record (animate 0.01 quickDragged) 0.01 1.05
              (lerp 0 1.05 0.15))
    as (T2 & C2 & F2 & H2 & G2 & U2); auto; [unfold lerp; lra|].
  destruct (frame_peeling (animate 0.01 quickDragged) 0.01 T1 C1 F1) as (D2 & _).
  destruct (frame_peeling quickDragged 0.01) as (D1 & _);
    try (rewrite ?D0, ?P0; reflexivity).
  unfold quickPeeling.
  split; [apply reachable_animate, reachable_animate; exact Hr|].
  split; [exact T2|].
  split; [rewrite !scene_animate; exact Hsc|].
  split; [exact C2|]. split; [exact F2|]. split; [exact U2|].
  split; [exact G2|]. split; [exact H2|].
  rewrite D2, D1, D0. split; reflexivity.
Qed.

(** The body has just started to fall: the third frame takes the
    eased progress past the threshold. *)
Lemma quickFallen_state :
  reachable quickFallen
  /\ bananaFalling (phys quickFallen) = true
  /\ isTorn (phys quickFallen) = false
  /\ tapeMesh (scene quickFallen) = true
  /\ currentPeelProgress (drag quickFallen)
     = lerp (lerp (lerp 0 1.05 0.15) 1.05 0.15) 1.05 0.15
  /\ curPeelAxis (drag quickFallen) = Some AxisX
  /\ curPeelSign (drag quickFallen) = 1%Z
  /\ transitionFired (phys quickFallen) = false
  /\ fallVel (phys quickFallen) <= 0
  /\ positionY (phys quickFallen) <= 0.
Proof.
  destruct quickPeeling_state
    as (Hr & Ht & Hsc & Hc & Hnf & Hcur & Htar & Hthr & Ha & Hsg).
  destruct (frame_peeling quickPeeling 0.01 Ht Hc Hnf) as (D3 & T3 & _ & F3).
  destruct (fall_starts_from_rest quickPeeling 0.01 Hr Hnf) as (S1 & S2 & S3); [lra|].
  assert (Hgeb : JS.geb
                   (JS.Fin (lerp (currentPeelProgress (drag quickPeeling))
                              (targetPeelProgress (drag quickPeeling)) 0.15))
                   (bananaFallThreshold (phys quickPeeling)) = true).
  { rewrite Hthr, Hcur, Htar. unfold JS.geb.
    destruct (Rle_dec 0.3 _) as [|n]; [reflexivity|].
    exfalso. apply n. unfold lerp. lra. }
  unfold quickFallen.
  split; [apply reachable_animate; exact Hr|].
  split; [rewrite F3; exact Hgeb|].
  split; [exact T3|]. split; [rewrite scene_animate; exact Hsc|].
  rewrite D3.
  destruct (set_currentPeelProgress_fields
              (lerp (currentPeelProgress (drag quickPeeling))
                 (targetPeelProgress (drag quickPeeling)) 0.15)
              (drag quickPeeling)) as (A1 & A2 & A3).
  rewrite A1, A2, A3, Hcur, Htar. repeat split; assumption.
Qed.

Lemma countFrames_repeat delta n : countFrames (repeat (Frame delta) n) = n.
Proof.
  induction n as [|n IH]; [reflexivity|].
  cbn [repeat]. rewrite countFrames_cons, IH. reflexivity.
Qed.

Lemma transition_fires_once_witness :
  bananaFalling (phys quickFallen) = true
  /\ transitions (audio quickFallen) = 0%nat
  /\ transitions (audio (run quickFallen (repeat (Frame (1 / 30)) 19))) = 1%nat.
Proof.
  destruct quickFallen_state as (Hr & Hf & _ & _ & _ & _ & _ & Hfired & Hv & Hy).
  split; [exact Hf|]. split.
  - destruct (reachable_transition _ Hr) as (K & _). rewrite K, Hfired. reflexivity.
  - apply (proj2 (proj2 (proj2 (proj2 (proj2 (proj2 (proj2
             (transition_fires_once quickFallen (Frame (1 / 30))
                (repeat (Frame (1 / 30)) 19) (1 / 30) Hr)))))))); auto; try lra.
    + apply Forall_forall. intros ev Hin. apply repeat_spec in Hin. subst ev.
      intros delta E. injection E as <-. lra.
    + rewrite countFrames_repeat.
      replace (INR 19) with 19 by (simpl; lra). lra.
Defined.

Lemma press_resumes_or_determines_witness :
  (currentPeelProgress (drag quickFallen) > 0.05
   /\ curPeelAxis (drag quickFallen) = Some AxisX
   /\ isDeterminingDir (drag (onDown examplePress quickFallen)) = false
   /\ peelConfigured (drag (onDown examplePress quickFallen)) = true
   /\ curPeelAxis (drag (onDown examplePress quickFallen)) = Some AxisX
   /\ currentPeelProgress (drag (onDown examplePress quickFallen))
      = currentPeelProgress (drag quickFallen))
  /\ (targetPeelProgress (drag quickDragged) = 1.05
      /\ isDeterminingDir (drag (onDown examplePress quickDragged)) = true
      /\ exists e2,
           (curPeelAxis (drag (onMove e2 (onDown examplePress quickDragged))),
            curPeelSign (drag (onMove e2 (onDown examplePress quickDragged))))
           <> (curPeelAxis (drag quickDragged), curPeelSign (drag quickDragged))
           /\ targetPeelProgress (drag (onMove e2 (onDown examplePress quickDragged))) = 0).
Proof.
  destruct quickFallen_state as (Hr & _ & Ht & Hm & Hc & Ha & _).
  destruct quickDragged_state as (Hr' & Ht' & Hm' & _ & Htar & Hcur & _).
  assert (Hp : currentPeelProgress (drag quickFallen) > 0.05)
    by (rewrite Hc; unfold lerp; lra).
  assert (Hp' : currentPeelProgress (drag quickDragged) <= 0.05)
    by (rewrite Hcur; lra).
  split.
  - destruct (press_resumes_or_determines quickFallen examplePress (mkVector3 1 1 0)
                Hr Ht Hm eq_refl) as (_ & Hres & _).
    destruct (Hres Hp) as (R1 & R2 & R3 & _ & _ & R6 & _).
    rewrite R3, Ha. repeat split; auto.
  - destruct (press_resumes_or_determines quickDragged examplePress (mkVector3 1 1 0)
                Hr' Ht' Hm' eq_refl) as (_ & _ & Hdet).
    destruct (Hdet Hp') as (R1 & _ & _ & _ & _ & e2 & R6 & _ & R8 & _).
    split; [exact Htar|]. split; [exact R1|].
    exists e2. split; [exact R6 | exact R8].
Defined.

Lemma easing_closes_gap_witness :
  targetPeelProgress (drag quickDragged) = 1.05
  /\ currentPeelProgress (drag quickDragged) = 0
  /\ targetPeelProgress (drag quickDragged)
     - currentPeelProgress (drag (run quickDragged (map Frame [0.01])))
     = 0.85 ^ 1 * (targetPeelProgress (drag quickDragged)
                   - currentPeelProgress (drag quickDragged)).
Proof.
  destruct quickDragged_state as (_ & Ht & _ & Hc & Htar & Hcur & Hf).
  split; [exact Htar|]. split; [exact Hcur|].
  exact (proj1 (proj2 (easing_closes_gap quickDragged [0.01] Ht Hc Hf))).
Defined.

Lemma floor_step s ev :
  (-3 <= positionY (phys s)
   /\ (settled (phys s) = true ->
       positionY (phys s) = -3 /\ fallVel (phys s) = 0 /\ bananaRotVelX (phys s) = 0
       /\ bananaFalling (phys s) = true /\ (1 <= thuds (audio s))%nat)) ->
  -3 <= positionY (phys (step s ev))
  /\ (settled (phys (step s ev)) = true ->
      positionY (phys (step s ev)) = -3 /\ fallVel (phys (step s ev)) = 0
      /\ bananaRotVelX (phys (step s ev)) = 0
      /\ bananaFalling (phys (step s ev)) = true
      /\ (1 <= thuds (audio (step s ev)))%nat).
Proof.
  intros [I1 I2]. destruct ev as [e | e | | delta].
  1-3: match goal with
       | |- context [step ?st ?ev] =>
           assert (Hev : forall delta, ev <> Frame delta) by discriminate;
           destruct (pointer_counts st ev Hev) as [Hc1 _];
           destruct (pointer_keeps st ev Hev) as [Hp | [t Hp]]
       end; rewrite Hc1, Hp; simpl; auto.
  simpl. unfold animate.
  destruct (easePeel_keeps s) as (E1 & E2 & E3 & _ & E5 & _ & E7 & _).
  unfold fallStep. cbv zeta. rewrite E1, E2, E3, E5.
  destruct (bananaFalling (phys (easePeel s))) eqn:Hf; cbn [andb].
  2:{ rewrite ?E3, ?E5, ?E1, ?E2, ?E7. split; [exact I1|]. intros Hs.
      destruct (I2 Hs) as (A & B & C & D & E).
      pose proof (easePeel_falling s D). congruence. }
  destruct (settled (phys s)) eqn:Hs; cbn [negb].
  - rewrite ?E3, ?E5, ?E1, ?E2, ?E7, ?Hf, ?Hs.
    destruct (I2 eq_refl) as (A & B & C & D & E). auto 10.
  - repeat break_match; simpl; rprops; split; try lra;
      intros; try discriminate; try congruence; repeat split; auto; lia.
Qed.

Lemma reachable_floor s :
  reachable s ->
  -3 <= positionY (phys s)
  /\ (settled (phys s) = true ->
      positionY (phys s) = -3 /\ fallVel (phys s) = 0 /\ bananaRotVelX (phys s) = 0
      /\ bananaFalling (phys s) = true /\ (1 <= thuds (audio s))%nat).
Proof.
  induction 1 as [bb n w b | s ev _ IH].
  - simpl. split; [lra | discriminate].
  - apply floor_step. exact IH.
Qed.

(** X8.  The body never goes below the floor [-3], whatever the frame
    times; and a settled body lies on the floor with both velocities
    [0], after a fall and at least one thud. *)
Theorem floor_holds (s : State) (evs : list Event) :
  reachable s ->
  -3 <= positionY (phys (run s evs))
  /\ (settled (phys (run s evs)) = true ->
      positionY (phys (run s evs)) = -3 /\ fallVel (phys (run s evs)) = 0
      /\ bananaRotVelX (phys (run s evs)) = 0
      /\ bananaFalling (phys (run s evs)) = true
      /\ (1 <= thuds (audio (run s evs)))%nat).
Proof.
  intros Hr. apply reachable_floor. apply reachable_run. exact Hr.
Qed.

Lemma floor_holds_witness :
  reachable quickFalling
  /\ -3 <= positionY (phys (run quickFalling [Frame 5; Frame 5; Frame 5])).
Proof.
  split; [exact (proj1 quickFalling_falling)|].
  exact (proj1 (floor_holds quickFalling [Frame 5; Frame 5; Frame 5]
                  (proj1 quickFalling_falling))).
Defined.

(** ** Sound *)

Ltac step_cases :=
  unfold onDown, onMove, lockDirection, relock, advancePeel, onUp, animate,
    fallStep, easePeel, tear, startPeelSound, stopPeelSound, playRipSound,
    playThudSound, callOnTransition;
  repeat break_match; simpl in *.

Ltac bools :=
  repeat match goal with
    | H : _ || _ = false |- _ => apply orb_false_iff in H; destruct H
    | H : _ && _ = true |- _ => apply andb_true_iff in H; destruct H
    | H : negb _ = false |- _ => apply negb_false_iff in H
    | H : negb _ = true |- _ => apply negb_true_iff in H
    end.

Lemma gain_bounds dist : 0 <= dist -> 0.04 <= Rmin (0.04 + dist * 8) 0.2 <= 0.2.
Proof.
  intros H. unfold Rmin. destruct (Rle_dec (0.04 + dist * 8) 0.2); lra.
Qed.

Lemma torn_not_dragging_step s ev :
  (isTorn (phys s) = true -> isDragging (drag s) = false) ->
  isTorn (phys (step s ev)) = true -> isDragging (drag (step s ev)) = false.
Proof.
  intros I. destruct ev as [e | e | | delta]; simpl; step_cases;
    intros; bools; try congruence; auto.
Qed.

Lemma peelNode_step s ev :
  (peelNode (audio s) = true ->
   isDragging (drag s) = true /\ isTorn (phys s) = false) ->
  peelNode (audio (step s ev)) = true ->
  isDragging (drag (step s ev)) = true /\ isTorn (phys (step s ev)) = false.
Proof.
  intros I. destruct ev as [e | e | | delta]; simpl; step_cases;
    intros; try discriminate; auto; bools;
    try (split; congruence);
    try (destruct I; [assumption|]; split; congruence).
Qed.

Lemma peelGain_step s ev :
  ((peelNode (audio s) = false <-> peelGain (audio s) = None)
   /\ forall g, peelGain (audio s) = Some g -> 0.04 <= g <= 0.2) ->
  (peelNode (audio (step s ev)) = false <-> peelGain (audio (step s ev)) = None)
  /\ forall g, peelGain (audio (step s ev)) = Some g -> 0.04 <= g <= 0.2.
Proof.
  intros [I1 I2]. destruct ev as [e | e | | delta]; simpl; step_cases;
    try (split; [exact I1 | exact I2]);
    try (split; [tauto | intros; discriminate]);
    try (split; [split; intros; congruence | intros g Hg; inversion Hg; subst; lra]);
    try (split; [split; intros; congruence
                |intros g Hg; inversion Hg; subst; apply gain_bounds; apply sqrt_pos]).
  all: split; [split; intros H; try discriminate|].
  all: try (destruct I1 as [I1a I1b]; rewrite I1a in *; auto; discriminate).
  all: try (intros g Hg; inversion Hg; subst; apply gain_bounds; apply sqrt_pos).
  all: try solve [intuition (try congruence; eauto)].
Qed.

Lemma rips_step s ev :
  rips (audio s) = (if isTorn (phys s) then 1 else 0)%nat ->
  rips (audio (step s ev)) = (if isTorn (phys (step s ev)) then 1 else 0)%nat.
Proof.
  intros I. destruct ev as [e | e | | delta]; simpl; step_cases;
    bools; try congruence; auto.
  all: repeat match goal with
         | H : isTorn _ = _ |- _ => rewrite H in I; clear H
         end; try exact I; try (f_equal; exact I); try lia.
Qed.

Lemma reachable_audio s :
  reachable s ->
  (peelNode (audio s) = true ->
   isDragging (drag s) = true /\ isTorn (phys s) = false)
  /\ (isTorn (phys s) = true -> isDragging (drag s) = false)
  /\ ((peelNode (audio s) = false <-> peelGain (audio s) = None)
      /\ forall g, peelGain (audio s) = Some g -> 0.04 <= g <= 0.2)
  /\ rips (audio s) = (if isTorn (phys s) then 1 else 0)%nat.
Proof.
  induction 1 as [bb n w b | s ev _ (I1 & I2 & I3 & I4)].
  - simpl. repeat split; intros; try discriminate; auto.
  - split; [apply peelNode_step; exact I1|].
    split; [apply torn_not_dragging_step; exact I2|].
    split; [apply peelGain_step; exact I3 | apply rips_step; exact I4].
Qed.

(** X9.  The peel loop sounds only while the pointer is down on a tape
    that is not torn: in every reachable state a running loop means a
    drag in progress and no tear, its gain is between 0.04 and 0.2, and
    releasing the pointer stops it; after the tear no drag is in
    progress. *)
Theorem peel_sound_only_while_dragging (s : State) :
  reachable s ->
  (peelNode (audio s) = true ->
   isDragging (drag s) = true /\ isTorn (phys s) = false)
  /\ (peelNode (audio s) = false <-> peelGain (audio s) = None)
  /\ (forall g, peelGain (audio s) = Some g -> 0.04 <= g <= 0.2)
  /\ peelNode (audio (onUp s)) = false
  /\ (isTorn (phys s) = true ->
      isDragging (drag s) = false /\ peelNode (audio s) = false).
Proof.
  intros Hr. destruct (reachable_audio s Hr) as (I1 & I2 & [I3 I3'] & _).
  split; [exact I1|]. split; [exact I3|]. split; [exact I3'|].
  split; [reflexivity|].
  intros Ht. split; [auto|].
  destruct (peelNode (audio s)) eqn:E; [|reflexivity].
  destruct (I1 eq_refl). congruence.
Qed.

Lemma peel_sound_only_while_dragging_witness :
  reachable exampleLocked /\ peelNode (audio (onUp exampleLocked)) = false.
Proof.
  split; [exact exampleLocked_reachable|].
  exact (proj1 (proj2 (proj2 (proj2
           (peel_sound_only_while_dragging exampleLocked exampleLocked_reachable))))).
Defined.

(** X10.  The rip cue is played exactly once, by the tear: in every
    reachable state it has been played once if the tape is torn and not
    at all otherwise, and a torn tape means a falling body. *)
Theorem rip_exactly_at_tear (s : State) :
  reachable s ->
  rips (audio s) = (if isTorn (phys s) then 1 else 0)%nat
  /\ (isTorn (phys s) = true -> bananaFalling (phys s) = true).
Proof.
  intros Hr. destruct (reachable_audio s Hr) as (_ & _ & _ & I4).
  split; [exact I4|].
  intros Ht. destruct (bananaFalling (phys s)) eqn:E; [reflexivity|].
  destruct (reachable_at_rest s Hr E) as (_ & _ & _ & _ & _ & T & _). congruence.
Qed.

Lemma rip_exactly_at_tear_witness :
  reachable exampleLocked /\ rips (audio exampleLocked) = 0%nat.
Proof.
  split; [exact exampleLocked_reachable|].
  pose proof (proj1 (rip_exactly_at_tear exampleLocked exampleLocked_reachable)) as H.
  rewrite (proj1 exampleLocked_phys) in H. exact H.
Defined.

(** ** The locked direction and the frame of the shader *)

Lemma reachable_flat s :
  reachable s ->
  lengthAxis (axes (scene s)) <> flatAxis (axes (scene s))
  /\ widthAxis (axes (scene s)) <> flatAxis (axes (scene s)).
Proof.
  induction 1 as [bb n w b | s ev _ IH].
  - simpl. apply classifyAxes_distinct.
  - rewrite scene_step. exact IH.
Qed.

Lemma chooseSign_unit bb start a :
  chooseSign bb start a = 1%Z \/ chooseSign bb start a = (-1)%Z.
Proof. unfold chooseSign. destruct (Rltb _ _); auto. Qed.

Lemma lockOk_relock chosenAxis sign s :
  lockOk s ->
  (chosenAxis = lengthAxis (axes (scene s)) \/ chosenAxis = widthAxis (axes (scene s))) ->
  (sign = 1%Z \/ sign = (-1)%Z) ->
  lockOk (relock chosenAxis sign s).
Proof.
  intros (L1 & L2 & _) Ha Hs. unfold lockOk, relock, uniformsLocked. simpl.
  split; [exact L1|]. split; [exact L2|].
  split; [exact Ha|]. split; [exact Hs|].
  unfold originEdge, spanAlong. repeat split; reflexivity.
Qed.

Lemma lockOk_step s ev : lockOk s -> lockOk (step s ev).
Proof.
  intros L. destruct ev as [e | e | | delta]; simpl.
  - unfold onDown. repeat break_match; simpl; auto.
  - unfold onMove.
    repeat break_match; try exact L.
    unfold lockDirection.
      set (ax := chooseAxis _ _ _ _). set (sg := chooseSign _ _ _).
      assert (L' : lockOk (if negb (sameAxis ax (curPeelAxis (drag s))
                                    && (sg =? curPeelSign (drag s))%Z)
                           then relock ax sg s else s)).
      { destruct (negb (sameAxis ax (curPeelAxis (drag s))
                        && (sg =? curPeelSign (drag s))%Z)); [|exact L].
        apply lockOk_relock; [exact L | apply chooseAxis_long | apply chooseSign_unit]. }
      revert L'. generalize (if negb (sameAxis ax (curPeelAxis (drag s))
                                      && (sg =? curPeelSign (drag s))%Z)
                             then relock ax sg s else s).
      intros s1 L1. exact L1.
  - exact L.
  - unfold animate, fallStep, easePeel, tear. repeat break_match; exact L.
Qed.

Lemma reachable_lockOk s : reachable s -> lockOk s.
Proof.
  induction 1 as [bb n w b | s ev _ IH].
  - unfold lockOk. simpl. split; [reflexivity|]. split; [|reflexivity].
    destruct (Rgeb w 0); auto.
  - apply lockOk_step. exact IH.
Qed.

Lemma dot_setAxis p a k : dot p (setAxis vzero a k) = k * getAxis p a.
Proof. destruct p as [x y z], a; unfold dot; simpl; ring. Qed.

Lemma dot_setAxis_setAxis a b x y :
  a <> b -> dot (setAxis vzero a x) (setAxis vzero b y) = 0.
Proof. intros H. destruct a, b; try congruence; unfold dot; simpl; ring. Qed.

Lemma lengthSq_setAxis a k : lengthSq (setAxis vzero a k) = k * k.
Proof. destruct a; unfold lengthSq, dot; simpl; ring. Qed.

(** X11.  Once a direction is locked, in every reachable state: the
    locked axis is the length or the width axis, never the flat axis;
    the sign is [1] or [-1]; the peel normal handed to the shader is the
    signed unit vector of the locked axis, the flat direction a unit
    vector of the flat axis, and the two are orthogonal; the peel edge
    and the maximal distance are the origin edge and the span of the
    tape box along the locked axis; the curl radius is [0.12]. *)
Theorem locked_frame (s : State) (a : Axis) :
  reachable s ->
  curPeelAxis (drag s) = Some a ->
  let u := tapeUniforms s in
  (a = lengthAxis (axes (scene s)) \/ a = widthAxis (axes (scene s)))
  /\ a <> flatAxis (axes (scene s))
  /\ (curPeelSign (drag s) = 1%Z \/ curPeelSign (drag s) = (-1)%Z)
  /\ uPeelNormal u = setAxis vzero a (IZR (curPeelSign (drag s)))
  /\ lengthSq (uPeelNormal u) = 1
  /\ lengthSq (uFlatDir u) = 1
  /\ dot (uPeelNormal u) (uFlatDir u) = 0
  /\ uPeelEdge u
     = originEdge (tapeBB (scene s)) a (curPeelSign (drag s)) * IZR (curPeelSign (drag s))
  /\ uMaxDist u = spanAlong (tapeBB (scene s)) a
  /\ uCurlR u = 0.12.
Proof.
  intros Hr Ha u. subst u.
  destruct (reachable_lockOk s Hr) as (L1 & L2 & L3). rewrite Ha in L3.
  destruct L3 as (La & Ls & Ln & Le & Lm).
  destruct (reachable_flat s Hr) as [F1 F2].
  assert (Hne : a <> flatAxis (axes (scene s))) by (destruct La; congruence).
  split; [exact La|]. split; [exact Hne|]. split; [exact Ls|]. split; [exact Ln|].
  split.
  { rewrite Ln, lengthSq_setAxis. destruct Ls as [-> | ->]; simpl; ring. }
  split.
  { destruct L2 as [-> | ->]; rewrite lengthSq_setAxis; ring. }
  split.
  { rewrite Ln. destruct L2 as [-> | ->]; apply dot_setAxis_setAxis; exact Hne. }
  auto.
Qed.

Lemma exampleLocked_scene :
  scene exampleLocked
  = mkScene true (mkAxes AxisX AxisY AxisZ) exampleBox (Some exampleBanana).
Proof.
  unfold exampleLocked, examplePressed.
  change (onMove exampleDrag (onDown examplePress exampleSetup))
    with (step (step exampleSetup (PointerDown examplePress)) (PointerMove exampleDrag)).
  rewrite !scene_step, exampleSetup_eq. reflexivity.
Qed.

Lemma locked_frame_witness :
  reachable exampleLocked
  /\ curPeelAxis (drag exampleLocked) = Some AxisX
  /\ AxisX <> flatAxis (axes (scene exampleLocked)).
Proof.
  assert (Ha : curPeelAxis (drag exampleLocked) = Some AxisX)
    by (rewrite exampleLocked_drag; reflexivity).
  split; [exact exampleLocked_reachable|]. split; [exact Ha|].
  exact (proj1 (proj2 (locked_frame exampleLocked AxisX exampleLocked_reachable Ha))).
Defined.

(** X12.  In a reachable state with a locked direction, for a vertex
    between the two edges of the tape box along the locked axis, the
    peel distance the shader computes is [uPeel] times the span minus
    the distance of the vertex from the origin edge, and that distance
    is between [0] and the span.  So no vertex is ever rolled further
    than the span, and while [uPeel] is [0] the shader leaves every
    vertex of the tape, and its normal, as they are. *)
Theorem peel_covers_tape (s : State) (a : Axis) (p n : Vector3 R) :
  reachable s ->
  curPeelAxis (drag s) = Some a ->
  betweenEdges (tapeBB (scene s)) a p ->
  let u := tapeUniforms s in
  let bb := tapeBB (scene s) in
  let sign := curPeelSign (drag s) in
  peelDistance u p = uPeel u * spanAlong bb a - fromOrigin bb a sign p
  /\ 0 <= fromOrigin bb a sign p <= spanAlong bb a
  /\ peelDistance u p <= spanAlong bb a
  /\ (uPeel u = 0 -> beginVertex u p = p /\ beginNormalVertex u p n = n).
Proof.
  intros Hr Ha [Hlo Hhi] u bb sign. subst u bb sign.
  destruct (reachable_lockOk s Hr) as (_ & _ & L3). rewrite Ha in L3.
  destruct L3 as (_ & Ls & Ln & Le & Lm).
  destruct (reachable_progress s Hr) as [_ [Hu0 Hu1]].
  assert (Hd : peelDistance (tapeUniforms s) p
               = uPeel (tapeUniforms s) * spanAlong (tapeBB (scene s)) a
                 - fromOrigin (tapeBB (scene s)) a (curPeelSign (drag s)) p).
  { unfold peelDistance, fromOrigin. rewrite Ln, Le, Lm, dot_setAxis. ring. }
  assert (Hf : 0 <= fromOrigin (tapeBB (scene s)) a (curPeelSign (drag s)) p
               <= spanAlong (tapeBB (scene s)) a).
  { unfold fromOrigin, originEdge, spanAlong.
    destruct Ls as [-> | ->]; simpl; lra. }
  assert (Hspan : 0 <= spanAlong (tapeBB (scene s)) a) by lra.
  split; [exact Hd|]. split; [exact Hf|]. split; [rewrite Hd; nra|].
  intros H0.
  assert (Hle : peelDistance (tapeUniforms s) p <= 0) by (rewrite Hd, H0; lra).
  pose proof (curled_false (uMaxDist (tapeUniforms s)) _ (or_introl Hle)) as Hc.
  unfold curled in Hc. unfold beginVertex, beginNormalVertex. rewrite Hc.
  split; reflexivity.
Qed.

Lemma peel_covers_tape_witness :
  reachable exampleLocked
  /\ curPeelAxis (drag exampleLocked) = Some AxisX
  /\ betweenEdges (tapeBB (scene exampleLocked)) AxisX (mkVector3 1 0 0)
  /\ peelDistance (tapeUniforms exampleLocked) (mkVector3 1 0 0)
     <= spanAlong (tapeBB (scene exampleLocked)) AxisX.
Proof.
  assert (Ha : curPeelAxis (drag exampleLocked) = Some AxisX)
    by (rewrite exampleLocked_drag; reflexivity).
  assert (Hb : betweenEdges (tapeBB (scene exampleLocked)) AxisX (mkVector3 1 0 0)).
  { rewrite exampleLocked_scene. unfold betweenEdges. simpl. lra. }
  split; [exact exampleLocked_reachable|]. split; [exact Ha|]. split; [exact Hb|].
  exact (proj1 (proj2 (proj2
           (peel_covers_tape exampleLocked AxisX (mkVector3 1 0 0) (mkVector3 0 0 1)
              exampleLocked_reachable Ha Hb)))).
Defined.

(** ** Geometry of the curl *)

Lemma lengthSq_combination n f x y :
  lengthSq (vadd (vscale n x) (vscale f y))
  = x * x * lengthSq n + 2 * x * y * dot n f + y * y * lengthSq f.
Proof. destruct n, f. unfold lengthSq, dot, vadd, vscale. simpl. ring. Qed.

Lemma sin2_cos2' x : sin x * sin x + cos x * cos x = 1.
Proof. pose proof (sin2_cos2 x) as H. unfold Rsqr in H. exact H. Qed.

(** X13.  With an orthonormal pair of peel normal and flat direction
    and a positive curl radius [R], the shader puts every vertex of the
    curled region on the cylinder of radius [R] that touches the tape
    along the peel line: its distance from the axis point (the foot of
    the vertex on the peel line, lifted by [R] along the flat direction)
    is [R].  It does not move the vertex along the cylinder's axis
    (the tangent), it never moves it against the peel normal, and it
    lifts it by at most the diameter [2 R]. *)
Theorem curl_lies_on_cylinder (u : Uniforms) (p : Vector3 R) :
  lengthSq (uPeelNormal u) = 1 ->
  lengthSq (uFlatDir u) = 1 ->
  dot (uPeelNormal u) (uFlatDir u) = 0 ->
  0 < uCurlR u ->
  0 < peelDistance u p ->
  0 < uMaxDist u ->
  let s := peelDistance u p in
  let foot := vadd p (vscale (uPeelNormal u) s) in
  let centre := vadd foot (vscale (uFlatDir u) (uCurlR u)) in
  lengthSq (vsub (beginVertex u p) centre) = uCurlR u * uCurlR u
  /\ dot (vsub (beginVertex u p) p) (cross (uPeelNormal u) (uFlatDir u)) = 0
  /\ 0 <= dot (vsub (beginVertex u p) p) (uPeelNormal u)
  /\ 0 <= dot (vsub (beginVertex u p) p) (uFlatDir u) <= 2 * uCurlR u.
Proof.
  intros Hn Hf Hnf HR Hs Hm s foot centre. subst foot centre s.
  assert (Hc : Rgtb (peelDistance u p) 0 && Rgtb (uMaxDist u) 0 = true).
  { apply andb_true_iff. split; apply Rgtb_true; lra. }
  unfold beginVertex. rewrite Hc.
  set (s := peelDistance u p) in *. set (R0 := uCurlR u) in *.
  set (n := uPeelNormal u) in *. set (f := uFlatDir u) in *.
  set (a := s / R0).
  assert (E1 : vsub (vadd p (vadd (vscale n (s - R0 * sin a))
                                  (vscale f (R0 * (1 - cos a)))))
                    (vadd (vadd p (vscale n s)) (vscale f R0))
               = vadd (vscale n (- R0 * sin a)) (vscale f (- R0 * cos a))).
  { destruct p, n, f. unfold vsub, vadd, vscale. simpl. f_equal; ring. }
  assert (E2 : vsub (vadd p (vadd (vscale n (s - R0 * sin a))
                                  (vscale f (R0 * (1 - cos a))))) p
               = vadd (vscale n (s - R0 * sin a)) (vscale f (R0 * (1 - cos a)))).
  { destruct p, n, f. unfold vsub, vadd, vscale. simpl. f_equal; ring. }
  assert (Dn : forall x y, dot (vadd (vscale n x) (vscale f y)) n = x).
  { intros x y. transitivity (x * lengthSq n + y * dot n f).
    - destruct n, f. unfold lengthSq, dot, vadd, vscale. simpl. ring.
    - rewrite Hn, Hnf. ring. }
  assert (Df : forall x y, dot (vadd (vscale n x) (vscale f y)) f = y).
  { intros x y. transitivity (x * dot n f + y * lengthSq f).
    - destruct n, f. unfold lengthSq, dot, vadd, vscale. simpl. ring.
    - rewrite Hf, Hnf. ring. }
  rewrite E1, E2, Dn, Df.
  split.
  { rewrite lengthSq_combination, Hn, Hf, Hnf.
    pose proof (sin2_cos2' a) as T.
    replace (- R0 * sin a * (- R0 * sin a) * 1 + 2 * (- R0 * sin a) * (- R0 * cos a) * 0
             + - R0 * cos a * (- R0 * cos a) * 1)
      with (R0 * R0 * (sin a * sin a + cos a * cos a)) by ring.
    rewrite T. ring. }
  split.
  { destruct n, f. unfold dot, cross, vadd, vscale. simpl. ring. }
  assert (Ha : 0 <= a).
  { unfold a, Rdiv. apply Rmult_le_pos; [lra|]. left. apply Rinv_0_lt_compat. exact HR. }
  destruct (sin_bounds_nonneg a Ha) as [_ Hsin].
  destruct (COS_bound a) as [Hc1 Hc2].
  assert (Es : s = R0 * a) by (unfold a; field; lra).
  split; [nra|]. split; nra.
Qed.

Lemma curl_lies_on_cylinder_witness :
  0 < peelDistance (curlUniforms 1) flatVertex
  /\ lengthSq (vsub (beginVertex (curlUniforms 1) flatVertex)
                    (vadd (vadd flatVertex
                             (vscale (uPeelNormal (curlUniforms 1))
                                (peelDistance (curlUniforms 1) flatVertex)))
                          (vscale (uFlatDir (curlUniforms 1)) (uCurlR (curlUniforms 1)))))
     = uCurlR (curlUniforms 1) * uCurlR (curlUniforms 1).
Proof.
  assert (Hs : 0 < peelDistance (curlUniforms 1) flatVertex)
    by (unfold peelDistance, dot; simpl; lra).
  split; [exact Hs|].
  refine (proj1 (curl_lies_on_cylinder (curlUniforms 1) flatVertex _ _ _ _ Hs _)).
  - unfold lengthSq, dot. simpl. ring.
  - unfold lengthSq, dot. simpl. ring.
  - unfold dot. simpl. ring.
  - simpl. lra.
  - simpl. lra.
Defined.

(** The squared volume of the box spanned by three vectors, as a
    Gram determinant with an orthonormal pair. *)
Lemma triple_product_sq v n f :
  lengthSq n = 1 -> lengthSq f = 1 -> dot n f = 0 ->
  dot v (cross n f) * dot v (cross n f)
  = lengthSq v - dot v n * dot v n - dot v f * dot v f.
Proof.
  intros Hn Hf Hnf.
  transitivity (lengthSq v * (lengthSq n * lengthSq f - dot n f * dot n f)
                - dot v n * (dot v n * lengthSq f - dot n f * dot v f)
                + dot v f * (dot v n * dot n f - lengthSq n * dot v f)).
  - destruct v, n, f. unfold lengthSq, dot, cross. simpl. ring.
  - rewrite Hn, Hf, Hnf. ring.
Qed.

Lemma cross_orthonormal n f :
  lengthSq n = 1 -> lengthSq f = 1 -> dot n f = 0 ->
  lengthSq (cross n f) = 1 /\ dot n (cross n f) = 0 /\ dot f (cross n f) = 0.
Proof.
  intros Hn Hf Hnf. split; [|split].
  - transitivity (lengthSq n * lengthSq f - dot n f * dot n f).
    + destruct n, f. unfold lengthSq, dot, cross. simpl. ring.
    + rewrite Hn, Hf, Hnf. ring.
  - destruct n, f. unfold dot, cross. simpl. ring.
  - destruct n, f. unfold dot, cross. simpl. ring.
Qed.

Lemma lengthSq_frame n f t x y z :
  lengthSq n = 1 -> lengthSq f = 1 -> lengthSq t = 1 ->
  dot n f = 0 -> dot n t = 0 -> dot f t = 0 ->
  lengthSq (vadd (vadd (vscale n x) (vscale f y)) (vscale t z)) = x * x + y * y + z * z.
Proof.
  intros Hn Hf Ht Hnf Hnt Hft.
  transitivity (x * x * lengthSq n + y * y * lengthSq f + z * z * lengthSq t
                + 2 * x * y * dot n f + 2 * x * z * dot n t + 2 * y * z * dot f t).
  - destruct n, f, t. unfold lengthSq, dot, vadd, vscale. simpl. ring.
  - rewrite Hn, Hf, Ht, Hnf, Hnt, Hft. ring.
Qed.

(** X14.  With an orthonormal pair of peel normal and flat direction
    the shader turns the normal without stretching it: the normal that
    leaves the shader has the length of the normal that entered, and the
    same component along the tangent, at every vertex. *)
Theorem normal_rotation_keeps_length (u : Uniforms) (p v : Vector3 R) :
  lengthSq (uPeelNormal u) = 1 ->
  lengthSq (uFlatDir u) = 1 ->
  dot (uPeelNormal u) (uFlatDir u) = 0 ->
  lengthSq (beginNormalVertex u p v) = lengthSq v
  /\ dot (beginNormalVertex u p v) (cross (uPeelNormal u) (uFlatDir u))
     = dot v (cross (uPeelNormal u) (uFlatDir u)).
Proof.
  intros Hn Hf Hnf. unfold beginNormalVertex.
  destruct (Rgtb (peelDistance u p) 0 && Rgtb (uMaxDist u) 0); [|split; reflexivity].
  set (n := uPeelNormal u) in *. set (f := uFlatDir u) in *.
  set (a := peelDistance u p / uCurlR u).
  destruct (cross_orthonormal n f Hn Hf Hnf) as (Ht & Hnt & Hft).
  split.
  - rewrite (lengthSq_frame n f (cross n f)) by assumption.
    pose proof (triple_product_sq v n f Hn Hf Hnf) as G.
    pose proof (sin2_cos2' a) as T.
    set (c := cos a) in *. set (sn := sin a) in *.
    set (nP := dot v n) in *. set (nF := dot v f) in *.
    set (nK := dot v (cross n f)) in *.
    replace ((nP * c + nF * sn) * (nP * c + nF * sn)
             + (- nP * sn + nF * c) * (- nP * sn + nF * c) + nK * nK)
      with ((nP * nP + nF * nF) * (sn * sn + c * c) + nK * nK) by ring.
    rewrite T. lra.
  - transitivity ((dot v n * cos a + dot v f * sin a) * dot n (cross n f)
                  + (- dot v n * sin a + dot v f * cos a) * dot f (cross n f)
                  + dot v (cross n f) * lengthSq (cross n f)).
    + generalize (cross n f). intros t.
      destruct n, f, t. unfold lengthSq, dot, vadd, vscale. simpl. ring.
    + rewrite Hnt, Hft, Ht. ring.
Qed.

Lemma normal_rotation_keeps_length_witness :
  lengthSq (uPeelNormal (curlUniforms 1)) = 1
  /\ lengthSq (beginNormalVertex (curlUniforms 1) flatVertex (mkVector3 0 0 1))
     = lengthSq (mkVector3 0 0 1).
Proof.
  assert (Hn : lengthSq (uPeelNormal (curlUniforms 1)) = 1)
    by (unfold lengthSq, dot; simpl; ring).
  assert (Hf : lengthSq (uFlatDir (curlUniforms 1)) = 1)
    by (unfold lengthSq, dot; simpl; ring).
  assert (Hnf : dot (uPeelNormal (curlUniforms 1)) (uFlatDir (curlUniforms 1)) = 0)
    by (unfold dot; simpl; ring).
  split; [exact Hn|].
  exact (proj1 (normal_rotation_keeps_length (curlUniforms 1) flatVertex
                  (mkVector3 0 0 1) Hn Hf Hnf)).
Defined.

(** ** The regenerated tape *)

(** X15.  For a tape box that is not empty, set-up keeps the outline of
    the tape whatever the vertex count: along the length and the width
    axis the tape box it stores has the edges of the geometry's box.
    With 60 vertices or more it stores that box itself; with fewer, the
    regenerated grid is flat, at the middle of the box along the flat
    axis. *)
Theorem setup_keeps_outline (boundingBox : Box3 R) (vertCount : nat)
    (worldDirZ : R) (bananaBB : Box3 JS.num) :
  vx (bmin boundingBox) <= vx (bmax boundingBox) ->
  vy (bmin boundingBox) <= vy (bmax boundingBox) ->
  vz (bmin boundingBox) <= vz (bmax boundingBox) ->
  let s := setupTapePeel boundingBox vertCount worldDirZ bananaBB in
  let a := axes (scene s) in
  let bb := tapeBB (scene s) in
  ((60 <= vertCount)%nat -> bb = boundingBox)
  /\ getAxis (bmin bb) (lengthAxis a) = getAxis (bmin boundingBox) (lengthAxis a)
  /\ getAxis (bmax bb) (lengthAxis a) = getAxis (bmax boundingBox) (lengthAxis a)
  /\ getAxis (bmin bb) (widthAxis a) = getAxis (bmin boundingBox) (widthAxis a)
  /\ getAxis (bmax bb) (widthAxis a) = getAxis (bmax boundingBox) (widthAxis a)
  /\ ((vertCount < 60)%nat ->
      getAxis (bmin bb) (flatAxis a) = getAxis (bmax bb) (flatAxis a)
      /\ getAxis (bmin bb) (flatAxis a)
         = (getAxis (bmin boundingBox) (flatAxis a)
            + getAxis (bmax boundingBox) (flatAxis a)) * 0.5).
Proof.
  intros Hx Hy Hz. cbv zeta.
  destruct boundingBox as [[x0 y0 z0] [x1 y1 z1]]. simpl in Hx, Hy, Hz.
  unfold setupTapePeel. cbn [scene axes tapeBB].
  assert (He : isEmpty (mkBox3 (mkVector3 x0 y0 z0) (mkVector3 x1 y1 z1)) = false).
  { unfold isEmpty. cbn [bmin bmax vx vy vz].
    rewrite !orb_false_iff. repeat split; apply Rltb_false; lra. }
  unfold getSize, getCenter. rewrite He.
  destruct (vertCount <? 60)%nat eqn:Hv.
  - apply Nat.ltb_lt in Hv.
    split; [intros; lia|].
    unfold classifyAxes, dims, dimAxis, byLenDesc, regeneratedBB, vsub, vadd, vscale.
    cbn [bmin bmax vx vy vz sort insertSorted len].
    repeat (rcases; cbn [nth axis lengthAxis widthAxis flatAxis getAxis setAxis
                         bmin bmax vx vy vz vzero insertSorted len]);
      repeat split; intros; unfold vzero; cbn [vx vy vz]; lra.
  - apply Nat.ltb_ge in Hv.
    split; [reflexivity|]. repeat split; try reflexivity; intros; lia.
Qed.

Lemma setup_keeps_outline_witness :
  vx (bmin exampleBox) <= vx (bmax exampleBox)
  /\ getAxis (bmin (tapeBB (scene (setupTapePeel exampleBox 4 1 exampleBanana))))
       (lengthAxis (axes (scene (setupTapePeel exampleBox 4 1 exampleBanana))))
     = getAxis (bmin exampleBox)
         (lengthAxis (axes (scene (setupTapePeel exampleBox 4 1 exampleBanana)))).
Proof.
  assert (Hx : vx (bmin exampleBox) <= vx (bmax exampleBox)) by (simpl; lra).
  assert (Hy : vy (bmin exampleBox) <= vy (bmax exampleBox)) by (simpl; lra).
  assert (Hz : vz (bmin exampleBox) <= vz (bmax exampleBox)) by (simpl; lra).
  split; [exact Hx|].
  exact (proj1 (proj2 (setup_keeps_outline exampleBox 4 1 exampleBanana Hx Hy Hz))).
Defined.

(* ================================================================== *)
(** * Properties of [ModelViewer.tsx] *)
(* ================================================================== *)

(** What every state of a mounted viewer satisfies: the model shows the
    tracked angles; nothing is tracked before the asset has loaded; and
    in automatic mode the automatic angle is the tracked one. *)
Lemma viewer_reachable_inv s :
  Viewer.reachable s ->
  Viewer.disposed s = false
  /\ (Viewer.rotationY s = Viewer.currentRotY s
      /\ Viewer.rotationX s = Viewer.currentRotX s)
  /\ (Viewer.model s = false ->
      Viewer.currentRotY s = 0 /\ Viewer.currentRotX s = 0)
  /\ (Viewer.autoRotate s = true -> Viewer.autoAngle s = Viewer.currentRotY s).
Proof.
  induction 1 as [| s ev _ (D & (Ry & Rx) & N & A) | s _ (D & (Ry & Rx) & N & A) M].
  - cbn. repeat split; reflexivity.
  - destruct ev as [| x y rect | | touches rect | | delta];
      [ | | | destruct touches as [|[x y] ?] | | ];
      try (unfold Viewer.step, Viewer.animate; rewrite D;
           destruct (Viewer.model s) eqn:M; [destruct (Viewer.autoRotate s) eqn:Au|]);
      cbn; repeat split; auto; try (intros; discriminate); try (apply N; auto).
  - unfold Viewer.onLoad. rewrite D. cbn.
    destruct (N M) as [Ny Nx]. repeat split; auto; intros; discriminate.
Qed.


Lemma viewer_loaded_reachable :
  Viewer.reachable (Viewer.onLoad Viewer.initial).
Proof. apply Viewer.reachable_load; [apply Viewer.reachable_initial | reflexivity]. Qed.


Lemma animationTime_bounds deltas :
  Viewer.animationTime deltas <= INR (length deltas) / 30
  /\ ((forall d, In d deltas -> 0 <= d) -> 0 <= Viewer.animationTime deltas)
  /\ ((forall d, In d deltas -> 1 / 30 <= d) ->
      Viewer.animationTime deltas = INR (length deltas) / 30).
Proof.
  induction deltas as [|d deltas (I1 & I2 & I3)].
  - cbn. repeat split; intros; lra.
  - change (Viewer.animationTime (d :: deltas))
      with (Rmin d (1 / 30) + Viewer.animationTime deltas).
    change (length (d :: deltas)) with (S (length deltas)). rewrite S_INR.
    repeat split.
    + pose proof (Rmin_r d (1 / 30)). lra.
    + intros Hd. assert (0 <= d) by (apply Hd; left; reflexivity).
      assert (0 <= Viewer.animationTime deltas) by (apply I2; intros; apply Hd; right; assumption).
      assert (0 <= Rmin d (1 / 30)) by (apply Rmin_glb; lra). lra.
    + intros Hd. assert (1 / 30 <= d) by (apply Hd; left; reflexivity).
      rewrite I3 by (intros; apply Hd; right; assumption).
      rewrite Rmin_right by lra. lra.
Qed.

Lemma viewer_auto_frames deltas : forall s,
  Viewer.disposed s = false ->
  Viewer.model s = true ->
  Viewer.autoRotate s = true ->
  Viewer.autoAngle s = Viewer.currentRotY s ->
  Viewer.rotationY s = Viewer.currentRotY s ->
  let s' := Viewer.run s (map Viewer.Frame deltas) in
  Viewer.rotationY s' = Viewer.rotationY s + ((PI * 2) / 10) * Viewer.animationTime deltas
  /\ Viewer.autoRotate s' = true.
Proof.
  induction deltas as [|d deltas IH]; intros s D M Au A Ry; cbn zeta.
  - cbn. split; [lra | assumption].
  - change (Viewer.run s (map Viewer.Frame (d :: deltas)))
      with (Viewer.run (Viewer.animate d s) (map Viewer.Frame deltas)).
    change (Viewer.animationTime (d :: deltas))
      with (Rmin d (1 / 30) + Viewer.animationTime deltas).
    assert (E : Viewer.animate d s
                = Viewer.mkState false true true (Viewer.mouseX s) (Viewer.mouseY s)
                    (Viewer.targetRotY s) (Viewer.targetRotX s)
                    (Viewer.autoAngle s + ((PI * 2) / 10) * Rmin d (1 / 30)) 0
                    (Viewer.autoAngle s + ((PI * 2) / 10) * Rmin d (1 / 30))
                    (Viewer.autoAngle s + ((PI * 2) / 10) * Rmin d (1 / 30)) 0).
    { unfold Viewer.animate. rewrite D, M, Au. reflexivity. }
    rewrite E.
    match goal with |- context [Viewer.run ?st _] =>
      destruct (IH st eq_refl eq_refl eq_refl eq_refl eq_refl) as [I1 I2] end.
    cbv zeta in I1, I2. rewrite I1, I2. cbn [Viewer.rotationY].
    rewrite Ry, A. split; [lra | reflexivity].
Qed.

(** X17.  Left alone, the loaded model turns about its vertical axis at
    one revolution per ten seconds of animation time, where every frame
    counts for its delta but for no more than 1/30 s: a slow frame never
    turns the model by more than a 300th of a revolution, and frames of
    1/30 s or longer turn it by exactly that. *)
Theorem viewer_turns_once_in_ten_seconds (s : Viewer.State) (deltas : list R) :
  Viewer.reachable s ->
  Viewer.model s = true ->
  Viewer.autoRotate s = true ->
  let s' := Viewer.run s (map Viewer.Frame deltas) in
  Viewer.rotationY s'
  = Viewer.rotationY s + (2 * PI) * (Viewer.animationTime deltas / 10)
  /\ ((forall d, In d deltas -> 0 <= d) ->
      Viewer.rotationY s <= Viewer.rotationY s'
      <= Viewer.rotationY s + (2 * PI) * (INR (length deltas) / 300))
  /\ ((forall d, In d deltas -> 1 / 30 <= d) ->
      Viewer.rotationY s'
      = Viewer.rotationY s + (2 * PI) * (INR (length deltas) / 300)).
Proof.
  intros Hr M Au. cbv zeta.
  destruct (viewer_reachable_inv s Hr) as (D & (Ry & Rx) & _ & A).
  destruct (viewer_auto_frames deltas s D M Au (A Au) Ry) as [E _]. cbv zeta in E.
  destruct (animationTime_bounds deltas) as (B1 & B2 & B3).
  pose proof PI_RGT_0 as Hpi.
  rewrite E. repeat split.
  - lra.
  - apply B2 in H. nra.
  - nra.
  - intros Hd. rewrite (B3 Hd). lra.
Qed.

Lemma viewer_turns_once_in_ten_seconds_witness :
  Viewer.rotationY
    (Viewer.run (Viewer.onLoad Viewer.initial) (map Viewer.Frame [1 / 60; 1]))
  = Viewer.rotationY (Viewer.onLoad Viewer.initial)
    + (2 * PI) * (Viewer.animationTime [1 / 60; 1] / 10).
Proof.
  apply (viewer_turns_once_in_ten_seconds (Viewer.onLoad Viewer.initial) [1 / 60; 1]).
  - apply viewer_loaded_reachable.
  - reflexivity.
  - reflexivity.
Defined.

Lemma viewer_frame_shown d s :
  (Viewer.rotationY s = Viewer.currentRotY s
   /\ Viewer.rotationX s = Viewer.currentRotX s)
  \/ (Viewer.disposed s = false /\ Viewer.model s = true) ->
  Viewer.rotationY (Viewer.animate d s) = Viewer.currentRotY (Viewer.animate d s)
  /\ Viewer.rotationX (Viewer.animate d s) = Viewer.currentRotX (Viewer.animate d s).
Proof.
  intros H. unfold Viewer.animate.
  destruct (Viewer.disposed s) eqn:D; [destruct H as [H|[H _]]; [exact H|discriminate]|].
  destruct (Viewer.model s) eqn:M; [|destruct H as [H|[_ H]]; [exact H|discriminate]].
  destruct (Viewer.autoRotate s); cbn; split; reflexivity.
Qed.

Lemma viewer_frames_shown deltas : forall s,
  Viewer.rotationY s = Viewer.currentRotY s
  /\ Viewer.rotationX s = Viewer.currentRotX s ->
  let s' := Viewer.run s (map Viewer.Frame deltas) in
  Viewer.rotationY s' = Viewer.currentRotY s'
  /\ Viewer.rotationX s' = Viewer.currentRotX s'.
Proof.
  induction deltas as [|d deltas IH]; intros s H; cbv zeta.
  - exact H.
  - change (Viewer.run s (map Viewer.Frame (d :: deltas)))
      with (Viewer.run (Viewer.animate d s) (map Viewer.Frame deltas)).
    apply IH. apply viewer_frame_shown. left. exact H.
Qed.

Lemma viewer_manual_frames deltas : forall s,
  Viewer.disposed s = false ->
  Viewer.model s = true ->
  Viewer.autoRotate s = false ->
  let s' := Viewer.run s (map Viewer.Frame deltas) in
  Viewer.currentRotY s'
  = Viewer.mouseX s * PI
    - 0.92 ^ length deltas * (Viewer.mouseX s * PI - Viewer.currentRotY s)
  /\ Viewer.currentRotX s'
     = Viewer.mouseY s * PI * 0.3
       - 0.92 ^ length deltas * (Viewer.mouseY s * PI * 0.3 - Viewer.currentRotX s).
Proof.
  induction deltas as [|d deltas IH]; intros s D M Au; cbv zeta.
  - cbn. split; lra.
  - change (Viewer.run s (map Viewer.Frame (d :: deltas)))
      with (Viewer.run (Viewer.animate d s) (map Viewer.Frame deltas)).
    assert (E : Viewer.animate d s
                = Viewer.mkState false true false (Viewer.mouseX s) (Viewer.mouseY s)
                    (Viewer.mouseX s * PI) (Viewer.mouseY s * PI * 0.3)
                    (Viewer.currentRotY s
                     + (Viewer.mouseX s * PI - Viewer.currentRotY s) * 0.08)
                    (Viewer.currentRotX s
                     + (Viewer.mouseY s * PI * 0.3 - Viewer.currentRotX s) * 0.08)
                    (Viewer.autoAngle s)
                    (Viewer.currentRotY s
                     + (Viewer.mouseX s * PI - Viewer.currentRotY s) * 0.08)
                    (Viewer.currentRotX s
                     + (Viewer.mouseY s * PI * 0.3 - Viewer.currentRotX s) * 0.08)).
    { unfold Viewer.animate. rewrite D, M, Au. reflexivity. }
    rewrite E.
    match goal with |- context [Viewer.run ?st _] =>
      destruct (IH st eq_refl eq_refl eq_refl) as (I1 & I2) end.
    cbv zeta in I1, I2. rewrite I1, I2.
    cbn [Viewer.mouseX Viewer.mouseY Viewer.currentRotY Viewer.currentRotX].
    change (length (d :: deltas)) with (S (length deltas)).
    rewrite <- tech_pow_Rmult.
    generalize (0.92 ^ length deltas). intros k.
    split; lra.
Qed.

Lemma pow_092_bounds n : 0 < 0.92 ^ n <= 1.
Proof.
  induction n as [|n [I1 I2]].
  - simpl. lra.
  - rewrite <- tech_pow_Rmult. split; nra.
Qed.

(** X18.  While the pointer rests over the loaded model, every frame
    moves both angles 8 % of the remaining way towards the pointer's
    angles, whatever the frame's duration: after [n] frames the distance
    left is [0.92 ^ n] of the initial one, so the model approaches the
    target from its side and never passes it. *)
Theorem viewer_follows_pointer (s : Viewer.State) (deltas : list R) :
  Viewer.disposed s = false ->
  Viewer.model s = true ->
  Viewer.autoRotate s = false ->
  let s' := Viewer.run s (map Viewer.Frame deltas) in
  let targetY := Viewer.mouseX s * PI in
  let targetX := Viewer.mouseY s * PI * 0.3 in
  targetY - Viewer.currentRotY s'
  = 0.92 ^ length deltas * (targetY - Viewer.currentRotY s)
  /\ targetX - Viewer.currentRotX s'
     = 0.92 ^ length deltas * (targetX - Viewer.currentRotX s)
  /\ (Viewer.currentRotY s <= targetY ->
      Viewer.currentRotY s <= Viewer.currentRotY s' <= targetY)
  /\ (targetY <= Viewer.currentRotY s ->
      targetY <= Viewer.currentRotY s' <= Viewer.currentRotY s)
  /\ (deltas <> [] ->
      Viewer.rotationY s' = Viewer.currentRotY s'
      /\ Viewer.rotationX s' = Viewer.currentRotX s').
Proof.
  intros D M Au. cbv zeta.
  destruct (viewer_manual_frames deltas s D M Au) as (I1 & I2).
  cbv zeta in I1, I2.
  assert (I3 : deltas <> [] ->
               Viewer.rotationY (Viewer.run s (map Viewer.Frame deltas))
               = Viewer.currentRotY (Viewer.run s (map Viewer.Frame deltas))
               /\ Viewer.rotationX (Viewer.run s (map Viewer.Frame deltas))
                  = Viewer.currentRotX (Viewer.run s (map Viewer.Frame deltas))).
  { destruct deltas as [|d rest]; [congruence|]. intros _.
    change (Viewer.run s (map Viewer.Frame (d :: rest)))
      with (Viewer.run (Viewer.animate d s) (map Viewer.Frame rest)).
    apply viewer_frames_shown. apply viewer_frame_shown. right. split; assumption. }
  split; [|split; [|split; [|split; [|exact I3]]]]; clear I3; revert I1 I2;
    pose proof (pow_092_bounds (length deltas)) as [K1 K2];
    revert K1 K2; generalize (0.92 ^ length deltas); intros k K1 K2 I1 I2.
  - lra.
  - lra.
  - intros; split; nra.
  - intros; split; nra.
Qed.

Lemma viewer_follows_pointer_witness :
  let s := Viewer.onMouseMove 75 50 (Viewer.mkRect 0 0 100 100)
             (Viewer.onMouseEnter (Viewer.onLoad Viewer.initial)) in
  Viewer.mouseX s * PI - Viewer.currentRotY (Viewer.run s (map Viewer.Frame [1 / 60; 1 / 60]))
  = 0.92 ^ 2 * (Viewer.mouseX s * PI - Viewer.currentRotY s).
Proof.
  cbv zeta.
  apply (viewer_follows_pointer
           (Viewer.onMouseMove 75 50 (Viewer.mkRect 0 0 100 100)
              (Viewer.onMouseEnter (Viewer.onLoad Viewer.initial)))
           [1 / 60; 1 / 60]); reflexivity.
Defined.




Lemma Rmax3_cases a b c :
  let m := Rmax (Rmax a b) c in
  a <= m /\ b <= m /\ c <= m /\ (m = a \/ m = b \/ m = c).
Proof.
  cbv zeta. unfold Rmax.
  destruct (Rle_dec a b); destruct (Rle_dec _ c); repeat split; auto; lra.
Qed.

Lemma lengthSq_rotateY angle v : lengthSq (Viewer.rotateY angle v) = lengthSq v.
Proof.
  unfold lengthSq, dot, Viewer.rotateY. cbn [vx vy vz].
  pose proof (sin2_cos2' angle) as H.
  replace ((cos angle * vx v + sin angle * vz v) * (cos angle * vx v + sin angle * vz v)
           + vy v * vy v
           + (- sin angle * vx v + cos angle * vz v)
             * (- sin angle * vx v + cos angle * vz v))
    with ((sin angle * sin angle + cos angle * cos angle) * (vx v * vx v + vz v * vz v)
          + vy v * vy v) by ring.
  rewrite H. ring.
Qed.

Lemma lengthSq_rotateX angle v : lengthSq (Viewer.rotateX angle v) = lengthSq v.
Proof.
  unfold lengthSq, dot, Viewer.rotateX. cbn [vx vy vz].
  pose proof (sin2_cos2' angle) as H.
  replace (vx v * vx v
           + (cos angle * vy v - sin angle * vz v) * (cos angle * vy v - sin angle * vz v)
           + (sin angle * vy v + cos angle * vz v) * (sin angle * vy v + cos angle * vz v))
    with ((sin angle * sin angle + cos angle * cos angle) * (vy v * vy v + vz v * vz v)
          + vx v * vx v) by ring.
  rewrite H. ring.
Qed.

(** Turning and scaling are linear: the vector between the images of
    two points is the image of the vector between them. *)
Lemma toScene_difference p rotX rotY a b :
  vsub (Viewer.toScene p rotX rotY a) (Viewer.toScene p rotX rotY b)
  = Viewer.rotateX rotX (Viewer.rotateY rotY (vscale (vsub a b) (Viewer.scale p))).
Proof.
  unfold Viewer.toScene, Viewer.rotateX, Viewer.rotateY, vsub, vadd, vscale.
  cbn [vx vy vz]. f_equal; ring.
Qed.

Lemma lengthSq_vscale v k : lengthSq (vscale v k) = k * k * lengthSq v.
Proof. unfold lengthSq, dot, vscale. cbn [vx vy vz]. ring. Qed.

Lemma rotate_zero p v :
  Viewer.toScene p 0 0 v = vadd (vscale v (Viewer.scale p)) (Viewer.position p).
Proof.
  unfold Viewer.toScene, Viewer.rotateX, Viewer.rotateY, vadd, vscale.
  cbn [vx vy vz]. rewrite cos_0, sin_0. f_equal; ring.
Qed.

(** X20.  The viewer scales a loaded model so that its largest extent,
    along its own axes, is 2.2 units, whatever its size, as long as its
    box has a positive extent; and at every pair of angles the frame
    callback gives it, the distance between two of its points is the
    scale times their distance in the model.  It turns about its own
    origin, which the placement puts at [- center], the centre of its
    box measured before scaling; the centre of the box stays at the
    distance [scale * |center|] from that pivot.  So a model whose box
    is centred on its own origin has the centre of its box on the scene
    origin at every angle; for any other, the centre of the box is as
    loaded (both angles [0]) at [(scale - 1) * center], which is the
    scene origin only if the largest extent was 2.2 already. *)
Theorem viewer_model_fits (box : Box3 R) (rotX rotY : R) (a b : Vector3 R) :
  isEmpty box = false ->
  0 < lengthSq (getSize box) ->
  let p := Viewer.placeModel box in
  let size := getSize box in
  let center := getCenter box in
  let scaled := vscale size (Viewer.scale p) in
  0 < Viewer.scale p
  /\ Rmax (Rmax (vx scaled) (vy scaled)) (vz scaled) = 2.2
  /\ vsub (Viewer.toScene p 0 0 (bmax box)) (Viewer.toScene p 0 0 (bmin box)) = scaled
  /\ lengthSq (vsub (Viewer.toScene p rotX rotY a) (Viewer.toScene p rotX rotY b))
     = Viewer.scale p * Viewer.scale p * lengthSq (vsub a b)
  /\ Viewer.toScene p rotX rotY vzero = vsub vzero center
  /\ lengthSq (vsub (Viewer.toScene p rotX rotY center) (vsub vzero center))
     = Viewer.scale p * Viewer.scale p * lengthSq center
  /\ (center = vzero -> Viewer.toScene p rotX rotY center = vzero)
  /\ Viewer.toScene p 0 0 center = vscale center (Viewer.scale p - 1)
  /\ (Viewer.toScene p 0 0 center = vzero <->
      center = vzero \/ Rmax (Rmax (vx size) (vy size)) (vz size) = 2.2).
Proof.
  intros He Hpos. cbv zeta.
  assert (Hdist : forall q x y,
             lengthSq (vsub (Viewer.toScene q rotX rotY x) (Viewer.toScene q rotX rotY y))
             = Viewer.scale q * Viewer.scale q * lengthSq (vsub x y)).
  { intros q x y.
    rewrite toScene_difference, lengthSq_rotateX, lengthSq_rotateY, lengthSq_vscale.
    reflexivity. }
  assert (Hpivot : forall q, Viewer.toScene q rotX rotY vzero = Viewer.position q).
  { intros q. unfold Viewer.toScene, Viewer.rotateX, Viewer.rotateY, vadd, vscale, vzero.
    cbn [vx vy vz]. destruct (Viewer.position q) as [x y z]. cbn [vx vy vz].
    f_equal; ring. }
  assert (Hcircle : lengthSq (vsub (Viewer.toScene (Viewer.placeModel box) rotX rotY
                                      (getCenter box))
                                (vsub vzero (getCenter box)))
                    = Viewer.scale (Viewer.placeModel box)
                      * Viewer.scale (Viewer.placeModel box) * lengthSq (getCenter box)).
  { replace (vsub vzero (getCenter box))
      with (Viewer.toScene (Viewer.placeModel box) rotX rotY vzero)
      by (rewrite Hpivot; reflexivity).
    rewrite Hdist. f_equal.
    unfold lengthSq, dot, vsub, vzero. cbn [vx vy vz]. ring. }
  assert (Hzero : getCenter box = vzero ->
                  Viewer.toScene (Viewer.placeModel box) rotX rotY (getCenter box)
                  = vzero).
  { intros E. rewrite E. rewrite Hpivot. unfold Viewer.placeModel.
    cbn [Viewer.position]. rewrite E. unfold vsub, vzero. cbn [vx vy vz].
    f_equal; ring. }
  rewrite !rotate_zero.
  revert Hcircle Hzero. generalize (Viewer.toScene (Viewer.placeModel box) rotX rotY
                                      (getCenter box)).
  intros image Hcircle Hzero.
  rewrite Hdist, Hpivot. clear Hdist Hpivot.
  unfold Viewer.placeModel in *. cbn [Viewer.scale Viewer.position] in *.
  assert (Hs : getSize box = vsub (bmax box) (bmin box))
    by (unfold getSize; rewrite He; reflexivity).
  unfold isEmpty in He.
  apply orb_false_iff in He. destruct He as [He Hz].
  apply orb_false_iff in He. destruct He as [Hx Hy].
  apply Rltb_false in Hx, Hy, Hz.
  destruct (Rmax3_cases (vx (getSize box)) (vy (getSize box))
              (vz (getSize box))) as (Mx & My & Mz & Mc).
  revert Hcircle Mx My Mz Mc.
  generalize (Rmax (Rmax (vx (getSize box)) (vy (getSize box)))
                (vz (getSize box))).
  intros m Hcircle Mx My Mz Mc.
  assert (Hm : 0 < m).
  { rewrite Hs in Hpos, Mx, My, Mz. unfold lengthSq, dot, vsub in Hpos.
    cbn [vx vy vz vsub] in *.
    destruct (Rle_dec m 0) as [Hle|]; [|lra]. exfalso.
    assert (vx (bmax box) - vx (bmin box) = 0) as E1 by lra.
    assert (vy (bmax box) - vy (bmin box) = 0) as E2 by lra.
    assert (vz (bmax box) - vz (bmin box) = 0) as E3 by lra.
    rewrite E1, E2, E3 in Hpos. lra. }
  assert (Hk : 0 < 2.2 / m) by (apply Rdiv_lt_0_compat; lra).
  assert (Hkm : 2.2 / m * m = 2.2) by (field; lra).
  split; [exact Hk|].
  split.
  { rewrite Hs in *. unfold vsub, vadd, vscale in *. cbn [vx vy vz] in *.
    revert Hk Hkm. generalize (2.2 / m). intros k Hk Hkm.
    match goal with |- Rmax (Rmax ?a ?b) ?c = _ =>
      destruct (Rmax3_cases a b c) as (Nx & Ny & Nz & Nc);
      revert Nx Ny Nz Nc; generalize (Rmax (Rmax a b) c) end.
    intros n Nx Ny Nz Nc.
    assert (n <= k * m) by (destruct Nc as [->|[->| ->]]; nra).
    assert (k * m <= n) by (destruct Mc as [->|[->| ->]]; nra).
    lra. }
  split.
  { rewrite Hs. unfold vsub, vadd, vscale. cbn [vx vy vz]. f_equal; ring. }
  split; [reflexivity|]. split; [reflexivity|]. split; [exact Hcircle|].
  split; [exact Hzero|].
  split.
  { unfold vsub, vadd, vscale, vzero. cbn [vx vy vz]. f_equal; ring. }
  clear Hcircle Hzero.
  revert Hk Hkm. generalize (2.2 / m). intros k Hk Hkm.
  generalize (getCenter box). intros [cx cy cz].
  unfold vsub, vadd, vscale, vzero. cbn [vx vy vz].
  split.
  - intros E. injection E as E1 E2 E3.
    destruct (Req_dec_T k 1) as [K|K].
    + right. rewrite K in Hkm. lra.
    + left. f_equal; nra.
  - intros [E | E].
    + injection E as -> -> ->. f_equal; ring.
    + assert (k = 1) by nra. subst k. f_equal; ring.
Qed.

Lemma viewer_model_fits_witness :
  0 < Viewer.scale (Viewer.placeModel exampleBox)
  /\ Viewer.toScene (Viewer.placeModel exampleBox) 0.3 PI vzero
     = vsub vzero (getCenter exampleBox)
  /\ lengthSq (vsub (Viewer.toScene (Viewer.placeModel exampleBox) 0.3 PI
                       (getCenter exampleBox))
                 (vsub vzero (getCenter exampleBox)))
     = Viewer.scale (Viewer.placeModel exampleBox)
       * Viewer.scale (Viewer.placeModel exampleBox) * lengthSq (getCenter exampleBox).
Proof.
  assert (He : isEmpty exampleBox = false).
  { unfold isEmpty, Rltb, exampleBox; cbn. rdecide; reflexivity. }
  assert (Hp : 0 < lengthSq (getSize exampleBox)).
  { unfold getSize, isEmpty, Rltb, exampleBox, lengthSq, dot; cbn.
    rdecide; cbn; lra. }
  destruct (viewer_model_fits exampleBox 0.3 PI vzero vzero He Hp)
    as (W1 & _ & _ & _ & W5 & W6 & _).
  split; [exact W1|]. split; [exact W5 | exact W6].
Defined.

(* ================================================================== *)
(** * Properties of [app/page.tsx] and of the landing page *)
(* ================================================================== *)

Lemma page_step_rank phase ev : (Page.rank phase <= Page.rank (Page.step phase ev))%nat.
Proof. destruct phase, ev; cbn; lia. Qed.

Lemma page_run_rank evs : forall phase,
  (Page.rank phase <= Page.rank (Page.run phase evs))%nat.
Proof.
  induction evs as [|ev evs IH]; intros phase; cbn; [lia|].
  specialize (IH (Page.step phase ev)). unfold Page.run in IH.
  pose proof (page_step_rank phase ev). lia.
Qed.

Lemma page_run_intro evs :
  Page.run Page.intro evs = Page.intro <-> ~ In Page.TransitionCallback evs.
Proof.
  induction evs as [|ev evs IH]; cbn.
  - tauto.
  - destruct ev; cbn.
    + split.
      * intros E. pose proof (page_run_rank evs Page.transition) as Hr.
        unfold Page.run in Hr. rewrite E in Hr. cbn in Hr. lia.
      * intros Hn. exfalso. apply Hn. left. reflexivity.
    + unfold Page.run in IH. rewrite IH. split.
      * intros Hn [E|Hin]; [discriminate | tauto].
      * tauto.
Qed.

(** X21.  The page only moves forward through its phases: whatever
    transition callbacks and timers arrive, in whatever order, the phase
    never goes back, so the canvas once unmounted stays unmounted and
    the landing page once mounted stays mounted, and one of the two is
    always shown.  The page leaves the intro exactly when a transition
    callback has arrived, and a callback that arrives later changes
    nothing. *)
Theorem page_moves_forward (phase : Page.Phase) (evs : list Page.Event) :
  let phase' := Page.run phase evs in
  (Page.rank phase <= Page.rank phase')%nat
  /\ (Page.showsCanvas phase = false -> Page.showsCanvas phase' = false)
  /\ (Page.showsLanding phase = true -> Page.showsLanding phase' = true)
  /\ (Page.run Page.intro evs = Page.intro <-> ~ In Page.TransitionCallback evs)
  /\ (Page.showsCanvas phase' = true \/ Page.showsLanding phase' = true)
  /\ (phase <> Page.intro -> Page.handleTransition phase = phase).
Proof.
  cbv zeta.
  pose proof (page_run_rank evs phase) as Hrank.
  split; [exact Hrank|].
  split; [|split; [|split; [apply page_run_intro|split]]].
  - destruct phase; cbn; try discriminate. intros _.
    destruct (Page.run Page.landing evs); cbn in *; (reflexivity || lia).
  - destruct phase; cbn; try discriminate; intros _;
      destruct (Page.run _ evs); cbn in *; (reflexivity || lia).
  - destruct (Page.run phase evs); cbn; auto.
  - destruct phase; cbn; congruence.
Qed.

Lemma app_step_inv w i :
  ((forall c, App.canvas w = Some c ->
      reachable c /\ (App.phase w = Page.intro -> transitionFired (phys c) = false))
   /\ (App.phase w = Page.landing -> App.canvas w = None)) ->
  ((forall c, App.canvas (App.step w i) = Some c ->
      reachable c
      /\ (App.phase (App.step w i) = Page.intro -> transitionFired (phys c) = false))
   /\ (App.phase (App.step w i) = Page.landing -> App.canvas (App.step w i) = None))
  /\ (Page.rank (App.phase w) <= Page.rank (App.phase (App.step w i)))%nat.
Proof.
  destruct w as [ph c]. cbn [App.phase App.canvas]. intros [I1 I2].
  destruct i as [bb n wz b | ev |]; cbn [App.step App.phase App.canvas].
  - destruct ph, c as [s|]; cbn [App.phase App.canvas];
      (split; [split|]); try lia; try exact I1; try exact I2; try discriminate.
    + intros c E. injection E as <-. split; [apply reachable_setup | reflexivity].
    + intros c E. injection E as <-. split; [apply reachable_setup | reflexivity].
  - destruct c as [s|]; cbn [App.phase App.canvas];
      [|split; [split; assumption | lia]].
    cbv zeta.
    destruct (I1 s eq_refl) as [Hr Hi].
    assert (Hr' : reachable (step s ev)) by (constructor; exact Hr).
    destruct (reachable_transition s Hr) as (K & _).
    destruct (reachable_transition _ Hr') as (K' & _).
    destruct (transitions (audio s) <? transitions (audio (step s ev)))%nat eqn:Hcall.
    + destruct ph; cbn [Page.handleTransition App.Phase_eqb App.remount
                        App.phase App.canvas Page.rank].
      * split; [split|lia]; intros; discriminate.
      * split; [split|lia]; [|discriminate].
        intros c E. injection E as <-. split; [exact Hr' | discriminate].
      * specialize (I2 eq_refl). discriminate.
    + apply Nat.ltb_ge in Hcall.
      assert (Hph : App.remount ph ph (Some (step s ev)) = Some (step s ev))
        by (destruct ph; reflexivity).
      rewrite Hph. cbn [App.phase App.canvas].
      split; [split|lia].
      * intros c E. injection E as <-. split; [exact Hr'|].
        intros Hintro. specialize (Hi Hintro). rewrite Hi in K.
        rewrite K in Hcall. rewrite K' in Hcall.
        destruct (transitionFired (phys (step s ev))); [lia | reflexivity].
      * intros Hl. specialize (I2 Hl). discriminate.
  - destruct ph; cbn [Page.timerFires App.Phase_eqb App.remount App.phase App.canvas
                      Page.rank];
      (split; [split|lia]); try exact I1; try exact I2; try discriminate;
      intros; reflexivity.
Qed.

Lemma app_run_inv inputs : forall w,
  ((forall c, App.canvas w = Some c ->
      reachable c /\ (App.phase w = Page.intro -> transitionFired (phys c) = false))
   /\ (App.phase w = Page.landing -> App.canvas w = None)) ->
  ((forall c, App.canvas (App.run w inputs) = Some c ->
      reachable c
      /\ (App.phase (App.run w inputs) = Page.intro -> transitionFired (phys c) = false))
   /\ (App.phase (App.run w inputs) = Page.landing -> App.canvas (App.run w inputs) = None))
  /\ (Page.rank (App.phase w) <= Page.rank (App.phase (App.run w inputs)))%nat.
Proof.
  induction inputs as [|i inputs IH]; intros w I.
  - split; [exact I | cbn; lia].
  - cbn [App.run fold_left]. fold (App.run (App.step w i) inputs).
    destruct (app_step_inv w i I) as [I' Hrank].
    destruct (IH _ I') as [J Hrank'].
    split; [exact J | lia].
Qed.

(** Canvas events in phase [intro]: the page stays there, with the
    instance, until the event that sets the flag. *)
Lemma app_hand_over evs : forall s,
  reachable s ->
  transitionFired (phys s) = false ->
  App.run (App.mkWorld Page.intro (Some s)) (map App.Canvas evs)
  = if transitionFired (phys (run s evs))
    then App.mkWorld Page.transition None
    else App.mkWorld Page.intro (Some (run s evs)).
Proof.
  induction evs as [|ev evs IH]; intros s Hr Hfired.
  - cbn. rewrite Hfired. reflexivity.
  - cbn [map App.run fold_left run]. fold (run (step s ev) evs).
    fold (App.run (App.step (App.mkWorld Page.intro (Some s)) (App.Canvas ev))
            (map App.Canvas evs)).
    assert (Hr' : reachable (step s ev)) by (constructor; exact Hr).
    destruct (reachable_transition s Hr) as (K & _).
    destruct (reachable_transition _ Hr') as (K' & _).
    cbn [App.step App.phase App.canvas]. cbv zeta.
    rewrite K, K', Hfired.
    destruct (transitionFired (phys (step s ev))) eqn:Hfired'.
    + cbn [Nat.ltb Nat.leb Page.handleTransition App.remount App.Phase_eqb].
      rewrite (transitionFired_run evs _ Hfired').
      clear. induction evs as [|ev evs IH]; [reflexivity|].
      cbn [map App.run fold_left App.step App.canvas]. exact IH.
    + cbn [Nat.ltb Nat.leb App.remount App.Phase_eqb].
      apply IH; assumption.
Qed.

(** X22.  The page and the canvas together.  The callback the page
    hands the canvas is rebuilt when the phase changes, and the effect
    of the canvas depends on it, so a change of phase replaces the
    running canvas.  From the start, whatever the loader, the pointer,
    the frames and the timer do: the phase never goes back; a canvas
    that is set up is in a state its own events can reach, so that what
    holds of one run of the canvas holds of it; in phase [intro] it has
    not set its flag [transitionFired]; and in phase [landing] none is
    mounted.  While the page is in [intro], a run of canvas events
    leaves it there with its canvas as long as the flag is not set, and
    the event that sets the flag takes the page to [transition] and
    discards that canvas, peeled tape and fallen body included: the
    effect starts again and loads its model anew. *)
Theorem transition_remounts_canvas (inputs more : list App.Input)
    (s : State) (evs : list Event) :
  let w := App.run App.initial inputs in
  (forall c, App.canvas w = Some c -> reachable c)
  /\ (App.phase w = Page.intro ->
      forall c, App.canvas w = Some c -> transitionFired (phys c) = false)
  /\ (App.phase w = Page.landing -> App.canvas w = None)
  /\ (Page.rank (App.phase w) <= Page.rank (App.phase (App.run w more)))%nat
  /\ (reachable s ->
      transitionFired (phys s) = false ->
      App.run (App.mkWorld Page.intro (Some s)) (map App.Canvas evs)
      = if transitionFired (phys (run s evs))
        then App.mkWorld Page.transition None
        else App.mkWorld Page.intro (Some (run s evs))).
Proof.
  cbv zeta.
  assert (I0 : (forall c, App.canvas App.initial = Some c ->
                  reachable c
                  /\ (App.phase App.initial = Page.intro ->
                      transitionFired (phys c) = false))
               /\ (App.phase App.initial = Page.landing -> App.canvas App.initial = None)).
  { split; [intros c E; discriminate | intros; reflexivity]. }
  destruct (app_run_inv inputs App.initial I0) as [[I1 I2] _].
  destruct (app_run_inv more _ (conj I1 I2)) as [_ Hrank].
  split; [intros c E; apply (I1 c E)|].
  split; [intros Hi c E; apply (I1 c E); exact Hi|].
  split; [exact I2|]. split; [exact Hrank|].
  intros Hr Hfired. apply app_hand_over; assumption.
Qed.

Lemma transition_remounts_canvas_witness :
  transitionFired (phys quickFallen) = false
  /\ App.run (App.mkWorld Page.intro (Some quickFallen))
       (map App.Canvas (repeat (Frame (1 / 30)) 19))
     = App.mkWorld Page.transition None.
Proof.
  destruct quickFallen_state as (Hr & Hf & _ & _ & _ & _ & _ & Hfired & Hv & Hy).
  split; [exact Hfired|].
  assert (Hcalled : transitions (audio (run quickFallen (repeat (Frame (1 / 30)) 19)))
                    = 1%nat).
  { apply (fall_reaches_transition quickFallen (repeat (Frame (1 / 30)) 19) (1 / 30));
      auto; try lra.
    - apply Forall_forall. intros ev Hin. apply repeat_spec in Hin. subst ev.
      intros delta E. injection E as <-. lra.
    - rewrite countFrames_repeat. replace (INR 19) with 19 by (simpl; lra). lra. }
  destruct (reachable_transition _ (reachable_run quickFallen
                                      (repeat (Frame (1 / 30)) 19) Hr)) as (K & _).
  assert (Hend : transitionFired (phys (run quickFallen (repeat (Frame (1 / 30)) 19)))
                 = true).
  { destruct (transitionFired (phys (run quickFallen (repeat (Frame (1 / 30)) 19))));
      [reflexivity | rewrite Hcalled in K; discriminate]. }
  pose proof (proj2 (proj2 (proj2 (proj2
                (transition_remounts_canvas [] [] quickFallen
                   (repeat (Frame (1 / 30)) 19)))))) as H.
  cbv beta in H. rewrite (H Hr Hfired), Hend. reflexivity.
Defined.

Lemma click_range s c :
  (1 <= Landing.qty s <= 20)%Z ->
  (1 <= Landing.qty (Landing.click s c) <= 20)%Z.
Proof.
  intros H. destruct c; cbn; unfold Landing.decrement, Landing.increment.
  - destruct (Z.gtb_spec (Landing.qty s) 1); cbn; lia.
  - destruct (Z.ltb_spec (Landing.qty s) 20); cbn; lia.
Qed.

Lemma plus_clicks n : forall s,
  (Landing.qty s <= 20)%Z ->
  Landing.qty (fold_left Landing.click (repeat Landing.Plus n) s)
  = Z.min 20 (Landing.qty s + Z.of_nat n).
Proof.
  induction n as [|n IH]; intros s H.
  - cbn. lia.
  - cbn [repeat fold_left]. rewrite IH.
    + cbn. unfold Landing.increment.
      destruct (Z.ltb_spec (Landing.qty s) 20); cbn; lia.
    + cbn. unfold Landing.increment.
      destruct (Z.ltb_spec (Landing.qty s) 20); cbn; lia.
Qed.

Lemma minus_clicks n : forall s,
  (1 <= Landing.qty s)%Z ->
  Landing.qty (fold_left Landing.click (repeat Landing.Minus n) s)
  = Z.max 1 (Landing.qty s - Z.of_nat n).
Proof.
  induction n as [|n IH]; intros s H.
  - cbn. lia.
  - cbn [repeat fold_left]. rewrite IH.
    + cbn. unfold Landing.decrement.
      destruct (Z.gtb_spec (Landing.qty s) 1); cbn; lia.
    + cbn. unfold Landing.decrement.
      destruct (Z.gtb_spec (Landing.qty s) 1); cbn; lia.
Qed.

(** X23.  The quantity of the mint box stays between 1 and 20 whatever
    buttons are clicked: a click bounces the number exactly when it
    changes the quantity, and otherwise changes nothing; [n] clicks on
    plus give [min 20 (qty + n)] and [n] clicks on minus
    [max 1 (qty - n)]. *)
Theorem qty_stays_in_range (s : Landing.Qty) (clicks : list Landing.Click) (n : nat) :
  (1 <= Landing.qty s <= 20)%Z ->
  (1 <= Landing.qty (fold_left Landing.click clicks s) <= 20)%Z
  /\ (forall c,
        (Landing.qty (Landing.click s c) <> Landing.qty s <->
         Landing.bounces (Landing.click s c) = S (Landing.bounces s))
        /\ (Landing.qty (Landing.click s c) = Landing.qty s ->
            Landing.click s c = s))
  /\ Landing.qty (fold_left Landing.click (repeat Landing.Plus n) s)
     = Z.min 20 (Landing.qty s + Z.of_nat n)
  /\ Landing.qty (fold_left Landing.click (repeat Landing.Minus n) s)
     = Z.max 1 (Landing.qty s - Z.of_nat n).
Proof.
  intros H. split; [|split; [|split]].
  - revert s H. induction clicks as [|c clicks IH]; intros s H; cbn; [exact H|].
    apply IH. apply click_range. exact H.
  - intros c. destruct c; cbn; unfold Landing.decrement, Landing.increment.
    + destruct (Z.gtb_spec (Landing.qty s) 1); cbn;
        repeat split; intros; try reflexivity; lia.
    + destruct (Z.ltb_spec (Landing.qty s) 20); cbn;
        repeat split; intros; try reflexivity; lia.
  - apply plus_clicks. lia.
  - apply minus_clicks. lia.
Qed.

Lemma qty_stays_in_range_witness :
  (1 <= Landing.qty
          (fold_left Landing.click [Landing.Minus; Landing.Plus] Landing.initialQty)
   <= 20)%Z.
Proof.
  apply (qty_stays_in_range Landing.initialQty [Landing.Minus; Landing.Plus] 0).
  cbn. lia.
Defined.

(** X24.  The mint button runs one cycle at a time: from the initial
    state, whatever clicks and timers arrive, the status is [idle] with
    no timer pending, [connecting] with only the 1200 ms timer pending,
    or [done] with only the 2000 ms timer pending.  So a click is taken
    only when idle, and a click during a cycle neither restarts it nor
    adds a timer. *)
Theorem mint_one_cycle_at_a_time (evs : list Landing.MintEvent) :
  let s := fold_left Landing.mintStep evs Landing.initialMint in
  (s = Landing.mkMint Landing.idle []
   \/ s = Landing.mkMint Landing.connecting [Landing.After1200]
   \/ s = Landing.mkMint Landing.done [Landing.After2000])
  /\ (Landing.mintStatus s <> Landing.idle -> Landing.handleMint s = s)
  /\ (Landing.mintStatus s = Landing.connecting ->
      Landing.fire Landing.After2000 s = s
      /\ Landing.fire Landing.After2000
           (Landing.fire Landing.After1200 s) = Landing.initialMint).
Proof.
  cbv zeta.
  assert (Inv : forall evs s,
             (s = Landing.mkMint Landing.idle []
              \/ s = Landing.mkMint Landing.connecting [Landing.After1200]
              \/ s = Landing.mkMint Landing.done [Landing.After2000]) ->
             let s' := fold_left Landing.mintStep evs s in
             s' = Landing.mkMint Landing.idle []
             \/ s' = Landing.mkMint Landing.connecting [Landing.After1200]
             \/ s' = Landing.mkMint Landing.done [Landing.After2000]).
  { clear evs. induction evs as [|ev evs IH]; intros s H; cbn; [exact H|].
    apply IH.
    destruct H as [-> | [-> | ->]]; destruct ev as [|[|]]; cbn; auto. }
  specialize (Inv evs Landing.initialMint (or_introl eq_refl)). cbv zeta in Inv.
  split; [exact Inv|].
  destruct Inv as [-> | [-> | ->]]; cbn; split;
    try (intros; congruence); try discriminate; intros; split; reflexivity.
Qed.

Lemma existsb_eqb_In e l : existsb (Nat.eqb e) l = true <-> In e l.
Proof.
  rewrite existsb_exists. split.
  - intros [x [Hin E]]. apply Nat.eqb_eq in E. subst. exact Hin.
  - intros Hin. exists e. split; [exact Hin | apply Nat.eqb_refl].
Qed.

Lemma addRevealRef_spec l el :
  NoDup l ->
  NoDup (Landing.addRevealRef l el)
  /\ (forall e, In e (Landing.addRevealRef l el) <-> In e l \/ el = Some e).
Proof.
  intros Hnd. destruct el as [x|]; cbn.
  - destruct (existsb (Nat.eqb x) l) eqn:E.
    + split; [exact Hnd|]. intros e. split; [tauto|].
      intros [H|H]; [exact H|]. injection H as ->. apply existsb_eqb_In. exact E.
    + assert (Hn : ~ In x l).
      { intros Hin. apply existsb_eqb_In in Hin. congruence. }
      split.
      * apply NoDup_app; [exact Hnd | repeat constructor; simpl; tauto |].
        intros a Ha [<-|[]]. tauto.
      * intros e. rewrite in_app_iff. cbn. split.
        -- intros [H|[->|[]]]; auto.
        -- intros [H|H]; [auto | injection H as ->; auto].
  - split; [exact Hnd|]. intros e. split; [tauto|]. intros [H|H]; [exact H | discriminate].
Qed.

(** X25.  The list of elements to reveal holds every element handed to
    [addRevealRef] once, however often React hands it over, and no
    [null]; it only grows, at its end, so an element keeps its index
    and hence its staggered delay. *)
Theorem reveal_refs_unique (revealRefs : list nat) (els : list (option nat)) :
  NoDup revealRefs ->
  let refs' := fold_left Landing.addRevealRef els revealRefs in
  NoDup refs'
  /\ (forall e, In e refs' <-> In e revealRefs \/ In (Some e) els)
  /\ (exists added, refs' = revealRefs ++ added).
Proof.
  revert revealRefs. induction els as [|el els IH]; intros l Hnd; cbv zeta; cbn.
  - split; [exact Hnd|]. split; [tauto|]. exists []. rewrite app_nil_r. reflexivity.
  - destruct (addRevealRef_spec l el Hnd) as [Hnd' Hin].
    destruct (IH _ Hnd') as (I1 & I2 & [added I3]). cbv zeta in I1, I2, I3.
    split; [exact I1|]. split.
    + intros e. rewrite I2, Hin. split.
      * intros [[H|H]|H]; auto.
      * intros [H|[H|H]]; auto.
    + rewrite I3. destruct el as [x|]; cbn.
      * destruct (existsb (Nat.eqb x) l).
        -- exists added. reflexivity.
        -- exists ([x] ++ added). rewrite app_assoc. reflexivity.
      * exists added. reflexivity.
Qed.

Lemma reveal_refs_unique_witness :
  NoDup (fold_left Landing.addRevealRef [Some 1%nat; None; Some 2%nat; Some 1%nat] []).
Proof.
  apply (reveal_refs_unique [] [Some 1%nat; None; Some 2%nat; Some 1%nat]).
  constructor.
Defined.
